(** * The page interpreter of the portfolio site (js/interpreter.js)

    A shallow embedding of the client-side renderer: route parsing,
    placeholder expansion, reference resolution, the rich-text formatter,
    the element renderers, page composition and script-block hydration.

    - JavaScript strings are sequences of UTF-16 code units; they are
      modelled as lists of [N], each below 65536.
    - Exceptions are modelled by a result type.
    - The functions of the platform the file calls ([encodeURIComponent],
      [decodeURIComponent], [String.prototype.replace], [split], [join])
      are modelled after ECMAScript.
    - The page document is read at its schema: a field is absent or a
      string, [brief] is absent or an array of strings, [elements] is
      absent or an array of element records, [items] is absent or an
      array of texts and item records.
    - Ambient configuration ([window.SITE_BASE], [window.CLASSES]), the
      browser's [location], the draws of [Math.random] and the outcomes of
      [fetch] are explicit arguments. *)

From Stdlib Require Import List NArith ZArith Lia Bool Ascii Arith Permutation.
From Stdlib Require String DecimalString.
Import ListNotations String.StringSyntax.
Delimit Scope string_scope with string.

Ltac Zify.zify_post_hook ::= Z.to_euclidean_division_equations.

Local Open Scope N_scope.

(* ------------------------------------------------------------------ *)
(** ** JavaScript strings *)

Module Js.

Definition jsstring := list N.

(** An ASCII literal as a JavaScript string. *)
Definition u (s : String.string) : jsstring :=
  map N_of_ascii (String.list_ascii_of_string s).
Arguments u s%_string.

(** The double quote, and a double-quoted attribute value. *)
Definition dq : jsstring := [34].
Definition q (s : jsstring) : jsstring := dq ++ s ++ dq.

Definition nl : jsstring := [10].
Definition sp (n : nat) : jsstring := repeat 32 n.

Fixpoint eqb (a b : jsstring) : bool :=
  match a, b with
  | [], [] => true
  | x :: a', y :: b' => (x =? y) && eqb a' b'
  | _, _ => false
  end.

(** [s.startsWith(p)] *)
Fixpoint startsWith (p s : jsstring) : bool :=
  match p, s with
  | [], _ => true
  | x :: p', y :: s' => (x =? y) && startsWith p' s'
  | _ :: _, [] => false
  end.

(** [s.endsWith(p)] *)
Definition endsWith (p s : jsstring) : bool :=
  startsWith (rev p) (rev s).

(** [s.includes(p)], also [regexp.test(s)] for a literal pattern. *)
Fixpoint includes (p s : jsstring) : bool :=
  startsWith p s ||
  match s with
  | [] => false
  | _ :: s' => includes p s'
  end.

(** [s.split(sep)] for a one-unit separator: never the empty array. *)
Fixpoint split (sep : N) (s : jsstring) : list jsstring :=
  match s with
  | [] => [[]]
  | c :: t =>
    if c =? sep then [] :: split sep t
    else match split sep t with
         | seg :: segs => (c :: seg) :: segs
         | [] => [[c]]
         end
  end.

(** [a.join(sep)] *)
Fixpoint join (sep : jsstring) (l : list jsstring) : jsstring :=
  match l with
  | [] => []
  | [x] => x
  | x :: l' => x ++ sep ++ join sep l'
  end.

(** [a.pop()] read as a value: the last element, if any. *)
Definition pop (l : list jsstring) : option jsstring :=
  match rev l with
  | [] => None
  | x :: _ => Some x
  end.

(** Truthiness of a value that is either [undefined]/[null] or a string. *)
Definition truthy (v : option jsstring) : bool :=
  match v with
  | Some (_ :: _) => true
  | _ => false
  end.

(** [v || d] for such a value and a string default. *)
Definition orElse (v : option jsstring) (d : jsstring) : jsstring :=
  match v with
  | Some (c :: t) => c :: t
  | _ => d
  end.

(** [a || b] where both may be [undefined]. *)
Definition orOpt (a b : option jsstring) : option jsstring :=
  if truthy a then a else b.

Definition slash : N := 47.

(** ASCII classes used by the regular expressions of the file. *)
Definition isDigit (c : N) : bool := (48 <=? c) && (c <=? 57).
Definition isUpper (c : N) : bool := (65 <=? c) && (c <=? 90).
Definition isLower (c : N) : bool := (97 <=? c) && (c <=? 122).
Definition isAlnum (c : N) : bool := isDigit c || isUpper c || isLower c.

(** [\w] *)
Definition isWord (c : N) : bool := isAlnum c || (c =? 95).

(** [\s]: WhiteSpace and LineTerminator code units. *)
Definition isSpace (c : N) : bool :=
  ((9 <=? c) && (c <=? 13)) || (c =? 32) || (c =? 160) || (c =? 5760) ||
  ((8192 <=? c) && (c <=? 8202)) || (c =? 8232) || (c =? 8233) ||
  (c =? 8239) || (c =? 8287) || (c =? 12288) || (c =? 65279).

(** [toLowerCase] on the ASCII letters; the other code units are kept.
    (The Unicode mapping sends no other code unit to an ASCII letter that
    occurs in a renderer key, a language suffix or a URL scheme.) *)
Definition lowerUnit (c : N) : N := if isUpper c then c + 32 else c.
Definition toLowerCase (s : jsstring) : jsstring := map lowerUnit s.

(** Case-insensitive prefix test, as a [/i] pattern of ASCII letters does
    it: a non-ASCII unit never matches an ASCII one. *)
Fixpoint startsWithI (p s : jsstring) : bool :=
  match p, s with
  | [], _ => true
  | x :: p', y :: s' => (lowerUnit x =? lowerUnit y) && startsWithI p' s'
  | _ :: _, [] => false
  end.

End Js.
Import Js.

(* ------------------------------------------------------------------ *)
(** ** Exceptions *)

Inductive error : Type :=
| URIError
| TypeError
| ReferenceError.

Inductive result (A : Type) : Type :=
| Ok (a : A)
| Throw (e : error).
Arguments Ok {A} a.
Arguments Throw {A} e.

Definition bind {A B} (r : result A) (k : A -> result B) : result B :=
  match r with
  | Ok a => k a
  | Throw e => Throw e
  end.

Notation "x <- r ;; k" := (bind r (fun x => k))
  (at level 61, r at next level, right associativity).

(** [a.map(f)] where [f] may throw: left to right, the first exception wins. *)
Fixpoint mapM {A B} (f : A -> result B) (l : list A) : result (list B) :=
  match l with
  | [] => Ok []
  | x :: l' => y <- f x ;; ys <- mapM f l' ;; Ok (y :: ys)
  end.

(* ------------------------------------------------------------------ *)
(** ** [encodeURIComponent] and [decodeURIComponent] (ECMAScript 19.2.6) *)

Module URI.

Definition isLead (c : N) : bool := (55296 <=? c) && (c <=? 56319).
Definition isTrail (c : N) : bool := (56320 <=? c) && (c <=? 57343).

(** uriUnreserved: letters, digits and [-_.!~*'()]. *)
Definition uriUnreserved (c : N) : bool :=
  isAlnum c ||
  existsb (N.eqb c) [45; 95; 46; 33; 126; 42; 39; 40; 41].

Definition hexDigit (n : N) : N := if n <? 10 then 48 + n else 55 + n.

Definition pct (octets : list N) : jsstring :=
  flat_map (fun b => [37; hexDigit (b / 16); hexDigit (b mod 16)]) octets.

(** The UTF-8 octets of a code point. *)
Definition utf8 (cp : N) : list N :=
  if cp <? 128 then [cp]
  else if cp <? 2048 then [192 + cp / 64; 128 + cp mod 64]
  else if cp <? 65536 then
    [224 + cp / 4096; 128 + (cp / 64) mod 64; 128 + cp mod 64]
  else
    [240 + cp / 262144; 128 + (cp / 4096) mod 64;
     128 + (cp / 64) mod 64; 128 + cp mod 64].

Definition codePoint (lead trail : N) : N :=
  (lead - 55296) * 1024 + (trail - 56320) + 65536.

(** Encode: an unpaired surrogate throws a URIError. *)
Fixpoint encodeURIComponent (s : jsstring) : result jsstring :=
  match s with
  | [] => Ok []
  | c :: t =>
    if uriUnreserved c then
      r <- encodeURIComponent t ;; Ok (c :: r)
    else if isLead c then
      match t with
      | d :: t' =>
        if isTrail d then
          r <- encodeURIComponent t' ;; Ok (pct (utf8 (codePoint c d)) ++ r)
        else Throw URIError
      | [] => Throw URIError
      end
    else if isTrail c then Throw URIError
    else r <- encodeURIComponent t ;; Ok (pct (utf8 c) ++ r)
  end.

Definition hexVal (c : N) : option N :=
  if isDigit c then Some (c - 48)
  else if (65 <=? c) && (c <=? 70) then Some (c - 55)
  else if (97 <=? c) && (c <=? 102) then Some (c - 87)
  else None.

(** The octet written [%XY]. *)
Definition pctOctet (p x y : N) : option N :=
  if p =? 37 then
    match hexVal x, hexVal y with
    | Some h, Some l => Some (16 * h + l)
    | _, _ => None
    end
  else None.

Definition isCont (b : N) : bool := (128 <=? b) && (b <? 192).

(** UTF16EncodeCodePoint *)
Definition utf16 (v : N) : jsstring :=
  if v <? 65536 then [v]
  else [55296 + (v - 65536) / 1024; 56320 + (v - 65536) mod 1024].

(** The code point of a well-formed UTF-8 sequence of 2, 3 or 4 octets:
    continuation octets in 80..BF, no overlong form, no surrogate, at most
    10FFFF. *)
Definition decode2 (b0 b1 : N) : option N :=
  let v := (b0 - 192) * 64 + (b1 - 128) in
  if isCont b1 && (128 <=? v) then Some v else None.

Definition decode3 (b0 b1 b2 : N) : option N :=
  let v := (b0 - 224) * 4096 + (b1 - 128) * 64 + (b2 - 128) in
  if isCont b1 && isCont b2 && (2048 <=? v) && negb (isLead v || isTrail v)
  then Some v else None.

Definition decode4 (b0 b1 b2 b3 : N) : option N :=
  let v := (b0 - 240) * 262144 + (b1 - 128) * 4096 + (b2 - 128) * 64
           + (b3 - 128) in
  if isCont b1 && isCont b2 && isCont b3 && (65536 <=? v) && (v <=? 1114111)
  then Some v else None.

Definition emit (v : option N) (rest : result jsstring) : result jsstring :=
  match v with
  | Some cp => r <- rest ;; Ok (utf16 cp ++ r)
  | None => Throw URIError
  end.

(** Decode with an empty reserved set. *)
Fixpoint decodeURIComponent (s : jsstring) : result jsstring :=
  match s with
  | [] => Ok []
  | c :: t =>
    if negb (c =? 37) then r <- decodeURIComponent t ;; Ok (c :: r)
    else
      match t with
      | x0 :: y0 :: t1 =>
        match pctOctet c x0 y0 with
        | None => Throw URIError
        | Some b0 =>
          if b0 <? 128 then r <- decodeURIComponent t1 ;; Ok (b0 :: r)
          else if b0 <? 192 then Throw URIError
          else
            match t1 with
            | p1 :: x1 :: y1 :: t2 =>
              match pctOctet p1 x1 y1 with
              | None => Throw URIError
              | Some b1 =>
                if b0 <? 224 then emit (decode2 b0 b1) (decodeURIComponent t2)
                else
                  match t2 with
                  | p2 :: x2 :: y2 :: t3 =>
                    match pctOctet p2 x2 y2 with
                    | None => Throw URIError
                    | Some b2 =>
                      if b0 <? 240
                      then emit (decode3 b0 b1 b2) (decodeURIComponent t3)
                      else
                        match t3 with
                        | p3 :: x3 :: y3 :: t4 =>
                          match pctOctet p3 x3 y3 with
                          | None => Throw URIError
                          | Some b3 =>
                            if b0 <? 248
                            then emit (decode4 b0 b1 b2 b3)
                                      (decodeURIComponent t4)
                            else Throw URIError
                          end
                        | _ => Throw URIError
                        end
                    end
                  | _ => Throw URIError
                  end
              end
            | _ => Throw URIError
            end
        end
      | _ => Throw URIError
      end
  end.

(** No unpaired surrogate, and every element a code unit. *)
Fixpoint wellFormed (s : jsstring) : bool :=
  match s with
  | [] => true
  | c :: t =>
    if isLead c then
      match t with
      | d :: t' => isTrail d && wellFormed t'
      | [] => false
      end
    else negb (isTrail c) && (c <? 65536) && wellFormed t
  end.

End URI.
Import URI.

(* ------------------------------------------------------------------ *)
(** ** [String.prototype.replace] *)

Module Replace.

(** A pattern, as the replace loop uses it: [m before rest] tells whether
    the pattern matches at the start of [rest], the text to its left being
    [before], and gives the length of the match and its replacement.  No
    pattern of the file matches the empty string. *)
Definition matcher := jsstring -> jsstring -> option (nat * jsstring).

(** The loop of a global replace, left to right over the subject; [skip]
    counts the units of the current match still to be passed over.  What is
    substituted is not scanned again. *)
Fixpoint replaceFrom (m : matcher) (skip : nat) (before s : jsstring)
  : jsstring :=
  match s with
  | [] => []
  | c :: t =>
    match skip with
    | S k => replaceFrom m k (before ++ [c]) t
    | O =>
      match m before s with
      | Some (S k, r) => r ++ replaceFrom m k (before ++ [c]) t
      | _ => c :: replaceFrom m 0 (before ++ [c]) t
      end
    end
  end.

Definition replaceAll (m : matcher) (s : jsstring) : jsstring :=
  replaceFrom m 0 [] s.

(** GetSubstitution for a pattern without capture groups: in a replacement
    string [$$] is a dollar, [$&] the match, [$`] the text before it and
    [$'] the text after it; any other dollar is literal. *)
Fixpoint getSubstitution (matched before after repl : jsstring) : jsstring :=
  match repl with
  | [] => []
  | c :: t =>
    if c =? 36 then
      match t with
      | d :: t' =>
        if d =? 36 then 36 :: getSubstitution matched before after t'
        else if d =? 38 then matched ++ getSubstitution matched before after t'
        else if d =? 96 then before ++ getSubstitution matched before after t'
        else if d =? 39 then after ++ getSubstitution matched before after t'
        else c :: getSubstitution matched before after t
      | [] => [c]
      end
    else c :: getSubstitution matched before after t
  end.

(** The pattern [/tok/g] for a literal [tok], with a replacement string. *)
Definition literal (tok repl : jsstring) : matcher :=
  fun before s =>
    if startsWith tok s
    then Some (length tok,
               getSubstitution tok before (skipn (length tok) s) repl)
    else None.

(** [s.replace(/tok/g, repl)] *)
Definition replaceLit (tok repl s : jsstring) : jsstring :=
  replaceAll (literal tok repl) s.

(** [s.replace(/^\/+/, '')] *)
Fixpoint dropLeadingSlashes (s : jsstring) : jsstring :=
  match s with
  | c :: t => if c =? slash then dropLeadingSlashes t else s
  | [] => []
  end.

(** [s.replace(/\/+$/, '')]: cut at the first position from which only
    separators follow. *)
Fixpoint dropTrailingSlashes (s : jsstring) : jsstring :=
  match s with
  | [] => []
  | c :: t =>
    if forallb (N.eqb slash) s then [] else c :: dropTrailingSlashes t
  end.

(** The pattern [/^\/+|\/+$/g]. *)
Definition edgeSlashes : matcher :=
  fun before s =>
    match s with
    | c :: _ =>
      if c =? slash then
        match before with
        | [] => Some (length s - length (dropLeadingSlashes s), [])%nat
        | _ :: _ => if forallb (N.eqb slash) s then Some (length s, [])
                    else None
        end
      else None
    | [] => None
    end.

(** [s.replace(/\.[^.]+$/, '')]: cut at the first dot that is followed by
    at least one unit and by no other dot. *)
Fixpoint stripExt (s : jsstring) : jsstring :=
  match s with
  | [] => []
  | c :: t =>
    if (c =? 46) && negb (Nat.eqb (length t) 0)
       && forallb (fun x => negb (x =? 46)) t
    then []
    else c :: stripExt t
  end.

(** The longest prefix of units satisfying [f], and what follows it. *)
Fixpoint span (f : N -> bool) (s : jsstring) : jsstring * jsstring :=
  match s with
  | c :: t => if f c then let (a, b) := span f t in (c :: a, b) else ([], s)
  | [] => ([], [])
  end.

End Replace.
Import Replace.

(* ------------------------------------------------------------------ *)
(** ** The page document and the route *)

(** An entry of an [items] array. *)
Record Item : Type := {
  it_src : option jsstring;
  it_label : option jsstring;
  it_language : option jsstring;
  it_alt : option jsstring;
  it_description : option jsstring;
  it_code : option jsstring
}.

(** [items] holds texts (design brief) or records (media). *)
Inductive itemValue : Type :=
| ItemText (s : jsstring)
| ItemObj (it : Item).

Record Element : Type := {
  el_type : option jsstring;
  el_title : option jsstring;
  el_label : option jsstring;
  el_content : option jsstring;
  el_text : option jsstring;
  el_src : option jsstring;
  el_items : option (list itemValue)
}.

Record Page : Type := {
  title : option jsstring;
  name : option jsstring;
  date : option jsstring;
  type : option jsstring;
  brief : option (list jsstring);
  elements : option (list Element)
}.

(** [{ cls, id }]; [None] is [null]. *)
Record Route : Type := {
  cls : option jsstring;
  id : option jsstring
}.

(** What [parseRoute] reads of the browser's [location]:
    [new URLSearchParams(location.search).get('class')], [....get('id')]
    and [location.pathname]. *)
Record Location : Type := {
  search_class : option jsstring;
  search_id : option jsstring;
  pathname : jsstring
}.

Definition emptyItem : Item :=
  {| it_src := None; it_label := None; it_language := None;
     it_alt := None; it_description := None; it_code := None |}.

(** The page document [{}]. *)
Definition emptyPage : Page :=
  {| title := None; name := None; date := None; type := None;
     brief := None; elements := None |}.

(** Property access on an entry: a text has none of the properties. *)
Definition asItem (v : itemValue) : Item :=
  match v with
  | ItemObj it => it
  | ItemText _ => emptyItem
  end.

(** [String(v)] of an entry. *)
Definition asText (v : itemValue) : jsstring :=
  match v with
  | ItemText s => s
  | ItemObj _ => u "[object Object]"
  end.

(* ------------------------------------------------------------------ *)
(** ** Helpers of the interpreter *)

(** [normalizeBase(b)] *)
Definition normalizeBase (b : jsstring) : jsstring :=
  match b with
  | _ :: _ => if negb (endsWith (u "/") b) then b ++ u "/" else b
  | [] => u "/"
  end.

(** [filenameStem(id)] *)
Definition filenameStem (i : jsstring) : jsstring :=
  let last := orElse (pop (split slash i)) [] in
  stripExt last.

(** [guessLang(p)] *)
Definition guessLang (p : jsstring) : jsstring :=
  let s := toLowerCase p in
  if endsWith (u ".py") s then u "python"
  else if endsWith (u ".js") s || endsWith (u ".mjs") s
          || endsWith (u ".cjs") s then u "javascript"
  else if endsWith (u ".ts") s then u "typescript"
  else if endsWith (u ".cpp") s || endsWith (u ".cc") s
          || endsWith (u ".cxx") s then u "cpp"
  else if endsWith (u ".c") s then u "c"
  else if endsWith (u ".java") s then u "java"
  else if endsWith (u ".json") s then u "json"
  else if endsWith (u ".md") s then u "markdown"
  else if endsWith (u ".html") s then u "html"
  else if endsWith (u ".css") s then u "css"
  else [].

(** [normalizeType(t)]: lower case, every run of white space removed. *)
Definition normalizeType (t : option jsstring) : jsstring :=
  filter (fun c => negb (isSpace c)) (toLowerCase (orElse t [])).

(** [isHttp(url)]: the pattern [/^https?:\/\//i]. *)
Definition isHttp (url : jsstring) : bool :=
  startsWithI (u "https://") url || startsWithI (u "http://") url.

(** [expandTemplatePath(p, page, ctx)] *)
Definition expandTemplatePath (p : option jsstring) (page : Page)
           (ctx : Route) : jsstring :=
  let idStr := orElse (id ctx) [] in
  let file := filenameStem idStr in
  let templatedTitle :=
    replaceLit (u "{id}") idStr
      (replaceLit (u "{class}") (orElse (cls ctx) [])
         (replaceLit (u "{file}") file
            (orElse (title page) idStr))) in
  replaceLit (u "{file}") file
    (replaceLit (u "{id}") idStr
       (replaceLit (u "{type}") (orElse (type page) [])
          (replaceLit (u "{class}") (orElse (cls ctx) [])
             (replaceLit (u "{title}") templatedTitle
                (orElse p []))))).

(** The callback of [encodeLocalPath]:
    [seg => seg === '' ? '' : encodeURIComponent(seg)]. *)
Definition encodeSegment (seg : jsstring) : result jsstring :=
  match seg with
  | [] => Ok []
  | _ :: _ => encodeURIComponent seg
  end.

(** [encodeLocalPath(p)] *)
Definition encodeLocalPath (p : jsstring) : result jsstring :=
  segs <- mapM encodeSegment (split slash p) ;;
  Ok (join (u "/") segs).

(** Specification side: a local path percent-decoded segment by segment. *)
Definition decodeLocalPath (e : jsstring) : result jsstring :=
  segs <- mapM decodeURIComponent (split slash e) ;;
  Ok (join (u "/") segs).

Section Site.

(** [window.SITE_BASE], and the constant [CLASSES] ([window.CLASSES] when
    it is an array, the empty array otherwise). *)
Variable SITE_BASE : option jsstring.
Variable CLASSES : list jsstring.

Definition BASE : jsstring := normalizeBase (orElse SITE_BASE (u "/")).

(** [makeSrc(p, page, ctx)] *)
Definition makeSrc (p : option jsstring) (page : Page) (ctx : Route)
  : result jsstring :=
  let expanded := dropLeadingSlashes (expandTemplatePath p page ctx) in
  if isHttp expanded then Ok expanded
  else e <- encodeLocalPath expanded ;; Ok (BASE ++ e).

Definition nullRoute : Route := {| cls := None; id := None |}.

(** [parseRoute()] *)
Definition parseRoute (loc : Location) : result Route :=
  let clsQ := search_class loc in
  let idQ := search_id loc in
  if truthy clsQ && truthy idQ then
    c <- decodeURIComponent (orElse clsQ []) ;;
    i <- decodeURIComponent (orElse idQ []) ;;
    Ok {| cls := Some c; id := Some i |}
  else
    path <- decodeURIComponent (pathname loc) ;;
    let path :=
      if negb (eqb BASE (u "/")) && startsWith BASE path
      then skipn (length BASE) path else path in
    let parts := split slash (replaceAll edgeSlashes path) in
    if (2 <=? length parts)%nat then
      match parts with
      | c :: rest =>
        if negb (Nat.eqb (length CLASSES) 0) && negb (existsb (eqb c) CLASSES)
        then Ok nullRoute
        else Ok {| cls := Some c; id := Some (join (u "/") rest) |}
      | [] => Ok nullRoute
      end
    else Ok nullRoute.

(** The test [!cls || !id] of [boot], which shows the missing-route card
    instead of loading a page. *)
Definition missingRoute (r : Route) : bool :=
  negb (truthy (cls r)) || negb (truthy (id r)).

End Site.

(* ------------------------------------------------------------------ *)
(** ** The rich-text formatter *)

Fixpoint lookup (k : jsstring) (tbl : list (jsstring * jsstring))
  : option jsstring :=
  match tbl with
  | [] => None
  | (k', v) :: tbl' => if eqb k k' then Some v else lookup k tbl'
  end.

(** The object literal of [escapeHtml], key by key as it is written. *)
Definition entityTable : list (jsstring * jsstring) :=
  [ (u "&", u "&amp;");
    (u "<", u "&lt;");
    (u "&gt;", u "&gt;");
    (dq, u "&quot;");
    (u "'", u "&#39;") ].

(** The callback [c => table[c]]; replace turns a result of [undefined]
    into the text [undefined]. *)
Definition escapeUnit (c : N) : jsstring :=
  match lookup [c] entityTable with
  | Some e => e
  | None => u "undefined"
  end.

(** The class of the five units matched by [escapeHtml]: ampersand, less
    than, greater than, double quote and apostrophe. *)
Definition isHtmlSpecial (c : N) : bool :=
  existsb (N.eqb c) [38; 60; 62; 34; 39].

Definition htmlSpecial : matcher :=
  fun _ s =>
    match s with
    | c :: _ => if isHtmlSpecial c then Some (1%nat, escapeUnit c) else None
    | [] => None
    end.

(** [escapeHtml(s)] *)
Definition escapeHtml (s : jsstring) : jsstring :=
  replaceAll htmlSpecial s.

(** The URL pattern of [richText]: a scheme [http://] or [https://] and
    then at least one unit that is neither white space nor a closing
    parenthesis; the match becomes the target and the text of an anchor
    of class [btn]. *)
Definition bareUrl : matcher :=
  fun _ s =>
    let scheme :=
      if startsWith (u "https://") s then Some (u "https://")
      else if startsWith (u "http://") s then Some (u "http://")
      else None in
    match scheme with
    | Some sch =>
      let (run, _) :=
        span (fun c => negb (isSpace c || (c =? 41))) (skipn (length sch) s) in
      match run with
      | _ :: _ =>
        let m := sch ++ run in
        Some (length m,
              u "<a href=" ++ q m ++ u " class=" ++ q (u "btn") ++ u ">"
                ++ m ++ u "</a>")
      | [] => None
      end
    | None => None
    end.

(** A delimiter made of asterisks, at least one unit that is no asterisk,
    and the delimiter again; the enclosed run is wrapped in a tag. *)
Definition starred (delim tag : jsstring) : matcher :=
  fun _ s =>
    if startsWith delim s then
      let (run, rest) :=
        span (fun c => negb (c =? 42)) (skipn (length delim) s) in
      match run with
      | _ :: _ =>
        if startsWith delim rest
        then Some ((length delim + length run + length delim)%nat,
                   u "<" ++ tag ++ u ">" ++ run ++ u "</" ++ tag ++ u ">")
        else None
      | [] => None
      end
    else None.

(** [richText(s)] *)
Definition richText (s : jsstring) : jsstring :=
  let esc := escapeHtml s in
  let linked := replaceAll bareUrl esc in
  replaceAll (starred (u "*") (u "em"))
    (replaceAll (starred (u "**") (u "strong")) linked).

(* ------------------------------------------------------------------ *)
(** ** Video classification *)

(** The class [[0-9A-Za-z_-]]. *)
Definition isIdUnit (c : N) : bool := isAlnum c || (c =? 95) || (c =? 45).

(** [/(?:v=|\/)([0-9A-Za-z_-]{11})/] at the start of [s]: the group. *)
Definition videoIdAt (s : jsstring) : option jsstring :=
  let after :=
    if startsWith (u "v=") s then Some (skipn 2 s)
    else if startsWith (u "/") s then Some (skipn 1 s)
    else None in
  match after with
  | Some r =>
    let cand := firstn 11 r in
    if Nat.eqb (length cand) 11 && forallb isIdUnit cand
    then Some cand else None
  | None => None
  end.

(** [url.match(...)]: the group of the leftmost match. *)
Fixpoint videoId (s : jsstring) : option jsstring :=
  match videoIdAt s with
  | Some i => Some i
  | None =>
    match s with
    | [] => None
    | _ :: t => videoId t
    end
  end.

(** [/\.(mp4|webm|ogg)(\?|$)/i] at the start of [s]. *)
Definition videoExtAt (s : jsstring) : bool :=
  match s with
  | c :: r =>
    (c =? 46) &&
    existsb (fun e => startsWithI e r &&
                      match skipn (length e) r with
                      | [] => true
                      | x :: _ => x =? 63
                      end)
            [u "mp4"; u "webm"; u "ogg"]
  | [] => false
  end.

Fixpoint hasVideoExt (s : jsstring) : bool :=
  videoExtAt s ||
  match s with
  | [] => false
  | _ :: t => hasVideoExt t
  end.

(** The three fragments [toVideoEmbed] can return. *)
Definition hostedFrame (embed : jsstring) : jsstring :=
  u "<iframe class=" ++ q (u "video-frame") ++ u " src=" ++ q embed
    ++ u " allow="
    ++ q (u "accelerometer; autoplay; clipboard-write; encrypted-media; gyroscope; picture-in-picture")
    ++ u " allowfullscreen></iframe>".

Definition nativeVideo (url : jsstring) : jsstring :=
  u "<video class=" ++ q (u "video-frame") ++ u " controls src=" ++ q url
    ++ u "></video>".

Definition genericFrame (url : jsstring) : jsstring :=
  u "<iframe class=" ++ q (u "video-frame") ++ u " src=" ++ q url
    ++ u "></iframe>".

(** [/youtu\.be|youtube\.com/.test(url)] *)
Definition isVideoHost (url : jsstring) : bool :=
  includes (u "youtu.be") url || includes (u "youtube.com") url.

(** [toVideoEmbed(src)] *)
Definition toVideoEmbed (url : jsstring) : jsstring :=
  if isVideoHost url then
    let embed :=
      match videoId url with
      | Some i => u "https://www.youtube.com/embed/" ++ i
      | None => url
      end in
    hostedFrame embed
  else if hasVideoExt url then nativeVideo url
  else genericFrame url.

(* ------------------------------------------------------------------ *)
(** ** The element renderers *)

(** [String(n)] for an array index. *)
Definition decimal (n : nat) : jsstring :=
  u (DecimalString.NilEmpty.string_of_uint (Nat.to_uint n)).

(** [a.map((x, k) => f(x, k))] where [f] may throw. *)
Fixpoint mapMi {A B} (f : A -> nat -> result B) (k : nat) (l : list A)
  : result (list B) :=
  match l with
  | [] => Ok []
  | x :: l' => y <- f x k ;; ys <- mapMi f (S k) l' ;; Ok (y :: ys)
  end.

(** [section(title, innerHtml)] *)
Definition section (ttl innerHtml : jsstring) : jsstring :=
  u "<section class=" ++ q (u "element") ++ u ">" ++ nl ++ sp 6
    ++ u "<h2 class=" ++ q (u "element-title") ++ u ">" ++ escapeHtml ttl
    ++ u "</h2>" ++ nl ++ sp 6
    ++ innerHtml ++ nl ++ sp 4
    ++ u "</section>".

(** [<div class=card>...</div>] around formatted text. *)
Definition textCard (inner : jsstring) : jsstring :=
  u "<div class=" ++ q (u "card") ++ u ">" ++ inner ++ u "</div>".

(** [normalizeItems(el)] *)
Definition normalizeItems (el : Element) : list itemValue :=
  match el_items el with
  | Some items => items
  | None =>
    if truthy (el_src el)
    then [ItemObj {| it_src := el_src el; it_label := el_label el;
                     it_language := None; it_alt := None;
                     it_description := None; it_code := None |}]
    else []
  end.

Definition PDF_ZOOM : jsstring := u "100".

(** The two figures of the image renderer. *)
Definition imgTag (src alt : jsstring) : jsstring :=
  u "<img class=" ++ q (u "image-frame") ++ u " src=" ++ q src
    ++ u " alt=" ++ q alt ++ u " loading=" ++ q (u "lazy") ++ u ">".

Definition describedFigure (alignClass label img text : jsstring)
  : jsstring :=
  u "<figure class=" ++ q (u "media media-described " ++ alignClass)
    ++ u ">" ++ nl ++ sp 20
    ++ u "<figcaption class=" ++ q (u "media-caption") ++ u ">" ++ label
    ++ u "</figcaption>" ++ nl ++ sp 20
    ++ u "<div class=" ++ q (u "media-wrap") ++ u ">" ++ img ++ text
    ++ u "</div>" ++ nl ++ sp 18
    ++ u "</figure>".

Definition centeredFigure (label img : jsstring) : jsstring :=
  u "<figure class=" ++ q (u "media") ++ u ">" ++ nl ++ sp 18
    ++ u "<figcaption class=" ++ q (u "media-caption") ++ u ">" ++ label
    ++ u "</figcaption>" ++ nl ++ sp 18
    ++ u "<div class=" ++ q (u "media-center") ++ u ">" ++ img
    ++ u "</div>" ++ nl ++ sp 16
    ++ u "</figure>".

(** The label, the alternative text and the description block of an
    image item. *)
Definition imageLabel (it : Item) : jsstring :=
  escapeHtml (orElse (it_label it) (u "Image")).

Definition imageAlt (page : Page) (it : Item) : jsstring :=
  escapeHtml
    (orElse (orOpt (orOpt (it_alt it) (it_label it)) (title page)) []).

Definition imageDesc (desc : jsstring) : jsstring :=
  u "<div class=" ++ q (u "image-desc") ++ u ">" ++ richText desc
    ++ u "</div>".

Section Renderers.

Variable SITE_BASE : option jsstring.

(** [Math.random().toString(36).slice(2,8)], as drawn for item [k] of
    element [i]. *)
Variable randomSuffix : nat -> nat -> jsstring.

Definition renderSynopsis (el : Element) : jsstring :=
  let text := orElse (orOpt (el_content el) (el_text el)) [] in
  let ttl := orElse (el_title el) (u "Synopsis") in
  section ttl (textCard (richText text)).

Definition renderDesignbrief (el : Element) : jsstring :=
  match el_items el with
  | Some items =>
    let blocks :=
      concat (map (fun txt =>
                     u "<div class=" ++ q (u "card") ++ u " style="
                       ++ q (u "margin-top:10px") ++ u ">"
                       ++ richText (asText txt) ++ u "</div>")
                  items) in
    section (orElse (el_title el) (u "Design Brief")) blocks
  | None =>
    section (orElse (el_title el) (u "Design Brief"))
            (textCard (richText (orElse (el_content el) [])))
  end.

Definition renderNotes (el : Element) : jsstring :=
  section (orElse (orOpt (el_title el) (el_label el)) (u "Notes"))
          (textCard (richText (orElse (el_content el) []))).

Definition pdfFigure (page : Page) (ctx : Route) (v : itemValue)
  : result jsstring :=
  let it := asItem v in
  src <- makeSrc SITE_BASE (it_src it) page ctx ;;
  let label := escapeHtml (orElse (it_label it) (u "PDF")) in
  zoom <- encodeURIComponent PDF_ZOOM ;;
  let embedUrl := src ++ u "#zoom=" ++ zoom in
  let iframe :=
    u "<iframe class=" ++ q (u "pdf-frame") ++ u " src=" ++ q embedUrl
      ++ u "></iframe>" in
  let actions :=
    nl ++ sp 10 ++ u "<div class=" ++ q (u "media-actions") ++ u ">"
      ++ nl ++ sp 12
      ++ u "<a class=" ++ q (u "btn") ++ u " href=" ++ q embedUrl
      ++ u " target=" ++ q (u "_blank") ++ u " rel=" ++ q (u "noopener")
      ++ u ">Open in new tab</a>" ++ nl ++ sp 12
      ++ u "<a class=" ++ q (u "btn") ++ u " href=" ++ q src
      ++ u " download>Download</a>" ++ nl ++ sp 10
      ++ u "</div>" in
  Ok (u "<figure class=" ++ q (u "media") ++ u ">" ++ nl ++ sp 18
        ++ u "<div class=" ++ q (u "media-center") ++ u ">" ++ iframe
        ++ u "</div>" ++ nl ++ sp 18
        ++ u "<figcaption class=" ++ q (u "media-caption") ++ u ">" ++ label
        ++ u "</figcaption>" ++ nl ++ sp 18
        ++ actions ++ nl ++ sp 16
        ++ u "</figure>").

Definition renderPdf (el : Element) (ctx : Route) (page : Page)
  : result jsstring :=
  figures <- mapM (pdfFigure page ctx) (normalizeItems el) ;;
  Ok (section (orElse (el_label el) (u "PDF")) (concat figures)).

Definition videoFigure (page : Page) (ctx : Route) (v : itemValue)
  : result jsstring :=
  let it := asItem v in
  src <- makeSrc SITE_BASE (it_src it) page ctx ;;
  let embed := toVideoEmbed src in
  let label := escapeHtml (orElse (it_label it) (u "Video")) in
  Ok (u "<figure class=" ++ q (u "media") ++ u ">" ++ nl ++ sp 18
        ++ u "<div class=" ++ q (u "media-center") ++ u ">" ++ embed
        ++ u "</div>" ++ nl ++ sp 18
        ++ u "<figcaption class=" ++ q (u "media-caption") ++ u ">" ++ label
        ++ u "</figcaption>" ++ nl ++ sp 16
        ++ u "</figure>").

Definition renderVideo (el : Element) (ctx : Route) (page : Page)
  : result jsstring :=
  figures <- mapM (videoFigure page ctx) (normalizeItems el) ;;
  Ok (section (orElse (el_label el) (u "Video")) (concat figures)).

Definition scriptFigure (page : Page) (ctx : Route) (i : nat)
           (v : itemValue) (k : nat) : result jsstring :=
  let it := asItem v in
  src <- (if truthy (it_code it) then Ok None
          else s <- makeSrc SITE_BASE (it_src it) page ctx ;; Ok (Some s)) ;;
  let label :=
    escapeHtml (orElse (orOpt (it_label it) (it_language it)) (u "Script")) in
  let lang :=
    escapeHtml (orElse (it_language it) (guessLang (orElse (it_src it) []))) in
  let codeId :=
    u "code-" ++ decimal i ++ u "-" ++ decimal k ++ u "-"
      ++ randomSuffix i k in
  let preAttrs :=
    join (u " ")
      (filter (fun a => negb (Nat.eqb (length a) 0))
         [ u "id=" ++ q codeId;
           u "class=" ++ q (u "code-window");
           match lang with
           | _ :: _ => u "data-lang=" ++ q lang
           | [] => []
           end;
           if truthy src then u "data-src=" ++ q (orElse src []) else [] ]) in
  let body :=
    if truthy (it_code it)
    then u "<pre " ++ preAttrs ++ u ">"
           ++ escapeHtml (orElse (it_code it) []) ++ u "</pre>"
    else u "<pre " ++ preAttrs ++ u ">Loading script" ++ [8230]
           ++ u "</pre>" in
  let actions :=
    nl ++ sp 10 ++ u "<div class=" ++ q (u "media-actions") ++ u ">"
      ++ nl ++ sp 12
      ++ u "<button class=" ++ q (u "btn btn-copy-code")
      ++ u " data-target=" ++ q codeId ++ u ">Copy</button>" ++ nl ++ sp 12
      ++ (if truthy src
          then u "<a class=" ++ q (u "btn") ++ u " href="
                 ++ q (orElse src []) ++ u " download>Download</a>"
          else [])
      ++ nl ++ sp 10 ++ u "</div>" in
  Ok (u "<figure class=" ++ q (u "media") ++ u ">" ++ nl ++ sp 18
        ++ u "<figcaption class=" ++ q (u "media-caption") ++ u ">" ++ label
        ++ u "</figcaption>" ++ nl ++ sp 18
        ++ body ++ nl ++ sp 18
        ++ actions ++ nl ++ sp 16
        ++ u "</figure>").

Definition renderScript (el : Element) (ctx : Route) (i : nat)
           (page : Page) : result jsstring :=
  figures <- mapMi (scriptFigure page ctx i) 0 (normalizeItems el) ;;
  Ok (section (orElse (el_label el) (u "Script")) (concat figures)).

(** One item of the image renderer, given the number of described items
    seen so far; it returns the figure and the new count. *)
Definition imageFigure (page : Page) (ctx : Route) (v : itemValue)
           (describedCount : nat) : result (jsstring * nat) :=
  let it := asItem v in
  src <- makeSrc SITE_BASE (it_src it) page ctx ;;
  let label := imageLabel it in
  let alt := imageAlt page it in
  let desc := orElse (it_description it) [] in
  match desc with
  | _ :: _ =>
    let alignLeft := Nat.eqb (describedCount mod 2) 0 in
    let alignClass := if alignLeft then u "align-left" else u "align-right" in
    let img := imgTag src alt in
    let text := imageDesc desc in
    Ok (describedFigure alignClass label img text, S describedCount)
  | [] =>
    let img := imgTag src alt in
    Ok (centeredFigure label img, describedCount)
  end.

(** [items.map(...)] of the image renderer: the counter is a variable of
    the enclosing call, shared by the items. *)
Fixpoint imageFigures (page : Page) (ctx : Route) (items : list itemValue)
         (describedCount : nat) : result (list jsstring) :=
  match items with
  | [] => Ok []
  | v :: rest =>
    fc <- imageFigure page ctx v describedCount ;;
    figs <- imageFigures page ctx rest (snd fc) ;;
    Ok (fst fc :: figs)
  end.

Definition renderImage (el : Element) (ctx : Route) (page : Page)
  : result jsstring :=
  figures <- imageFigures page ctx (normalizeItems el) 0 ;;
  Ok (section (orElse (el_label el) (u "Image")) (concat figures)).

(** [(RENDERERS[t] || renderUnknown)(el, ctx, i, page)].  The table has
    eight keys of its own; the keys [constructor] and [__proto__] reach
    members of [Object.prototype]: [Object(el)] is [el], which the
    final join writes as [[object Object]], and the prototype object is not
    callable.  No binding named [renderUnknown] exists, so reading it for
    any other tag throws a ReferenceError. *)
Definition renderElement (el : Element) (ctx : Route) (i : nat)
           (page : Page) : result jsstring :=
  let t := normalizeType (el_type el) in
  if eqb t (u "synopsis") then Ok (renderSynopsis el)
  else if eqb t (u "designbrief") then Ok (renderDesignbrief el)
  else if eqb t (u "notes") then Ok (renderNotes el)
  else if eqb t (u "pdf") then renderPdf el ctx page
  else if eqb t (u "video") then renderVideo el ctx page
  else if eqb t (u "script") then renderScript el ctx i page
  else if eqb t (u "image") then renderImage el ctx page
  else if eqb t (u "images") then renderImage el ctx page
  else if eqb t (u "constructor") then Ok (u "[object Object]")
  else if eqb t (u "__proto__") then Throw TypeError
  else Throw ReferenceError.

(** [renderElements(elements, ctx, page)] *)
Definition renderElements (els : list Element) (ctx : Route) (page : Page)
  : result jsstring :=
  match els with
  | [] => Ok []
  | _ :: _ =>
    frags <- mapMi (fun el i => renderElement el ctx i page) 0 els ;;
    Ok (concat frags)
  end.

End Renderers.

(* ------------------------------------------------------------------ *)
(** ** Page composition *)

(** The names every object inherits from [Object.prototype]; the [in]
    operator finds them as well as the object's own keys. *)
Definition objectPrototypeKeys : list jsstring :=
  [ u "constructor"; u "__defineGetter__"; u "__defineSetter__";
    u "hasOwnProperty"; u "__lookupGetter__"; u "__lookupSetter__";
    u "isPrototypeOf"; u "propertyIsEnumerable"; u "toString";
    u "valueOf"; u "__proto__"; u "toLocaleString" ].

Section Compose.

Variable SITE_BASE : option jsstring.
Variable randomSuffix : nat -> nat -> jsstring.

(** The text the engine gives for an inherited member when replace
    converts it to a string. *)
Variable nativeText : jsstring -> jsstring.

(** The callback of [tpl]: [k in vars ? vars[k] : `{${k}}`]. *)
Definition tplValue (vars : list (jsstring * jsstring)) (k : jsstring)
  : jsstring :=
  match lookup k vars with
  | Some v => v
  | None =>
    if existsb (eqb k) objectPrototypeKeys then nativeText k
    else u "{" ++ k ++ u "}"
  end.

(** The pattern [/\{(\w+)\}/g] with that callback. *)
Definition placeholder (vars : list (jsstring * jsstring)) : matcher :=
  fun _ s =>
    match s with
    | c :: t =>
      if c =? 123 then
        let (k, rest) := span isWord t in
        match k, rest with
        | _ :: _, d :: _ =>
          if d =? 125 then Some (S (length k + 1), tplValue vars k)
          else None
        | _, _ => None
        end
      else None
    | [] => None
    end.

(** [tpl(str, vars)] *)
Definition tpl (str : jsstring) (vars : list (jsstring * jsstring))
  : jsstring :=
  replaceAll (placeholder vars) str.

(** [a.slice(-2, -1)[0]] *)
Definition secondToLast (l : list jsstring) : option jsstring :=
  match rev l with
  | _ :: x :: _ => Some x
  | _ => None
  end.

(** [Array.isArray(page.brief) ? page.brief : []], and the same for
    [page.elements]. *)
Definition briefOf (page : Page) : list jsstring :=
  match brief page with Some b => b | None => [] end.

Definition elementsOf (page : Page) : list Element :=
  match elements page with Some e => e | None => [] end.

(** What [render] leaves behind. *)
Record Rendered : Type := {
  document_title : jsstring;
  innerHTML : jsstring
}.

Definition chipsOf (ctx : Route) (ty : jsstring) : jsstring :=
  (if truthy (cls ctx)
   then u "<span class=" ++ q (u "chip chip-class") ++ u ">"
          ++ escapeHtml (orElse (cls ctx) []) ++ u "</span>"
   else [])
  ++
  (match ty with
   | _ :: _ => u "<span class=" ++ q (u "chip chip-type") ++ u ">"
                 ++ escapeHtml ty ++ u "</span>"
   | [] => []
   end).

Definition headerOf (ttl chips dt : jsstring) : jsstring :=
  nl ++ sp 6 ++ u "<header class=" ++ q (u "page-header") ++ u ">"
    ++ nl ++ sp 8
    ++ u "<h1 class=" ++ q (u "page-title") ++ u ">" ++ escapeHtml ttl
    ++ u "</h1>" ++ nl ++ sp 8
    ++ u "<div class=" ++ q (u "page-tags") ++ u ">" ++ chips ++ u "</div>"
    ++ nl ++ sp 8
    ++ (match dt with
        | _ :: _ => u "<div class=" ++ q (u "page-date") ++ u ">"
                      ++ escapeHtml dt ++ u "</div>"
        | [] => []
        end)
    ++ nl ++ sp 6 ++ u "</header>" ++ nl ++ sp 4.

Definition abstractOf (lines : list jsstring) : jsstring :=
  match lines with
  | _ :: _ =>
    u "<section class=" ++ q (u "abstract element") ++ u ">" ++ nl ++ sp 10
      ++ u "<h2 class=" ++ q (u "element-title") ++ u ">Abstract</h2>"
      ++ nl ++ sp 10
      ++ u "<div class=" ++ q (u "card") ++ u "><ul class=" ++ q (u "brief")
      ++ u ">"
      ++ concat (map (fun li => u "<li>" ++ escapeHtml li ++ u "</li>") lines)
      ++ u "</ul></div>" ++ nl ++ sp 8
      ++ u "</section>"
  | [] => []
  end.

(** [render(page, ctx)], up to the mount: the document title and the
    markup assigned to [app.innerHTML]. *)
Definition render (path_name : jsstring) (page : Page) (ctx : Route)
  : result Rendered :=
  let fromCtx := orElse (id ctx) [] in
  pathClean <- decodeURIComponent (dropTrailingSlashes path_name) ;;
  let urlTail := orElse (pop (split slash pathClean)) [] in
  let idStr := match fromCtx with _ :: _ => fromCtx | [] => urlTail end in
  let fileBase := stripExt (orElse (pop (split slash idStr)) []) in
  parentDir <-
    decodeURIComponent (orElse (secondToLast (split slash pathClean)) []) ;;
  let rawTitle :=
    orElse (orOpt (orOpt (title page) (name page)) (id ctx)) fileBase in
  let dt := orElse (date page) [] in
  let ty := orElse (type page) [] in
  let lines := briefOf page in
  let els := elementsOf page in
  let ttl :=
    tpl rawTitle
        [(u "file", fileBase); (u "class", parentDir); (u "id", idStr)] in
  let header := headerOf ttl (chipsOf ctx ty) dt in
  let abstractHtml := abstractOf lines in
  elementsHtml <- renderElements SITE_BASE randomSuffix els ctx page ;;
  Ok {| document_title := u "Team 5840C | VRC " ++ [183] ++ u " " ++ ttl;
        innerHTML := header ++ abstractHtml ++ elementsHtml |}.

End Compose.

(* ------------------------------------------------------------------ *)
(** ** Hydration of script blocks *)

Module Hydrate.

(** A node of the mounted tree: a text node, or an element with its tag,
    its classes, its [data-src] attribute and its child nodes. *)
#[local] Unset Elimination Schemes.
Inductive Node : Type :=
| TextNode (data : jsstring)
| Elem (tag : jsstring) (classes : list jsstring)
       (data_src : option jsstring) (children : list Node).
#[local] Set Elimination Schemes.

(** Induction over a tree, with the property at hand for every child. *)
Fixpoint Node_induction (P : Node -> Prop)
         (Htext : forall s, P (TextNode s))
         (Helem : forall tg cl ds kids,
                    Forall P kids -> P (Elem tg cl ds kids))
         (n : Node) : P n :=
  match n with
  | TextNode s => Htext s
  | Elem tg cl ds kids =>
    Helem tg cl ds kids
          ((fix all (l : list Node) : Forall P l :=
              match l with
              | [] => Forall_nil P
              | x :: r =>
                Forall_cons x (Node_induction P Htext Helem x) (all r)
              end) kids)
  end.

(** How a [fetch] ends: the promise rejects, or it resolves to a response
    with its [ok] flag and a body, whose reading may itself reject. *)
Inductive Fetched : Type :=
| Rejected
| Response (ok : bool) (body : option jsstring).

(** A place in the tree: the positions of the children to go through,
    from the root. *)
Definition Path : Type := list nat.

Fixpoint eqbPath (p q : Path) : bool :=
  match p, q with
  | [], [] => true
  | a :: p', b :: q' => Nat.eqb a b && eqbPath p' q'
  | _, _ => false
  end.

(** [l.map((x, k) => f(k, x))], the positions counted from [k]. *)
Definition imap {A B} (f : nat -> A -> B) : nat -> list A -> list B :=
  fix go (k : nat) (l : list A) : list B :=
    match l with
    | [] => []
    | x :: r => f k x :: go (S k) r
    end.

Fixpoint updateAt {A} (k : nat) (f : A -> A) (l : list A) : list A :=
  match l, k with
  | [], _ => []
  | x :: r, O => f x :: r
  | x :: r, S k' => x :: updateAt k' f r
  end.

(** The selector [pre.code-window[data-src]]. *)
Definition pending (n : Node) : bool :=
  match n with
  | Elem tag classes (Some _) _ =>
    eqb tag (u "pre") && existsb (eqb (u "code-window")) classes
  | _ => false
  end.

(** Reading [node.textContent]: the texts below the node, in document
    order. *)
Fixpoint textContent (n : Node) : jsstring :=
  match n with
  | TextNode s => s
  | Elem _ _ _ kids => concat (map textContent kids)
  end.

(** Writing [node.textContent = t]: the children are replaced by one text
    node, and by nothing when [t] is empty. *)
Definition textNodes (t : jsstring) : list Node :=
  match t with
  | [] => []
  | _ :: _ => [TextNode t]
  end.

(** The node at a place, if there is one. *)
Fixpoint nodeAt (n : Node) (p : Path) : option Node :=
  match p with
  | [] => Some n
  | k :: q =>
    match n with
    | TextNode _ => None
    | Elem _ _ _ kids =>
      match nth_error kids k with
      | Some x => nodeAt x q
      | None => None
      end
    end
  end.

(** The places of the elements that match the selector, the node itself
    included, in document order. *)
Fixpoint matches (n : Node) : list Path :=
  match n with
  | TextNode _ => []
  | Elem _ _ _ kids =>
    (if pending n then [[]] else [])
      ++ concat (imap (fun k x => map (cons k) (matches x)) 0 kids)
  end.

(** [root.querySelectorAll('pre.code-window[data-src]')]: the matching
    descendants of the root. *)
Definition querySelectorAll (root : Node) : list Path :=
  match root with
  | TextNode _ => []
  | Elem _ _ _ kids =>
    concat (imap (fun k x => map (cons k) (matches x)) 0 kids)
  end.

(** The body of the [try]: the text to show, or [None] when
    [await fetch(url)] or [await r.text()] throws. *)
Definition tryLoad (url : jsstring) (f : Fetched) : option jsstring :=
  match f with
  | Rejected => None
  | Response true body => body
  | Response false _ => Some (u "Failed to load: " ++ url)
  end.

(** The text one block receives: what the [try] gave, or the message of
    the [catch]. *)
Definition loadedText (url : jsstring) (f : Fetched) : jsstring :=
  match tryLoad url f with
  | Some text => text
  | None => u "Error loading: " ++ url
  end.

(** The continuation of the block found at the place [p], run when its
    fetch has settled: it writes the text of that element.  The outcome of
    the fetch of the block at [q] is [net q].  A block whose ancestor has
    been written in the meantime is no longer in the tree: the only
    children a written element has are text nodes, so that nothing but a
    text node, or nothing at all, stands at the place of such a block, and
    the write, which goes to the detached element, leaves the tree as it
    is. *)
Fixpoint settle (net : Path -> Fetched) (p : Path) (n : Node) : Node :=
  match p with
  | [] =>
    match n with
    | TextNode _ => n
    | Elem tg cl ds _ =>
      Elem tg cl ds (textNodes (loadedText (orElse ds []) (net [])))
    end
  | k :: q =>
    match n with
    | TextNode _ => n
    | Elem tg cl ds kids =>
      Elem tg cl ds (updateAt k (settle (fun r => net (k :: r)) q) kids)
    end
  end.

(** The tree after the continuations have run in the order [order]. *)
Definition runSettled (net : Path -> Fetched) (order : list Path)
           (root : Node) : Node :=
  fold_left (fun d p => settle net p d) order root.

(** [hydrateCodeBlocks(root)] once every fetch has settled, the fetches
    settling in document order. *)
Definition hydrateCodeBlocks (net : Path -> Fetched) (root : Node) : Node :=
  runSettled net (querySelectorAll root) root.

(** Specification side: whether a matching element stands at a place. *)
Fixpoint pendingAt (n : Node) (p : Path) : bool :=
  match p with
  | [] => pending n
  | k :: q =>
    match n with
    | TextNode _ => false
    | Elem _ _ _ kids =>
      match nth_error kids k with
      | Some x => pendingAt x q
      | None => false
      end
    end
  end.

(** Specification side: no element between the root and the place [p],
    both apart, is a pending block. *)
Fixpoint clearPath (n : Node) (p : Path) : bool :=
  match p with
  | [] => true
  | k :: q =>
    match n with
    | TextNode _ => false
    | Elem _ _ _ kids =>
      match nth_error kids k with
      | Some x =>
        match q with
        | [] => true
        | _ :: _ => negb (pending x) && clearPath x q
        end
      | None => false
      end
    end
  end.

(** Specification side: the tree with the text of its fetch in every
    pending block, the node itself included. *)
Fixpoint hydrated (net : Path -> Fetched) (n : Node) : Node :=
  match n with
  | TextNode _ => n
  | Elem tg cl ds kids =>
    if pending n
    then Elem tg cl ds (textNodes (loadedText (orElse ds []) (net [])))
    else Elem tg cl ds
              (imap (fun k x => hydrated (fun r => net (k :: r)) x) 0 kids)
  end.

(** The same below a root, which the selector does not reach. *)
Definition hydratedBelow (net : Path -> Fetched) (root : Node) : Node :=
  match root with
  | TextNode _ => root
  | Elem tg cl ds kids =>
    Elem tg cl ds
         (imap (fun k x => hydrated (fun r => net (k :: r)) x) 0 kids)
  end.

(** Specification side: the tree once the blocks at the places for which
    [done] holds have been written. *)
Fixpoint settledAt (net : Path -> Fetched) (done : Path -> bool)
         (n : Node) : Node :=
  match n with
  | TextNode _ => n
  | Elem tg cl ds kids =>
    if done []
    then Elem tg cl ds (textNodes (loadedText (orElse ds []) (net [])))
    else Elem tg cl ds
              (imap (fun k x => settledAt (fun r => net (k :: r))
                                          (fun r => done (k :: r)) x)
                    0 kids)
  end.

(** Specification side: the tree without what the pending blocks hold. *)
Fixpoint outline (n : Node) : Node :=
  match n with
  | TextNode _ => n
  | Elem tg cl ds kids =>
    if pending n then Elem tg cl ds [] else Elem tg cl ds (map outline kids)
  end.

Definition outlineBelow (root : Node) : Node :=
  match root with
  | TextNode _ => root
  | Elem tg cl ds kids => Elem tg cl ds (map outline kids)
  end.

End Hydrate.

(* ------------------------------------------------------------------ *)
(** ** Specification-side vocabulary for placeholders *)

(** The five tokens [expandTemplatePath] looks for. *)
Definition placeholderTokens : list jsstring :=
  [u "{title}"; u "{class}"; u "{type}"; u "{id}"; u "{file}"].

(** The token [{name}]. *)
Definition token (name : jsstring) : jsstring := 123 :: name ++ [125].

(** No opening brace: no token can start in such a text. *)
Definition noBrace (s : jsstring) : bool :=
  forallb (fun c => negb (c =? 123)) s.


(** Neither a dollar, which a replacement string gives a meaning, nor an
    opening brace, which a later pass could take for a token. *)
Definition plain (s : jsstring) : bool :=
  forallb (fun c => negb ((c =? 36) || (c =? 123))) s.
















(* ------------------------------------------------------------------ *)
(** ** Specification-side vocabulary for the renderers *)

(** The elements of a page with their positions. *)
Definition indexed {A} (l : list A) : list (A * nat) :=
  combine l (seq 0 (length l)).

(** An item that carries a description. *)
Definition described (v : itemValue) : bool :=
  truthy (it_description (asItem v)).

(** The number of described items among the first [k]. *)
Definition describedBefore (items : list itemValue) (k : nat) : nat :=
  length (filter described (firstn k items)).

(** Left for an even rank among the described items, right for an odd
    one. *)
Definition alignClassOf (rank : nat) : jsstring :=
  if Nat.even rank then u "align-left" else u "align-right".

(** The markup of an image with its description: the figure carries the
    alignment class, and the image and the formatted description stand
    side by side in one wrapper. *)
Definition sideBySideMarkup (align label src alt descHtml : jsstring)
  : jsstring :=
  u "<figure class=" ++ q (u "media media-described " ++ align) ++ u ">"
    ++ nl ++ sp 20
    ++ u "<figcaption class=" ++ q (u "media-caption") ++ u ">" ++ label
    ++ u "</figcaption>" ++ nl ++ sp 20
    ++ u "<div class=" ++ q (u "media-wrap") ++ u ">"
    ++ (u "<img class=" ++ q (u "image-frame") ++ u " src=" ++ q src
          ++ u " alt=" ++ q alt ++ u " loading=" ++ q (u "lazy") ++ u ">")
    ++ (u "<div class=" ++ q (u "image-desc") ++ u ">" ++ descHtml
          ++ u "</div>")
    ++ u "</div>" ++ nl ++ sp 18
    ++ u "</figure>".

(** The markup of an image without description: a plain figure with the
    image in a centering block. *)
Definition centeredMarkup (label src alt : jsstring) : jsstring :=
  u "<figure class=" ++ q (u "media") ++ u ">" ++ nl ++ sp 18
    ++ u "<figcaption class=" ++ q (u "media-caption") ++ u ">" ++ label
    ++ u "</figcaption>" ++ nl ++ sp 18
    ++ u "<div class=" ++ q (u "media-center") ++ u ">"
    ++ (u "<img class=" ++ q (u "image-frame") ++ u " src=" ++ q src
          ++ u " alt=" ++ q alt ++ u " loading=" ++ q (u "lazy") ++ u ">")
    ++ u "</div>" ++ nl ++ sp 16
    ++ u "</figure>".

(** The figure of an image item, by its rank among the described items:
    side by side and aligned by the rank when it carries a description,
    centered otherwise. *)
Definition rankedFigure (SITE_BASE : option jsstring) (page : Page)
           (ctx : Route) (v : itemValue) (rank : nat) : result jsstring :=
  src <- makeSrc SITE_BASE (it_src (asItem v)) page ctx ;;
  let label := escapeHtml (orElse (it_label (asItem v)) (u "Image")) in
  let alt :=
    escapeHtml
      (orElse (orOpt (orOpt (it_alt (asItem v)) (it_label (asItem v)))
                     (title page)) []) in
  Ok (if described v
      then sideBySideMarkup (alignClassOf rank) label src alt
             (richText (orElse (it_description (asItem v)) []))
      else centeredMarkup label src alt).


(* ------------------------------------------------------------------ *)
(** ** Sample documents *)

Definition element (ty : jsstring) : Element :=
  {| el_type := Some ty; el_title := None; el_label := None;
     el_content := None; el_text := None; el_src := None;
     el_items := None |}.

Definition sampleNotes : Element :=
  {| el_type := Some (u "Notes"); el_title := None; el_label := None;
     el_content := Some (u "hello"); el_text := None; el_src := None;
     el_items := None |}.

Definition sampleSynopsis : Element :=
  {| el_type := Some (u "synopsis"); el_title := None; el_label := None;
     el_content := None; el_text := Some (u "a **short** summary");
     el_src := None; el_items := None |}.

Definition sampleBrief : Element :=
  {| el_type := Some (u "Design Brief"); el_title := None; el_label := None;
     el_content := None; el_text := None; el_src := None;
     el_items := Some [ItemText (u "one"); ItemText (u "two")] |}.

Definition samplePage : Page :=
  {| title := Some (u "{id}"); name := None; date := None; type := None;
     brief := Some [u "line one"];
     elements := Some [sampleNotes; sampleSynopsis; sampleBrief] |}.

Definition sampleRoute : Route :=
  {| cls := Some (u "DE"); id := Some (u "1.1.9 Soldering") |}.

Definition image (src : jsstring) (desc : option jsstring) : Item :=
  {| it_src := Some src; it_label := None; it_language := None;
     it_alt := None; it_description := desc; it_code := None |}.

(** Four images, the first and the third with a description. *)
Definition sampleGallery : Element :=
  {| el_type := Some (u "Images"); el_title := None; el_label := None;
     el_content := None; el_text := None; el_src := None;
     el_items :=
       Some [ ItemObj (image (u "img/a.png") (Some (u "first")));
              ItemObj (image (u "img/b.png") None);
              ItemObj (image (u "img/c.png") (Some (u "third")));
              ItemObj (image (u "img/d.png") None) ] |}.

Definition noSuffix : nat -> nat -> jsstring := fun _ _ => [].

(** A query string [?class=XX&id=1.1.9] on the interpreter page. *)
Definition queryLocation : Location :=
  {| search_class := Some (u "XX"); search_id := Some (u "1.1.9");
     pathname := u "/eng-portfolio/interpreter.html" |}.

(** A route whose id is itself a token. *)
Definition tokenRoute : Route :=
  {| cls := Some (u "DE"); id := Some (u "{class}") |}.

(** The reference written [media/\ud83d.png] in JSON: a lead surrogate
    without its trail. *)
Definition surrogateRef : jsstring := u "media/" ++ [55357] ++ u ".png".

(** A file on the hosting domain. *)
Definition hostedFile : jsstring := u "https://youtube.com/a.mp4".

(** The mounted tree of a page with two script figures around a paragraph,
    the second figure in a section of its own, and a network on which the
    first load is answered by an error status and the second one
    succeeds. *)
Definition scriptBlock (src : jsstring) : Hydrate.Node :=
  Hydrate.Elem (u "figure") [u "media"] None
    [ Hydrate.Elem (u "figcaption") [u "media-caption"] None
        [Hydrate.TextNode (u "Script")];
      Hydrate.Elem (u "pre") [u "code-window"] (Some src)
        [Hydrate.TextNode (u "Loading script" ++ [8230])] ].

Definition sampleDom : Hydrate.Node :=
  Hydrate.Elem (u "div") [] None
    [ scriptBlock (u "/code/a.py");
      Hydrate.Elem (u "p") [] None [Hydrate.TextNode (u "then")];
      Hydrate.Elem (u "section") [u "element"] None
        [scriptBlock (u "/code/b.py")] ].

Definition sampleNet (p : Hydrate.Path) : Hydrate.Fetched :=
  match p with
  | O :: _ => Hydrate.Response false None
  | _ => Hydrate.Response true (Some (u "print(1)"))
  end.

(** A pending block inside another one. *)
Definition nestedDom : Hydrate.Node :=
  Hydrate.Elem (u "div") [] None
    [ Hydrate.Elem (u "pre") [u "code-window"] (Some (u "/code/outer.py"))
        [ Hydrate.TextNode (u "Loading");
          Hydrate.Elem (u "pre") [u "code-window"]
            (Some (u "/code/inner.py")) [Hydrate.TextNode (u "Loading")] ] ].


(* ------------------------------------------------------------------ *)
(** ** Loading a page: [buildJsonUrl], [card] and [boot] *)

(** What a [catch] can receive here: a native exception, the SyntaxError
    of a response body that is no JSON, or [new Error(message)]. *)
Inductive thrown : Type :=
| Native (e : error)
| SyntaxError
| ErrorWith (message : jsstring).

Inductive attempt (A : Type) : Type :=
| Returned (a : A)
| Raised (t : thrown).
Arguments Returned {A} a.
Arguments Raised {A} t.

Definition ofResult {A} (r : result A) : attempt A :=
  match r with
  | Ok a => Returned a
  | Throw e => Raised (Native e)
  end.

Definition andThen {A B} (r : attempt A) (k : A -> attempt B) : attempt B :=
  match r with
  | Returned a => k a
  | Raised t => Raised t
  end.

(** The callback of [buildJsonUrl]:
    [seg => seg.split('/').map(encodeURIComponent).join('/')]. *)
Definition encodePath (seg : jsstring) : result jsstring :=
  parts <- mapM encodeURIComponent (split slash seg) ;;
  Ok (join (u "/") parts).

(** [card(inner)] *)
Definition card (inner : jsstring) : jsstring :=
  u "<div class=" ++ q (u "card") ++ u " style="
    ++ q (u "padding:14px;border-radius:14px") ++ u ">" ++ inner
    ++ u "</div>".

Section Boot.

Variable SITE_BASE : option jsstring.
Variable CLASSES : list jsstring.

(** [window.REPO_OWNER], [window.REPO_NAME] and [window.REPO_BRANCH]. *)
Variable REPO_OWNER : option jsstring.
Variable REPO_NAME : option jsstring.
Variable REPO_BRANCH : option jsstring.

Definition BR : jsstring := orElse REPO_BRANCH (u "main").

(** [buildJsonUrl(cls, id)] *)
Definition buildJsonUrl (c i : jsstring) : attempt jsstring :=
  if negb (truthy REPO_OWNER) || negb (truthy REPO_NAME)
  then Raised (ErrorWith
                 (u "Missing REPO_OWNER or REPO_NAME in site.config.js"))
  else
    ofResult
      (segs <- mapM encodePath [u "pages"; c; i ++ u ".json"] ;;
       let path := join (u "/") segs in
       owner <- encodeURIComponent (orElse REPO_OWNER []) ;;
       repo <- encodeURIComponent (orElse REPO_NAME []) ;;
       branch <- encodeURIComponent BR ;;
       Ok (u "https://raw.githubusercontent.com/" ++ owner ++ u "/" ++ repo
             ++ u "/" ++ branch ++ u "/" ++ path)).

(** How the request for the page document ends: the fetch rejects, the
    status is no success, the body is no JSON, or the body is a page. *)
Inductive PageFetched : Type :=
| FetchRejected
| NotFound
| BadJson
| Document (page : Page).

(** [fetchJson(url)] on a network that answers [url] by [net url]. *)
Definition fetchJson (net : jsstring -> PageFetched) (url : jsstring)
  : attempt Page :=
  match net url with
  | FetchRejected => Raised (Native TypeError)
  | NotFound => Raised (ErrorWith (u "Page JSON not found at " ++ url))
  | BadJson => Raised SyntaxError
  | Document page => Returned page
  end.

Variable randomSuffix : nat -> nat -> jsstring.
Variable nativeText : jsstring -> jsstring.

(** [String(err)] for an exception of the engine. *)
Variable nativeMessage : thrown -> jsstring.

(** [String(err)] *)
Definition errorString (t : thrown) : jsstring :=
  match t with
  | ErrorWith message => u "Error: " ++ message
  | _ => nativeMessage t
  end.

Definition missingRouteCard : jsstring :=
  card (u "<h2>Missing route</h2>" ++ nl ++ sp 8
          ++ u "<p class=" ++ q (u "muted") ++ u ">Open with <code>"
          ++ BASE SITE_BASE
          ++ u "interpreter.html?class=DE&id=1.1.9%20Soldering%20Desoldering</code>"
          ++ nl ++ sp 8
          ++ u "or use a pretty URL like <code>" ++ BASE SITE_BASE
          ++ u "DE/1.1.9%20Soldering%20Desoldering</code>.</p>").

Definition loadErrorCard (t : thrown) : jsstring :=
  card (u "<h2>Load error</h2><p class=" ++ q (u "muted") ++ u ">"
          ++ escapeHtml (errorString t) ++ u "</p>").

(** [boot()] with its [catch]: the markup left in [app.innerHTML] once the
    promise has settled. *)
Definition boot (loc : Location) (net : jsstring -> PageFetched)
  : jsstring :=
  let run : attempt jsstring :=
    andThen (ofResult (parseRoute SITE_BASE CLASSES loc)) (fun r =>
    if missingRoute r then Returned missingRouteCard
    else
      let c := orElse (cls r) [] in
      let i := orElse (id r) [] in
      andThen (buildJsonUrl c i) (fun jsonUrl =>
      andThen (fetchJson net jsonUrl) (fun page =>
      andThen (ofResult (render SITE_BASE randomSuffix nativeText
                                (pathname loc) page
                                {| cls := Some c; id := Some i |}))
              (fun out => Returned (innerHTML out))))) in
  match run with
  | Returned html => html
  | Raised t => loadErrorCard t
  end.

End Boot.


(* ------------------------------------------------------------------ *)
(** ** Specification-side vocabulary for the helpers *)

(** The suffixes [guessLang] knows, with their language. *)
Definition languageTable : list (jsstring * jsstring) :=
  [ (u ".py", u "python");
    (u ".js", u "javascript"); (u ".mjs", u "javascript");
    (u ".cjs", u "javascript");
    (u ".ts", u "typescript");
    (u ".cpp", u "cpp"); (u ".cc", u "cpp"); (u ".cxx", u "cpp");
    (u ".c", u "c");
    (u ".java", u "java");
    (u ".json", u "json");
    (u ".md", u "markdown");
    (u ".html", u "html");
    (u ".css", u "css") ].

(** No dot, and no path separator. *)
Definition noDot (s : jsstring) : bool := forallb (fun x => negb (x =? 46)) s.
Definition noSlash (s : jsstring) : bool :=
  forallb (fun x => negb (x =? slash)) s.


(** A text without markup of any kind: none of the five characters of
    [escapeHtml], no asterisk and no colon. *)
Definition plainText (t : jsstring) : bool :=
  forallb (fun c => negb (isHtmlSpecial c || (c =? 42) || (c =? 58))) t.

(** What may follow the scheme in an autolinked locator: no white space,
    no closing parenthesis, none of the five characters and no asterisk. *)
Definition urlTail (h : jsstring) : bool :=
  forallb (fun c => negb (isSpace c || (c =? 41) || isHtmlSpecial c
                          || (c =? 42))) h.

(** The anchor [richText] writes for a locator. *)
Definition anchor (url : jsstring) : jsstring :=
  u "<a href=" ++ q url ++ u " class=" ++ q (u "btn") ++ u ">" ++ url
    ++ u "</a>".


(** The units of an encoded local path: unreserved ones, the percent sign
    of an escape, and the separator. *)
Definition pathSafe (c : N) : bool :=
  uriUnreserved c || (c =? 37) || (c =? slash).


(** Whether a text starts with two hexadecimal digits, as an escape needs
    after its percent sign. *)
Definition hexPair (rest : jsstring) : bool :=
  match rest with
  | x :: y :: _ =>
    match hexVal x, hexVal y with
    | Some _, Some _ => true
    | _, _ => false
    end
  | _ => false
  end.


(** The keys of the table [RENDERERS], and the two names in lower case
    that every object inherits besides. *)
Definition rendererKeys : list jsstring :=
  [ u "synopsis"; u "designbrief"; u "notes"; u "pdf"; u "video";
    u "script"; u "image"; u "images" ].

Definition inheritedKeys : list jsstring :=
  [ u "constructor"; u "__proto__" ].


(** The interpreter page opened without a route, a query whose id holds a
    percent sign once [URLSearchParams] has decoded it, and a pretty
    locator. *)
Definition pageLocation : Location :=
  {| search_class := None; search_id := None;
     pathname := u "/eng-portfolio/interpreter.html" |}.

Definition percentLocation : Location :=
  {| search_class := Some (u "DE"); search_id := Some (u "%41 100%");
     pathname := u "/eng-portfolio/interpreter.html" |}.

Definition prettyLocation : Location :=
  {| search_class := None; search_id := None;
     pathname := u "/eng-portfolio/DE/1.1.9%20Soldering" |}.

(** A browser whose engine texts are left empty, and a network without
    the page. *)
Definition noText : jsstring -> jsstring := fun _ => [].
Definition noMessage : thrown -> jsstring := fun _ => [].
Definition noPage : jsstring -> PageFetched := fun _ => NotFound.


(** A text of ASCII units, on which [toLowerCase] is the mapping of the
    letters A to Z alone. *)
Definition asciiText (s : jsstring) : bool := forallb (fun c => c <? 128) s.


(** Every percent sign of a text is followed by two hexadecimal digits. *)
Fixpoint percentsOk (s : jsstring) : bool :=
  match s with
  | [] => true
  | c :: t => (if c =? 37 then hexPair t else true) && percentsOk t
  end.


(* ------------------------------------------------------------------ *)
(** ** Specification-side vocabulary for video references *)

(** The two host names of the hosting pattern. *)
Definition hostNames : list jsstring := [u "youtu.be"; u "youtube.com"].

(** The reference holds one of the host names. *)
Definition onVideoHost (url : jsstring) : Prop :=
  exists pre h post, In h hostNames /\ url = pre ++ h ++ post.

(** An id of eleven letters, digits, underscores or hyphens stands in the
    reference after [pre], behind [v=] or a slash. *)
Definition idAt (url pre i : jsstring) : Prop :=
  exists lead post,
    (lead = u "v=" \/ lead = u "/")
    /\ url = pre ++ lead ++ i ++ post
    /\ length i = 11%nat /\ forallb isIdUnit i = true.

(** One of the three video extensions, in any letter case, stands at the
    end of the reference or before a question mark. *)
Definition extAt (url : jsstring) : Prop :=
  exists pre ext rest,
    url = pre ++ u "." ++ ext ++ rest
    /\ In (toLowerCase ext) [u "mp4"; u "webm"; u "ogg"]
    /\ (rest = [] \/ exists rest', rest = u "?" ++ rest').






(** A network on which every load succeeds, the block at the first place
    of the root receiving another text than the others. *)
Definition nestedNet (p : Hydrate.Path) : Hydrate.Fetched :=
  match p with
  | [O] => Hydrate.Response true (Some (u "outer()"))
  | _ => Hydrate.Response true (Some (u "inner()"))
  end.

(** A script item whose source is an absolute locator that closes the
    attribute it is written in and opens a block of its own. *)
Definition injectedSrc : jsstring :=
  u "https://example.org/a.py" ++ dq ++ u "><pre class=" ++ q (u "code-window")
    ++ u " data-src=" ++ q (u "https://example.org/b.py") ++ u ">".

Definition injectedItem : itemValue :=
  ItemObj {| it_src := Some injectedSrc; it_label := None;
             it_language := None; it_alt := None; it_description := None;
             it_code := None |}.

(* ================================================================== *)
(** * Theorems *)

(** Boolean comparisons on code units, turned into linear arithmetic. *)
Ltac unbool :=
  repeat match goal with
  | H : _ && _ = true |- _ => apply andb_true_iff in H; destruct H
  | H : _ || _ = false |- _ => apply orb_false_iff in H; destruct H
  | H : negb _ = true |- _ => apply negb_true_iff in H
  | H : negb _ = false |- _ => apply negb_false_iff in H
  | H : (_ <=? _) = true |- _ => apply N.leb_le in H
  | H : (_ <=? _) = false |- _ => apply N.leb_gt in H
  | H : (_ <? _) = true |- _ => apply N.ltb_lt in H
  | H : (_ <? _) = false |- _ => apply N.ltb_ge in H
  | H : (_ =? _) = true |- _ => apply N.eqb_eq in H
  | H : (_ =? _) = false |- _ => apply N.eqb_neq in H
  end.

Ltac rebool :=
  repeat match goal with
  | |- _ && _ = true => apply andb_true_iff; split
  | |- negb _ = true => apply negb_true_iff
  | |- _ || _ = false => apply orb_false_iff; split
  | |- (_ <=? _) = true => apply N.leb_le
  | |- (_ <=? _) = false => apply N.leb_gt
  | |- (_ <? _) = true => apply N.ltb_lt
  | |- (_ <? _) = false => apply N.ltb_ge
  | |- (_ =? _) = true => apply N.eqb_eq
  | |- (_ =? _) = false => apply N.eqb_neq
  end.

(** ** Percent-encoding round trip *)

Section URIFacts.

Lemma N_below_forallb (k : nat) (P : N -> bool) :
  forallb P (map N.of_nat (seq 0 k)) = true ->
  forall n, n < N.of_nat k -> P n = true.
Proof.
  intros H n Hn.
  rewrite forallb_forall in H. apply H.
  rewrite <- (N2Nat.id n). apply in_map, in_seq. lia.
Qed.

Lemma hexVal_hexDigit n : n < 16 -> hexVal (hexDigit n) = Some n.
Proof.
  intros Hn.
  pose proof (N_below_forallb 16
                (fun m => match hexVal (hexDigit m) with
                          | Some m' => m' =? m
                          | None => false
                          end) eq_refl n Hn) as H.
  cbv beta in H. destruct (hexVal (hexDigit n)); [|discriminate].
  apply N.eqb_eq in H. now subst.
Qed.

Lemma pctOctet_hex b :
  b < 256 -> pctOctet 37 (hexDigit (b / 16)) (hexDigit (b mod 16)) = Some b.
Proof.
  intros Hb. unfold pctOctet. rewrite N.eqb_refl.
  rewrite !hexVal_hexDigit by lia. f_equal. lia.
Qed.

Lemma hexDigit_not_slash n : hexDigit n <> slash.
Proof. unfold hexDigit, slash. destruct (n <? 10) eqn:E; lia. Qed.

Lemma decode_plain c t :
  c <> 37 ->
  decodeURIComponent (c :: t) = (r <- decodeURIComponent t ;; Ok (c :: r)).
Proof.
  intros Hc. cbn [decodeURIComponent].
  apply N.eqb_neq in Hc. now rewrite Hc.
Qed.

Lemma decode_1 b0 r :
  b0 < 128 ->
  decodeURIComponent (pct [b0] ++ r)
  = (r' <- decodeURIComponent r ;; Ok (b0 :: r')).
Proof.
  intros H. cbn [pct flat_map app decodeURIComponent].
  rewrite N.eqb_refl. cbn [negb]. rewrite pctOctet_hex by lia.
  apply N.ltb_lt in H. now rewrite H.
Qed.

Lemma decode_2 b0 b1 r :
  192 <= b0 < 224 -> b1 < 256 ->
  decodeURIComponent (pct [b0; b1] ++ r)
  = emit (decode2 b0 b1) (decodeURIComponent r).
Proof.
  intros H0 H1. cbn [pct flat_map app decodeURIComponent].
  rewrite N.eqb_refl. cbn [negb]. rewrite !pctOctet_hex by lia.
  replace (b0 <? 128) with false by (symmetry; apply N.ltb_ge; lia).
  replace (b0 <? 192) with false by (symmetry; apply N.ltb_ge; lia).
  replace (b0 <? 224) with true by (symmetry; apply N.ltb_lt; lia).
  reflexivity.
Qed.

Lemma decode_3 b0 b1 b2 r :
  224 <= b0 < 240 -> b1 < 256 -> b2 < 256 ->
  decodeURIComponent (pct [b0; b1; b2] ++ r)
  = emit (decode3 b0 b1 b2) (decodeURIComponent r).
Proof.
  intros H0 H1 H2. cbn [pct flat_map app decodeURIComponent].
  rewrite N.eqb_refl. cbn [negb]. rewrite !pctOctet_hex by lia.
  replace (b0 <? 128) with false by (symmetry; apply N.ltb_ge; lia).
  replace (b0 <? 192) with false by (symmetry; apply N.ltb_ge; lia).
  replace (b0 <? 224) with false by (symmetry; apply N.ltb_ge; lia).
  replace (b0 <? 240) with true by (symmetry; apply N.ltb_lt; lia).
  reflexivity.
Qed.

Lemma decode_4 b0 b1 b2 b3 r :
  240 <= b0 < 248 -> b1 < 256 -> b2 < 256 -> b3 < 256 ->
  decodeURIComponent (pct [b0; b1; b2; b3] ++ r)
  = emit (decode4 b0 b1 b2 b3) (decodeURIComponent r).
Proof.
  intros H0 H1 H2 H3. cbn [pct flat_map app decodeURIComponent].
  rewrite N.eqb_refl. cbn [negb]. rewrite !pctOctet_hex by lia.
  replace (b0 <? 128) with false by (symmetry; apply N.ltb_ge; lia).
  replace (b0 <? 192) with false by (symmetry; apply N.ltb_ge; lia).
  replace (b0 <? 224) with false by (symmetry; apply N.ltb_ge; lia).
  replace (b0 <? 240) with false by (symmetry; apply N.ltb_ge; lia).
  replace (b0 <? 248) with true by (symmetry; apply N.ltb_lt; lia).
  reflexivity.
Qed.

Lemma unreserved_ascii c :
  uriUnreserved c = true -> c < 128 /\ c <> 37 /\ c <> slash.
Proof.
  unfold uriUnreserved, isAlnum, isDigit, isUpper, isLower, existsb, slash.
  intros H.
  repeat match type of H with
         | _ || _ = true => apply orb_true_iff in H; destruct H as [H|H]
         end; unbool; try discriminate; lia.
Qed.

Lemma decode2_utf8 c :
  128 <= c < 2048 -> decode2 (192 + c / 64) (128 + c mod 64) = Some c.
Proof.
  intros H. unfold decode2, isCont.
  replace ((192 + c / 64 - 192) * 64 + (128 + c mod 64 - 128)) with c by lia.
  replace (128 <=? 128 + c mod 64) with true by (symmetry; rebool; lia).
  replace (128 + c mod 64 <? 192) with true by (symmetry; rebool; lia).
  replace (128 <=? c) with true by (symmetry; rebool; lia).
  reflexivity.
Qed.

Lemma decode3_utf8 c :
  2048 <= c < 65536 -> isLead c = false -> isTrail c = false ->
  decode3 (224 + c / 4096) (128 + (c / 64) mod 64) (128 + c mod 64) = Some c.
Proof.
  intros H HL HT. unfold decode3, isCont.
  replace ((224 + c / 4096 - 224) * 4096 + (128 + (c / 64) mod 64 - 128) * 64
           + (128 + c mod 64 - 128)) with c by lia.
  rewrite HL, HT.
  replace (128 <=? 128 + (c / 64) mod 64) with true by (symmetry; rebool; lia).
  replace (128 + (c / 64) mod 64 <? 192) with true by (symmetry; rebool; lia).
  replace (128 <=? 128 + c mod 64) with true by (symmetry; rebool; lia).
  replace (128 + c mod 64 <? 192) with true by (symmetry; rebool; lia).
  replace (2048 <=? c) with true by (symmetry; rebool; lia).
  reflexivity.
Qed.

Lemma decode4_utf8 v :
  65536 <= v <= 1114111 ->
  decode4 (240 + v / 262144) (128 + (v / 4096) mod 64)
          (128 + (v / 64) mod 64) (128 + v mod 64) = Some v.
Proof.
  intros H. unfold decode4, isCont.
  replace ((240 + v / 262144 - 240) * 262144
           + (128 + (v / 4096) mod 64 - 128) * 4096
           + (128 + (v / 64) mod 64 - 128) * 64
           + (128 + v mod 64 - 128)) with v by lia.
  replace (128 <=? 128 + (v / 4096) mod 64) with true by (symmetry; rebool; lia).
  replace (128 + (v / 4096) mod 64 <? 192) with true by (symmetry; rebool; lia).
  replace (128 <=? 128 + (v / 64) mod 64) with true by (symmetry; rebool; lia).
  replace (128 + (v / 64) mod 64 <? 192) with true by (symmetry; rebool; lia).
  replace (128 <=? 128 + v mod 64) with true by (symmetry; rebool; lia).
  replace (128 + v mod 64 <? 192) with true by (symmetry; rebool; lia).
  replace (65536 <=? v) with true by (symmetry; rebool; lia).
  replace (v <=? 1114111) with true by (symmetry; rebool; lia).
  reflexivity.
Qed.

Lemma utf16_codePoint c d :
  isLead c = true -> isTrail d = true ->
  65536 <= codePoint c d <= 1114111 /\ utf16 (codePoint c d) = [c; d].
Proof.
  unfold isLead, isTrail, codePoint, utf16. intros HL HT. unbool.
  split; [lia|].
  replace (_ <? 65536) with false by (symmetry; rebool; lia).
  f_equal; [lia | f_equal; lia].
Qed.

(** The encoding of one code point decodes to its UTF-16 form, and holds
    no path separator. *)
Lemma decode_pct_utf8 v r :
  v <= 1114111 -> (v < 65536 -> isLead v = false /\ isTrail v = false) ->
  decodeURIComponent (pct (utf8 v) ++ r)
  = (r' <- decodeURIComponent r ;; Ok (utf16 v ++ r')).
Proof.
  intros Hv Hs. unfold utf8.
  destruct (v <? 128) eqn:E1; unbool.
  { rewrite decode_1 by lia. unfold utf16.
    replace (v <? 65536) with true by (symmetry; rebool; lia). reflexivity. }
  destruct (v <? 2048) eqn:E2; unbool.
  { rewrite decode_2 by lia. rewrite decode2_utf8 by lia. reflexivity. }
  destruct (v <? 65536) eqn:E3; unbool.
  { destruct (Hs E3) as [HL HT].
    rewrite decode_3 by lia. rewrite decode3_utf8 by (auto; lia). reflexivity. }
  rewrite decode_4 by lia. rewrite decode4_utf8 by lia. reflexivity.
Qed.

Lemma pct_no_slash octets :
  ~ In slash (pct octets).
Proof.
  unfold pct. rewrite in_flat_map. intros [b [_ Hb]].
  cbn [In] in Hb. destruct Hb as [Hb|[Hb|[Hb|[]]]].
  - discriminate.
  - revert Hb. apply hexDigit_not_slash.
  - revert Hb. apply hexDigit_not_slash.
Qed.

(** A well-formed string is encoded, and the encoding decodes to it. *)
Lemma encode_decode_bounded (n : nat) :
  forall s, (length s <= n)%nat -> wellFormed s = true ->
  exists r, encodeURIComponent s = Ok r
            /\ decodeURIComponent r = Ok s
            /\ ~ In slash r.
Proof.
  induction n as [|n IH]; intros s Hlen Hwf.
  { destruct s; [|cbn in Hlen; lia]. exists []. cbn. auto. }
  destruct s as [|c t]; [exists []; cbn; auto|].
  cbn [length] in Hlen. cbn [encodeURIComponent].
  destruct (uriUnreserved c) eqn:U.
  - destruct (unreserved_ascii c U) as [Hc [H37 H47]].
    cbn [wellFormed] in Hwf.
    assert (HL : isLead c = false) by (unfold isLead; apply andb_false_iff; left; rebool; lia).
    rewrite HL in Hwf. unbool.
    destruct (IH t) as [r [He [Hd Hs]]]; [lia | assumption |].
    exists (c :: r). rewrite He. cbn [bind]. split; [reflexivity|]. split.
    + rewrite decode_plain by assumption. rewrite Hd. reflexivity.
    + intros [Hin|Hin]; [congruence | auto].
  - cbn [wellFormed] in Hwf. destruct (isLead c) eqn:HL.
    + destruct t as [|d t']; [discriminate|]. unbool.
      cbn [length] in Hlen.
      destruct (IH t') as [r [He [Hd Hs]]]; [lia | assumption |].
      match goal with H : isTrail d = true |- _ => rename H into HT end.
      rewrite HT, He. cbn [bind].
      destruct (utf16_codePoint c d HL HT) as [Hcp H16].
      exists (pct (utf8 (codePoint c d)) ++ r). split; [reflexivity|]. split.
      * rewrite decode_pct_utf8 by lia. rewrite Hd. cbn [bind].
        rewrite H16. reflexivity.
      * rewrite in_app_iff. intros [Hin|Hin]; [|auto].
        revert Hin. apply pct_no_slash.
    + unbool. match goal with H : isTrail c = false |- _ => rename H into HT end.
      rewrite HT.
      destruct (IH t) as [r [He [Hd Hs]]]; [lia | assumption |].
      rewrite He. cbn [bind].
      exists (pct (utf8 c) ++ r). split; [reflexivity|]. split.
      * rewrite decode_pct_utf8 by (auto; lia). rewrite Hd. cbn [bind].
        unfold utf16. replace (c <? 65536) with true by (symmetry; rebool; lia).
        reflexivity.
      * rewrite in_app_iff. intros [Hin|Hin]; [|auto].
        revert Hin. apply pct_no_slash.
Qed.

Lemma encode_decode s :
  wellFormed s = true ->
  exists r, encodeURIComponent s = Ok r
            /\ decodeURIComponent r = Ok s
            /\ ~ In slash r.
Proof. apply (encode_decode_bounded (length s)). lia. Qed.

End URIFacts.

(** ** Strings: equality, [split] and [join] *)

Section StringFacts.

Lemma eqb_eq (a b : jsstring) : eqb a b = true <-> a = b.
Proof.
  revert b. induction a as [|x a IH]; intros [|y b]; cbn; split;
    try discriminate; try reflexivity.
  - intros H. apply andb_true_iff in H. destruct H as [Hx Hab].
    apply N.eqb_eq in Hx. apply IH in Hab. congruence.
  - intros H. injection H as -> ->. rewrite N.eqb_refl. cbn. now apply IH.
Qed.

Lemma eqb_refl (a : jsstring) : eqb a a = true.
Proof. now apply eqb_eq. Qed.

Lemma existsb_eqb_In (c : jsstring) (l : list jsstring) :
  existsb (eqb c) l = true -> In c l.
Proof.
  rewrite existsb_exists. intros [x [Hin Heq]].
  apply eqb_eq in Heq. now subst.
Qed.

Lemma startsWith_app (p s : jsstring) : startsWith p (p ++ s) = true.
Proof. induction p as [|x p IH]; cbn; [reflexivity|]. now rewrite N.eqb_refl. Qed.

Lemma split_not_nil sep s : split sep s <> [].
Proof.
  destruct s as [|c t]; cbn; [discriminate|].
  destruct (c =? sep); [discriminate|].
  destruct (split sep t); discriminate.
Qed.

Lemma join_cons2 sep (x y : jsstring) l :
  join sep (x :: y :: l) = x ++ sep ++ join sep (y :: l).
Proof. reflexivity. Qed.

(** Joining what [split] gave restores the string. *)
Lemma join_split s : join [slash] (split slash s) = s.
Proof.
  induction s as [|c t IH]; [reflexivity|].
  cbn [split]. pose proof (split_not_nil slash t) as Hne.
  destruct (c =? slash) eqn:E.
  - apply N.eqb_eq in E. subst c.
    destruct (split slash t) as [|seg segs]; [contradiction|].
    rewrite join_cons2, IH. reflexivity.
  - destruct (split slash t) as [|seg segs]; [contradiction|].
    destruct segs as [|seg' segs'].
    + cbn in IH. cbn. now rewrite IH.
    + rewrite join_cons2 in *. cbn [app] in *. now rewrite IH.
Qed.

Lemma split_app_sep a b :
  ~ In slash a -> split slash (a ++ slash :: b) = a :: split slash b.
Proof.
  induction a as [|c a IH]; intros Hnot.
  - cbn [app split]. now rewrite N.eqb_refl.
  - cbn [app split].
    assert (Hc : (c =? slash) = false)
      by (apply N.eqb_neq; intros ->; apply Hnot; now left).
    rewrite Hc, IH by (intros Hin; apply Hnot; now right). reflexivity.
Qed.

Lemma split_no_sep a : ~ In slash a -> split slash a = [a].
Proof.
  induction a as [|c a IH]; intros Hnot; [reflexivity|].
  cbn [split].
  assert (Hc : (c =? slash) = false)
    by (apply N.eqb_neq; intros ->; apply Hnot; now left).
  rewrite Hc, IH by (intros Hin; apply Hnot; now right). reflexivity.
Qed.

(** Splitting a join of separator-free segments restores the segments. *)
Lemma split_join (l : list jsstring) :
  l <> [] -> Forall (fun seg => ~ In slash seg) l ->
  split slash (join [slash] l) = l.
Proof.
  induction l as [|x l IH]; intros Hne Hall; [contradiction|].
  inversion Hall as [|? ? Hx Hl]; subst.
  destruct l as [|y l'].
  - cbn [join]. now apply split_no_sep.
  - rewrite join_cons2. cbn [app].
    rewrite split_app_sep by assumption.
    f_equal. apply IH; [discriminate | assumption].
Qed.

(** The segments of a well-formed string are well formed. *)
Lemma wellFormed_split_bounded (n : nat) :
  forall s, (length s <= n)%nat -> wellFormed s = true ->
  Forall (fun seg => wellFormed seg = true) (split slash s).
Proof.
  induction n as [|n IH]; intros s Hlen Hwf.
  { destruct s; [|cbn in Hlen; lia]. repeat constructor. }
  destruct s as [|c t]; [repeat constructor|].
  cbn [length] in Hlen. cbn [wellFormed] in Hwf.
  destruct (isLead c) eqn:HL.
  - destruct t as [|d t']; [discriminate|]. unbool.
    cbn [length] in Hlen.
    assert (Hc : (c =? slash) = false)
      by (unfold isLead, slash in *; unbool; rebool; lia).
    assert (Hd : (d =? slash) = false)
      by (unfold isTrail, slash in *; unbool; rebool; lia).
    cbn [split]. rewrite Hc, Hd.
    assert (IHt : Forall (fun seg => wellFormed seg = true) (split slash t'))
      by (apply IH; [lia | assumption]).
    pose proof (split_not_nil slash t') as Hne.
    destruct (split slash t') as [|seg segs]; [contradiction|].
    inversion IHt; subst. constructor; [|assumption].
    cbn [wellFormed]. rewrite HL.
    match goal with H : isTrail d = true |- _ => rewrite H end. assumption.
  - unbool.
    assert (IHt : Forall (fun seg => wellFormed seg = true) (split slash t))
      by (apply IH; [lia | assumption]).
    cbn [split]. destruct (c =? slash) eqn:Hc.
    + constructor; [reflexivity | assumption].
    + pose proof (split_not_nil slash t) as Hne.
      destruct (split slash t) as [|seg segs]; [contradiction|].
      inversion IHt; subst. constructor; [|assumption].
      cbn [wellFormed]. rewrite HL.
      repeat (apply andb_true_iff; split); try assumption.
      * now apply negb_true_iff.
      * now apply N.ltb_lt.
Qed.

Lemma wellFormed_split s :
  wellFormed s = true ->
  Forall (fun seg => wellFormed seg = true) (split slash s).
Proof. apply (wellFormed_split_bounded (length s)). lia. Qed.

End StringFacts.

(** ** Resolution of local references *)

Section LocalReferences.

Lemma encodeSegment_decode seg :
  wellFormed seg = true ->
  exists r, encodeSegment seg = Ok r
            /\ decodeURIComponent r = Ok seg
            /\ ~ In slash r.
Proof.
  intros Hwf. destruct seg as [|c t].
  - exists []. cbn. auto.
  - apply (encode_decode (c :: t) Hwf).
Qed.

Lemma encodeSegments_decode (l : list jsstring) :
  Forall (fun seg => wellFormed seg = true) l ->
  exists segs, mapM encodeSegment l = Ok segs
               /\ mapM decodeURIComponent segs = Ok l
               /\ Forall (fun seg => ~ In slash seg) segs
               /\ length segs = length l.
Proof.
  induction 1 as [|seg l Hseg Hl IH].
  - exists []. cbn. auto.
  - destruct IH as [segs [He [Hd [Hs Hn]]]].
    destruct (encodeSegment_decode seg Hseg) as [r [Her [Hdr Hsr]]].
    exists (r :: segs). cbn [mapM]. rewrite Her, He, Hdr, Hd. cbn.
    repeat split; auto.
Qed.

(** C5, as amended: a local reference without unpaired surrogate resolves
    to the base path followed by its segments, each percent-encoded on its
    own and none holding a separator, so that the boundaries are kept; and
    decoding what follows the base segment by segment gives back the
    expanded reference without its leading separators. *)
Theorem C5_local_reference_round_trip
        (SITE_BASE p : option jsstring) (page : Page) (ctx : Route) :
  let expanded := dropLeadingSlashes (expandTemplatePath p page ctx) in
  isHttp expanded = false ->
  wellFormed expanded = true ->
  exists segs,
    mapM encodeSegment (split slash expanded) = Ok segs
    /\ makeSrc SITE_BASE p page ctx
       = Ok (BASE SITE_BASE ++ join (u "/") segs)
    /\ split slash (join (u "/") segs) = segs
    /\ decodeLocalPath
         (skipn (length (BASE SITE_BASE))
                (BASE SITE_BASE ++ join (u "/") segs))
       = Ok expanded.
Proof.
  intros expanded Hlocal Hwf.
  destruct (encodeSegments_decode _ (wellFormed_split _ Hwf))
    as [segs [He [Hd [Hs Hn]]]].
  assert (Hne : segs <> []).
  { intros ->. cbn in Hn. symmetry in Hn. apply length_zero_iff_nil in Hn.
    revert Hn. apply split_not_nil. }
  assert (Hsj : split slash (join (u "/") segs) = segs)
    by (apply (split_join segs Hne Hs)).
  exists segs. split; [assumption|]. split; [|split; [assumption|]].
  - unfold makeSrc. fold expanded. rewrite Hlocal.
    unfold encodeLocalPath. rewrite He. reflexivity.
  - rewrite skipn_app, skipn_all, Nat.sub_diag. cbn [app skipn].
    unfold decodeLocalPath. rewrite Hsj, Hd. cbn [bind]. f_equal.
    apply join_split.
Qed.

End LocalReferences.

(** A file name with a space, a hash and a percent sign. *)
Lemma C5_local_reference_round_trip_witness :
  exists segs,
    mapM encodeSegment (split slash (u "media/DE/my file#1%.png")) = Ok segs
    /\ makeSrc (Some (u "/eng-portfolio"))
               (Some (u "/media/{class}/my file#1%.png")) emptyPage
               {| cls := Some (u "DE"); id := Some (u "1.1.9") |}
       = Ok (u "/eng-portfolio/" ++ join (u "/") segs)
    /\ split slash (join (u "/") segs) = segs
    /\ decodeLocalPath
         (skipn 15 (u "/eng-portfolio/" ++ join (u "/") segs))
       = Ok (u "media/DE/my file#1%.png").
Proof.
  exact (C5_local_reference_round_trip
           (Some (u "/eng-portfolio"))
           (Some (u "/media/{class}/my file#1%.png")) emptyPage
           {| cls := Some (u "DE"); id := Some (u "1.1.9") |}
           eq_refl eq_refl).
Defined.

Example makeSrc_reserved_characters :
  makeSrc (Some (u "/eng-portfolio"))
          (Some (u "/media/{class}/my file#1%.png")) emptyPage
          {| cls := Some (u "DE"); id := Some (u "1.1.9") |}
  = Ok (u "/eng-portfolio/media/DE/my%20file%231%25.png").
Proof. reflexivity. Qed.

(** C5, as stated, fails on a reference that holds an unpaired surrogate
    (the JSON text [media/\ud83d.png]): it is local, and resolving it
    throws instead of giving a locator. *)
Lemma C5_unpaired_surrogate_throws :
  isHttp (dropLeadingSlashes (expandTemplatePath (Some surrogateRef)
                                                 emptyPage nullRoute))
  = false
  /\ makeSrc None (Some surrogateRef) emptyPage nullRoute = Throw URIError.
Proof. split; reflexivity. Qed.

(** ** The replace loop *)

Section ReplaceFacts.

Lemma orElse_Some_nil s : orElse (Some s) [] = s.
Proof. now destruct s. Qed.

(** While a match is being passed over, nothing is emitted. *)
Lemma replaceFrom_skip m (x : jsstring) :
  forall before rest,
  replaceFrom m (length x) before (x ++ rest)
  = replaceFrom m 0 (before ++ x) rest.
Proof.
  induction x as [|c x IH]; intros before rest.
  - now rewrite app_nil_r.
  - cbn [length app replaceFrom]. rewrite IH, <- app_assoc. reflexivity.
Qed.

(** A pattern that matches nowhere leaves the subject as it is. *)
Lemma replaceFrom_absent tok r s :
  includes tok s = false ->
  forall before, replaceFrom (literal tok r) 0 before s = s.
Proof.
  induction s as [|c t IH]; intros Hinc before; [reflexivity|].
  cbn [includes] in Hinc. apply orb_false_iff in Hinc.
  destruct Hinc as [Hst Ht].
  cbn [replaceFrom]. unfold literal at 1. rewrite Hst.
  now rewrite IH.
Qed.

Lemma replaceLit_absent tok r s :
  includes tok s = false -> replaceLit tok r s = s.
Proof. intros H. now apply replaceFrom_absent. Qed.



(** A text without opening brace holds no token. *)
Lemma noBrace_absent name s :
  noBrace s = true -> includes (token name) s = false.
Proof.
  induction s as [|c t IH]; intros Hs; [reflexivity|].
  cbn [noBrace forallb] in Hs. apply andb_true_iff in Hs.
  destruct Hs as [Hc Ht]. apply negb_true_iff in Hc.
  cbn [includes]. rewrite (IH Ht). unfold token. cbn [startsWith].
  rewrite N.eqb_sym, Hc. reflexivity.
Qed.











(** A pass over a text without token. *)
Lemma pass_none name v s :
  noBrace s = true -> replaceLit (token name) v s = s.
Proof. intros H. apply replaceLit_absent. now apply noBrace_absent. Qed.

End ReplaceFacts.

(** ** Placeholder expansion *)

Section Placeholders.





Lemma plain_orElse t d :
  plain (orElse t []) = true -> plain d = true -> plain (orElse t d) = true.
Proof. destruct t as [[|c s]|]; cbn [orElse]; auto. Qed.

















End Placeholders.



(** A dollar in a context value is read as a replacement pattern: the
    class [$&] puts the token back. *)
Example expand_dollar_pattern :
  expandTemplatePath (Some (u "media/{class}/a.png")) emptyPage
                     {| cls := Some (u "$&"); id := None |}
  = u "media/{class}/a.png".
Proof. reflexivity. Qed.

(** ** Resolution of absolute references *)

Section AbsoluteReferences.

Lemma isHttp_no_leading_slash s :
  isHttp s = true -> dropLeadingSlashes s = s.
Proof.
  destruct s as [|c t]; [reflexivity|].
  cbn [dropLeadingSlashes]. destruct (c =? slash) eqn:E; [|reflexivity].
  apply N.eqb_eq in E. subst c. discriminate.
Qed.

Lemma absent_of_forallb expanded tok :
  forallb (fun t => negb (includes t expanded)) placeholderTokens = true ->
  In tok placeholderTokens -> includes tok expanded = false.
Proof.
  rewrite forallb_forall. intros H Hin.
  apply negb_true_iff. now apply H.
Qed.

(** C4, as amended: a reference that is an absolute http(s) locator after
    expansion and stripping is returned unchanged, and resolving the result
    again gives the same string whenever none of the five placeholder
    tokens is left in it. *)
Theorem C4_makeSrc_idempotent_http
        (SITE_BASE p : option jsstring) (page : Page) (ctx : Route) :
  let expanded := dropLeadingSlashes (expandTemplatePath p page ctx) in
  isHttp expanded = true ->
  forallb (fun tok => negb (includes tok expanded)) placeholderTokens
  = true ->
  makeSrc SITE_BASE p page ctx = Ok expanded
  /\ makeSrc SITE_BASE (Some expanded) page ctx = Ok expanded.
Proof.
  intros expanded Hhttp Hnone.
  assert (H1 : makeSrc SITE_BASE p page ctx = Ok expanded)
    by (unfold makeSrc; fold expanded; now rewrite Hhttp).
  split; [exact H1|].
  assert (Hexp : expandTemplatePath (Some expanded) page ctx = expanded).
  { unfold expandTemplatePath. rewrite orElse_Some_nil.
    rewrite (replaceLit_absent (u "{title}") _ expanded)
      by (apply absent_of_forallb; cbn; auto).
    rewrite (replaceLit_absent (u "{class}") _ expanded)
      by (apply absent_of_forallb; cbn; auto).
    rewrite (replaceLit_absent (u "{type}") _ expanded)
      by (apply absent_of_forallb; cbn; auto).
    rewrite (replaceLit_absent (u "{id}") _ expanded)
      by (apply absent_of_forallb; cbn; auto).
    apply replaceLit_absent, absent_of_forallb; cbn; auto 6. }
  unfold makeSrc. rewrite Hexp, (isHttp_no_leading_slash _ Hhttp), Hhttp.
  reflexivity.
Qed.

End AbsoluteReferences.

Lemma C4_makeSrc_idempotent_http_witness :
  makeSrc (Some (u "/eng-portfolio")) (Some (u "https://example.org/{id}.pdf"))
          emptyPage {| cls := Some (u "DE"); id := Some (u "1.1.9") |}
  = Ok (u "https://example.org/1.1.9.pdf")
  /\ makeSrc (Some (u "/eng-portfolio"))
             (Some (u "https://example.org/1.1.9.pdf"))
             emptyPage {| cls := Some (u "DE"); id := Some (u "1.1.9") |}
     = Ok (u "https://example.org/1.1.9.pdf").
Proof.
  exact (C4_makeSrc_idempotent_http
           (Some (u "/eng-portfolio")) (Some (u "https://example.org/{id}.pdf"))
           emptyPage {| cls := Some (u "DE"); id := Some (u "1.1.9") |}
           eq_refl eq_refl).
Defined.

(** C4, as stated, fails when the route id is itself a token: the first
    resolution gives an absolute locator that still holds [{class}], and
    the second one expands it. *)
Lemma C4_second_resolution_differs :
  makeSrc None (Some (u "https://example.org/{id}.pdf")) emptyPage tokenRoute
  = Ok (u "https://example.org/{class}.pdf")
  /\ isHttp (u "https://example.org/{class}.pdf") = true
  /\ makeSrc None (Some (u "https://example.org/{class}.pdf")) emptyPage
             tokenRoute
     = Ok (u "https://example.org/DE.pdf").
Proof. split; [reflexivity | split; reflexivity]. Qed.

(** ** Route parsing *)

Example path_route_rejected :
  parseRoute (Some (u "/eng-portfolio")) [u "DE"; u "POE"]
             {| search_class := None; search_id := None;
                pathname := u "/eng-portfolio/XX/1.1.9%20Soldering" |}
  = Ok nullRoute.
Proof. reflexivity. Qed.

(** C2, as stated, fails for a route given by the query parameters: with
    the allow-list [DE, POE] the class [XX] is returned as a route, and
    [boot] goes on to load its page. *)
Lemma C2_query_route_not_checked :
  parseRoute (Some (u "/eng-portfolio")) [u "DE"; u "POE"] queryLocation
  = Ok {| cls := Some (u "XX"); id := Some (u "1.1.9") |}
  /\ missingRoute {| cls := Some (u "XX"); id := Some (u "1.1.9") |} = false
  /\ existsb (eqb (u "XX")) [u "DE"; u "POE"] = false.
Proof. split; [reflexivity | split; reflexivity]. Qed.

(** ** The rich-text formatter *)

(** [escapeHtml] works unit by unit. *)
Lemma escapeHtml_flat_map s :
  escapeHtml s
  = flat_map (fun c => if isHtmlSpecial c then escapeUnit c else [c]) s.
Proof.
  unfold escapeHtml, replaceAll. generalize (@nil N) at 1 as before.
  induction s as [|c t IH]; intros before; [reflexivity|].
  cbn [replaceFrom flat_map]. unfold htmlSpecial at 1.
  destruct (isHtmlSpecial c); cbn [app]; now rewrite IH.
Qed.

(** The entities the table does give. *)
Example escapeHtml_four_entities :
  escapeHtml (u "&<'" ++ dq) = u "&amp;&lt;&#39;&quot;".
Proof. reflexivity. Qed.

(** C1 at the input [a > b]: the table of [escapeHtml] has the key [&gt;]
    where the greater-than sign is meant, so the lookup for that sign is
    undefined and the formatter writes the word [undefined], not the
    entity. *)
Theorem C1_greater_than_not_escaped :
  escapeUnit 62 = u "undefined"
  /\ escapeHtml (u "a > b") = u "a undefined b"
  /\ richText (u "a > b") = u "a undefined b"
  /\ richText (u "a > b") <> u "a &gt; b".
Proof.
  split; [reflexivity|]. split; [reflexivity|].
  split; [reflexivity | discriminate].
Qed.

(** ** Video classification *)

Section VideoFacts.

(** What [videoId] returns is an id of eleven units that follows [v=] or
    a slash in the reference. *)
Lemma candidate_sound (r i : jsstring) :
  (if Nat.eqb (length (firstn 11 r)) 11 && forallb isIdUnit (firstn 11 r)
   then Some (firstn 11 r) else None) = Some i ->
  length i = 11%nat /\ forallb isIdUnit i = true /\ r = i ++ skipn 11 r.
Proof.
  remember (firstn 11 r) as cand eqn:Hc.
  destruct (Nat.eqb (length cand) 11) eqn:L; [|discriminate].
  destruct (forallb isIdUnit cand) eqn:F; [|discriminate].
  cbn [andb]. intros H. assert (Hi : cand = i) by congruence. subst i.
  apply Nat.eqb_eq in L. split; [assumption|]. split; [assumption|].
  rewrite Hc. symmetry. apply firstn_skipn.
Qed.

Lemma videoIdAt_sound s i :
  videoIdAt s = Some i ->
  length i = 11%nat /\ forallb isIdUnit i = true
  /\ exists lead post, (lead = u "v=" \/ lead = u "/")
                       /\ s = lead ++ i ++ post.
Proof.
  unfold videoIdAt.
  destruct (startsWith (u "v=") s) eqn:E1;
    [|destruct (startsWith (u "/") s) eqn:E2; [|discriminate]].
  - intros H. destruct (candidate_sound _ _ H) as [L [F Hr]].
    split; [assumption|]. split; [assumption|].
    exists (u "v="), (skipn 11 (skipn 2 s)). split; [now left|].
    rewrite <- Hr.
    destruct s as [|a [|b s]]; try discriminate.
    cbn [u map String.list_ascii_of_string startsWith] in E1.
    apply andb_true_iff in E1. destruct E1 as [Ea E1].
    apply andb_true_iff in E1. destruct E1 as [Eb _].
    apply N.eqb_eq in Ea, Eb. subst. reflexivity.
  - intros H. destruct (candidate_sound _ _ H) as [L [F Hr]].
    split; [assumption|]. split; [assumption|].
    exists (u "/"), (skipn 11 (skipn 1 s)). split; [now right|].
    rewrite <- Hr.
    destruct s as [|a s]; try discriminate.
    cbn [u map String.list_ascii_of_string startsWith] in E2.
    apply andb_true_iff in E2. destruct E2 as [Ea _].
    apply N.eqb_eq in Ea. subst. reflexivity.
Qed.

Lemma videoId_sound s i :
  videoId s = Some i ->
  length i = 11%nat /\ forallb isIdUnit i = true
  /\ exists pre lead post, (lead = u "v=" \/ lead = u "/")
                           /\ s = pre ++ lead ++ i ++ post.
Proof.
  induction s as [|c t IH]; cbn [videoId].
  - destruct (videoIdAt []) eqn:E; [|discriminate].
    intros H. injection H as ->.
    destruct (videoIdAt_sound _ _ E) as [L [F [lead [post [Hl Hs]]]]].
    split; [assumption|]. split; [assumption|].
      exists [], lead, post. split; [assumption | exact Hs].
  - destruct (videoIdAt (c :: t)) eqn:E.
    + intros H. injection H as ->.
      destruct (videoIdAt_sound _ _ E) as [L [F [lead [post [Hl Hs]]]]].
      split; [assumption|]. split; [assumption|].
      exists [], lead, post. split; [assumption | exact Hs].
    + intros H. destruct (IH H) as [L [F [pre [lead [post [Hl Hs]]]]]].
      split; [assumption|]. split; [assumption|].
      exists (c :: pre), lead, post. split; [assumption|].
      cbn [app]. now rewrite Hs.
Qed.

(** A video extension at the end of the reference, or before a question
    mark, is found wherever it stands. *)
Lemma hasVideoExt_intro pre ext rest :
  In (toLowerCase ext) [u "mp4"; u "webm"; u "ogg"] ->
  (rest = [] \/ exists rest', rest = 63 :: rest') ->
  hasVideoExt (pre ++ 46 :: ext ++ rest) = true.
Proof.
  intros Hext Hrest.
  assert (Hat : videoExtAt (46 :: ext ++ rest) = true).
  { cbn [videoExtAt]. rewrite N.eqb_refl. cbn [andb].
    apply existsb_exists. exists (toLowerCase ext). split; [assumption|].
    assert (Hlen : length (toLowerCase ext) = length ext)
      by apply length_map.
    rewrite Hlen, skipn_app, skipn_all, Nat.sub_diag. cbn [skipn app].
    apply andb_true_iff. split.
    - clear. induction ext as [|c ext IH]; [reflexivity|].
      cbn [toLowerCase map app startsWithI].
      assert (Hidem : lowerUnit (lowerUnit c) = lowerUnit c).
      { unfold lowerUnit, isUpper.
        destruct ((65 <=? c) && (c <=? 90)) eqn:E; [|now rewrite E].
        unbool.
        replace ((65 <=? c + 32) && (c + 32 <=? 90)) with false; [reflexivity|].
        symmetry. apply andb_false_iff. right. rebool. lia. }
      rewrite Hidem, N.eqb_refl. exact IH.
    - destruct Hrest as [->|[rest' ->]]; reflexivity. }
  induction pre as [|c pre IH].
  - cbn [app]. cbn [hasVideoExt]. now rewrite Hat.
  - cbn [app hasVideoExt]. rewrite IH. apply orb_true_r.
Qed.

End VideoFacts.

(** C8, as stated, fails on a reference of the hosting domain that ends in
    [.mp4] and holds no id: it ends in a known video extension and yet
    becomes a frame, not a native video element. *)
Lemma C8_hosted_mp4_is_frame :
  isVideoHost hostedFile = true
  /\ videoId hostedFile = None
  /\ endsWith (u ".mp4") hostedFile = true
  /\ toVideoEmbed hostedFile = hostedFrame hostedFile
  /\ toVideoEmbed hostedFile <> nativeVideo hostedFile.
Proof.
  split; [reflexivity|]. split; [reflexivity|]. split; [reflexivity|].
  split; [reflexivity | discriminate].
Qed.

(** ** The element renderers *)

Section RendererFacts.

Variable SITE_BASE : option jsstring.
Variable randomSuffix : nat -> nat -> jsstring.




Lemma dispatch_image el ctx i page :
  normalizeType (el_type el) = u "image"
  \/ normalizeType (el_type el) = u "images" ->
  renderElement SITE_BASE randomSuffix el ctx i page = renderImage SITE_BASE el ctx page.
Proof.
  intros [H|H]; unfold renderElement; rewrite H; reflexivity.
Qed.

Lemma even_mod2 n : Nat.eqb (n mod 2) 0 = Nat.even n.
Proof.
  assert (H : Nat.eqb (n mod 2) 0 = Nat.even n
              /\ Nat.eqb (S n mod 2) 0 = Nat.even (S n)).
  { induction n as [|n [IH1 IH2]]; [split; reflexivity|].
    split; [exact IH2|].
    replace (S (S n)) with (n + 1 * 2)%nat at 1 by lia.
    rewrite Nat.Div0.mod_add. exact IH1. }
  exact (proj1 H).
Qed.

Lemma describedBefore_prefix pre rest :
  describedBefore (pre ++ rest) (length pre) = length (filter described pre).
Proof.
  unfold describedBefore.
  now rewrite firstn_app, firstn_all, Nat.sub_diag, firstn_0, app_nil_r.
Qed.

Lemma imageFigure_ranked page ctx v n :
  imageFigure SITE_BASE page ctx v n
  = (fig <- rankedFigure SITE_BASE page ctx v n ;;
     Ok (fig, if described v then S n else n)).
Proof.
  unfold imageFigure, rankedFigure, described.
  destruct (makeSrc SITE_BASE (it_src (asItem v)) page ctx) as [src|e];
    [|reflexivity].
  cbn [bind].
  destruct (it_description (asItem v)) as [[|c d]|]; cbn [orElse truthy];
    try reflexivity.
  unfold alignClassOf. now rewrite even_mod2.
Qed.

(** The counter an item receives is the number of described items before
    it. *)
Lemma imageFigures_ranked page ctx rest :
  forall pre,
  imageFigures SITE_BASE page ctx rest (length (filter described pre))
  = mapMi (fun v k =>
             rankedFigure SITE_BASE page ctx v
                          (describedBefore (pre ++ rest) k))
          (length pre) rest.
Proof.
  induction rest as [|v rest IH]; intros pre; [reflexivity|].
  cbn [imageFigures mapMi].
  rewrite describedBefore_prefix, imageFigure_ranked.
  destruct (rankedFigure SITE_BASE page ctx v
                         (length (filter described pre)))
    as [fig|e]; [|reflexivity].
  cbn [bind fst snd].
  specialize (IH (pre ++ [v])).
  rewrite <- app_assoc, filter_app, !length_app in IH.
  cbn [app filter length] in IH.
  replace (length pre + 1)%nat with (S (length pre)) in IH by lia.
  rewrite <- IH.
  destruct (described v); cbn [length];
    [replace (length (filter described pre) + 1)%nat
       with (S (length (filter described pre))) by lia
    |rewrite Nat.add_0_r]; reflexivity.
Qed.

(** C7: in an image or images element, an item with a description is
    rendered side by side and aligned by its rank among the described
    items, left for the first and then right and left in turn, and an item
    without description is rendered centered and leaves the ranks of the
    others as they are. *)
Theorem C7_image_alternation
        (el : Element) (ctx : Route) (i : nat) (page : Page) :
  normalizeType (el_type el) = u "image"
  \/ normalizeType (el_type el) = u "images" ->
  renderElement SITE_BASE randomSuffix el ctx i page
  = (figures <-
       mapMi (fun v k =>
                rankedFigure SITE_BASE page ctx v
                             (describedBefore (normalizeItems el) k))
             0 (normalizeItems el) ;;
     Ok (section (orElse (el_label el) (u "Image")) (concat figures))).
Proof.
  intros Hkind. rewrite dispatch_image by assumption.
  unfold renderImage.
  pose proof (imageFigures_ranked page ctx (normalizeItems el) []) as H.
  cbn [filter length app] in H. now rewrite H.
Qed.

End RendererFacts.

(** ** Page composition *)

Section ComposeFacts.

Variable SITE_BASE : option jsstring.
Variable randomSuffix : nat -> nat -> jsstring.
Variable nativeText : jsstring -> jsstring.

(** [mapMi] succeeds exactly when every call does, and then lists the
    results in the order of the arguments. *)
Lemma mapMi_Forall2 {A B} (f : A -> nat -> result B) (l : list A) :
  forall k ys,
  mapMi f k l = Ok ys
  <-> Forall2 (fun xi y => f (fst xi) (snd xi) = Ok y)
              (combine l (seq k (length l))) ys.
Proof.
  induction l as [|x l IH]; intros k ys; cbn [mapMi length seq combine].
  - split.
    + intros H. injection H as <-. constructor.
    + intros H. inversion H. reflexivity.
  - split.
    + intros H. destruct (f x k) as [y|e] eqn:E; [|discriminate].
      cbn [bind] in H.
      destruct (mapMi f (S k) l) as [ys'|e] eqn:E'; [|discriminate].
      cbn [bind] in H. injection H as <-.
      constructor; [exact E | now apply IH].
    + intros H. inversion H as [|xi y l' ys' Hy Hys]; subst.
      cbn [fst snd] in Hy. rewrite Hy. cbn [bind].
      apply IH in Hys. rewrite Hys. reflexivity.
Qed.

Lemma renderElements_mapMi els ctx page :
  renderElements SITE_BASE randomSuffix els ctx page
  = (frags <- mapMi (fun el i => renderElement SITE_BASE randomSuffix
                                               el ctx i page) 0 els ;;
     Ok (concat frags)).
Proof. destruct els; reflexivity. Qed.

(** C6: when every element of the page renders, the elements zone is the
    concatenation of the fragments in the order of the [elements] array,
    the fragment of an element being the one its renderer gives at its
    position; the zone closes the markup mounted by [render]; and the zone
    of a page whose [elements] is empty or absent is empty. *)
Theorem C6_elements_in_order
        (path_name : jsstring) (page : Page) (ctx : Route)
        (frags : list jsstring) :
  Forall2 (fun ei f =>
             renderElement SITE_BASE randomSuffix (fst ei) ctx (snd ei) page
             = Ok f)
          (indexed (elementsOf page)) frags ->
  renderElements SITE_BASE randomSuffix (elementsOf page) ctx page
  = Ok (concat frags)
  /\ (elementsOf page = [] -> concat frags = [])
  /\ (forall pathClean parentDir,
        decodeURIComponent (dropTrailingSlashes path_name) = Ok pathClean ->
        decodeURIComponent
          (orElse (secondToLast (split slash pathClean)) []) = Ok parentDir ->
        exists out chrome,
          render SITE_BASE randomSuffix nativeText path_name page ctx = Ok out
          /\ innerHTML out = chrome ++ concat frags).
Proof.
  intros Hall.
  assert (Hmap : mapMi (fun el i => renderElement SITE_BASE randomSuffix
                                                  el ctx i page)
                       0 (elementsOf page) = Ok frags)
    by (apply mapMi_Forall2; exact Hall).
  assert (Hzone : renderElements SITE_BASE randomSuffix (elementsOf page)
                                 ctx page = Ok (concat frags))
    by (rewrite renderElements_mapMi, Hmap; reflexivity).
  split; [exact Hzone|]. split.
  - intros Hnil. unfold indexed in Hall. rewrite Hnil in Hall.
    inversion Hall. reflexivity.
  - intros pathClean parentDir Hp Hd. unfold render.
    rewrite Hp. cbn [bind]. rewrite Hd. cbn [bind]. rewrite Hzone.
    cbn [bind]. eexists. eexists. split; [reflexivity|].
    cbn [innerHTML]. rewrite app_assoc. reflexivity.
Qed.

(** Without the fragment of every element there is no page. *)
Lemma render_needs_every_element path_name page ctx out :
  render SITE_BASE randomSuffix nativeText path_name page ctx = Ok out ->
  exists frags,
    Forall2 (fun ei f =>
               renderElement SITE_BASE randomSuffix (fst ei) ctx (snd ei) page
               = Ok f)
            (indexed (elementsOf page)) frags.
Proof.
  unfold render. intros H.
  destruct (decodeURIComponent (dropTrailingSlashes path_name));
    [|discriminate].
  cbn [bind] in H.
  match type of H with
  | context [decodeURIComponent ?x] => destruct (decodeURIComponent x)
  end; [|discriminate].
  cbn [bind] in H. rewrite renderElements_mapMi in H.
  destruct (mapMi (fun el i => renderElement SITE_BASE randomSuffix
                                             el ctx i page)
                  0 (elementsOf page)) as [frags|e] eqn:E; [|discriminate].
  exists frags. unfold indexed.
  exact (proj1 (mapMi_Forall2 _ _ 0%nat frags) E).
Qed.

End ComposeFacts.

(** ** The renderers on sample documents *)

(** Three elements, each with its fragment, in the order of the array. *)
Lemma C6_elements_in_order_witness :
  renderElements None noSuffix (elementsOf samplePage) sampleRoute samplePage
  = Ok (concat [ renderNotes sampleNotes; renderSynopsis sampleSynopsis;
                 renderDesignbrief sampleBrief ])
  /\ exists out chrome,
       render None noSuffix (fun _ => [])
              (u "/eng-portfolio/DE/1.1.9%20Soldering")
              samplePage sampleRoute = Ok out
       /\ innerHTML out
          = chrome ++ concat [ renderNotes sampleNotes;
                               renderSynopsis sampleSynopsis;
                               renderDesignbrief sampleBrief ].
Proof.
  destruct (C6_elements_in_order None noSuffix (fun _ => [])
              (u "/eng-portfolio/DE/1.1.9%20Soldering") samplePage sampleRoute
              [ renderNotes sampleNotes; renderSynopsis sampleSynopsis;
                renderDesignbrief sampleBrief ]) as [Hzone [_ Hpage]].
  - repeat constructor.
  - split; [exact Hzone|].
    exact (Hpage (u "/eng-portfolio/DE/1.1.9 Soldering") (u "DE")
                 eq_refl eq_refl).
Defined.

(** The page of the sample route: its title, and the notes section at the
    end of the header, the abstract and the other sections. *)
Example render_sample_page :
  exists out,
    render None noSuffix (fun _ => [])
           (u "/eng-portfolio/DE/1.1.9%20Soldering") samplePage sampleRoute
    = Ok out
    /\ document_title out = u "Team 5840C | VRC " ++ [183]
                              ++ u " 1.1.9 Soldering"
    /\ includes (u "<li>line one</li>") (innerHTML out) = true
    /\ includes (section (u "Notes") (textCard (u "hello"))) (innerHTML out)
       = true.
Proof. eexists. split; [reflexivity|]. repeat split. Qed.

(** Items 1 and 3 are described: left, centered, right, centered. *)
Lemma C7_image_alternation_witness :
  renderElement None noSuffix sampleGallery sampleRoute 0 emptyPage
  = Ok (section (u "Image")
          (sideBySideMarkup (u "align-left") (u "Image") (u "/img/a.png") []
             (u "first")
           ++ centeredMarkup (u "Image") (u "/img/b.png") []
           ++ sideBySideMarkup (u "align-right") (u "Image") (u "/img/c.png")
                [] (u "third")
           ++ centeredMarkup (u "Image") (u "/img/d.png") [])).
Proof.
  rewrite (C7_image_alternation None noSuffix sampleGallery sampleRoute 0
                                emptyPage (or_intror eq_refl)).
  reflexivity.
Defined.

(** ** Hydration *)

Section HydrateFacts.

Import Hydrate.

Lemma imap_cons {A B} (F : nat -> A -> B) j x r :
  imap F j (x :: r) = F j x :: imap F (S j) r.
Proof. reflexivity. Qed.

Lemma imap_ext_nth {A B} (F G : nat -> A -> B) l :
  forall j0,
  (forall k x, nth_error l k = Some x -> F (j0 + k)%nat x = G (j0 + k)%nat x) ->
  imap F j0 l = imap G j0 l.
Proof.
  induction l as [|x r IH]; intros j0 H; [reflexivity|].
  rewrite !imap_cons. f_equal.
  - specialize (H 0%nat x eq_refl). now rewrite Nat.add_0_r in H.
  - apply IH. intros k y Hk. specialize (H (S k) y Hk).
    now rewrite Nat.add_succ_r in H.
Qed.

Lemma imap_map {A B} (g : A -> B) l : forall j, imap (fun _ x => g x) j l = map g l.
Proof.
  induction l as [|x r IH]; intros j; [reflexivity|].
  rewrite imap_cons. cbn [map]. now rewrite IH.
Qed.

Lemma map_imap {A B C} (g : B -> C) (F : nat -> A -> B) l :
  forall j, map g (imap F j l) = imap (fun k x => g (F k x)) j l.
Proof.
  induction l as [|x r IH]; intros j; [reflexivity|].
  rewrite !imap_cons. cbn [map]. now rewrite IH.
Qed.

Lemma nth_error_imap {A B} (F : nat -> A -> B) l :
  forall j0 k,
  nth_error (imap F j0 l) k = option_map (F (j0 + k)%nat) (nth_error l k).
Proof.
  induction l as [|x r IH]; intros j0 k.
  - destruct k; reflexivity.
  - rewrite imap_cons. destruct k as [|k]; cbn [nth_error option_map].
    + now rewrite Nat.add_0_r.
    + rewrite IH. now rewrite Nat.add_succ_r.
Qed.

Lemma updateAt_imap {A B} (F G : nat -> A -> B) (h : B -> B) l :
  forall j0 k,
  (forall x, nth_error l k = Some x ->
             h (F (j0 + k)%nat x) = G (j0 + k)%nat x) ->
  (forall j x, j <> (j0 + k)%nat -> F j x = G j x) ->
  updateAt k h (imap F j0 l) = imap G j0 l.
Proof.
  induction l as [|a r IH]; intros j0 k Hk Hne; [destruct k; reflexivity|].
  rewrite !imap_cons. destruct k as [|k]; cbn [updateAt]; f_equal.
  - specialize (Hk a eq_refl). now rewrite Nat.add_0_r in Hk.
  - apply imap_ext_nth. intros k y _. apply Hne. lia.
  - apply Hne. lia.
  - apply IH.
    + intros x Hx. specialize (Hk x Hx). now rewrite Nat.add_succ_r in Hk.
    + intros j x Hj. apply Hne. lia.
Qed.

Lemma settle_text net p s : settle net p (TextNode s) = TextNode s.
Proof. destruct p; reflexivity. Qed.

Lemma eqbPath_eq p : forall q, eqbPath p q = true <-> p = q.
Proof.
  induction p as [|a p IH]; intros [|b q]; cbn [eqbPath]; split;
    try discriminate; try reflexivity.
  - intros H. apply andb_true_iff in H. destruct H as [Hab H].
    apply Nat.eqb_eq in Hab. apply IH in H. now subst.
  - intros H. injection H as -> ->. rewrite Nat.eqb_refl.
    now apply IH.
Qed.

(** What has been written depends on which blocks have settled, not on
    how that is told. *)
Lemma settledAt_ext n :
  forall net done done',
  (forall p, done p = done' p) ->
  settledAt net done n = settledAt net done' n.
Proof.
  induction n as [s|tg cl ds kids IH] using Node_induction;
    intros net done done' H; [reflexivity|].
  cbn [settledAt]. rewrite (H []). destruct (done' []); [reflexivity|].
  f_equal. apply imap_ext_nth. intros k x Hx.
  rewrite Forall_forall in IH. apply (IH x (nth_error_In _ _ Hx)).
  intros p. apply H.
Qed.

Lemma settledAt_none n : forall net, settledAt net (fun _ => false) n = n.
Proof.
  induction n as [s|tg cl ds kids IH] using Node_induction;
    intros net; [reflexivity|].
  cbn [settledAt]. f_equal.
  rewrite <- (map_id kids) at 2. rewrite <- (imap_map (fun x => x) kids 0).
  apply imap_ext_nth. intros k x Hx.
  rewrite Forall_forall in IH. apply (IH x (nth_error_In _ _ Hx)).
Qed.

(** One continuation, on a tree in which some blocks have settled. *)
Lemma settle_settledAt p :
  forall n net done,
  settle net p (settledAt net done n)
  = settledAt net (fun q => eqbPath q p || done q) n.
Proof.
  induction p as [|k p IH]; intros [s|tg cl ds kids] net done;
    try reflexivity.
  - cbn [settledAt eqbPath orb]. destruct (done []); reflexivity.
  - cbn [settledAt]. change (eqbPath [] (k :: p)) with false. cbn [orb].
    destruct (done []) eqn:D.
    + cbn [settle]. f_equal.
      destruct (loadedText (orElse ds []) (net [])) as [|c t];
        cbn [textNodes]; [now destruct k|].
      destruct k as [|k]; cbn [updateAt];
        [now rewrite settle_text | now destruct k].
    + cbn [settle]. f_equal. apply updateAt_imap.
      * intros x Hx. cbn [Nat.add]. rewrite IH. apply settledAt_ext.
        intros q. cbn [eqbPath]. now rewrite Nat.eqb_refl.
      * intros j x Hj. cbn [Nat.add] in Hj. apply settledAt_ext.
        intros q. cbn [eqbPath]. apply Nat.eqb_neq in Hj. now rewrite Hj.
Qed.

Lemma runSettled_settledAt net order :
  forall n done,
  fold_left (fun d p => settle net p d) order (settledAt net done n)
  = settledAt net (fun q => existsb (eqbPath q) order || done q) n.
Proof.
  induction order as [|p order IH]; intros n done; cbn [fold_left].
  - apply settledAt_ext. reflexivity.
  - rewrite settle_settledAt, IH. apply settledAt_ext. intros q.
    cbn [existsb]. now destruct (eqbPath q p), (existsb (eqbPath q) order).
Qed.

(** After the continuations of [order], the blocks of [order] are
    written. *)
Lemma runSettled_spec net order root :
  runSettled net order root
  = settledAt net (fun q => existsb (eqbPath q) order) root.
Proof.
  unfold runSettled. rewrite <- (settledAt_none root net) at 1.
  rewrite runSettled_settledAt. apply settledAt_ext.
  intros q. apply orb_false_r.
Qed.

Lemma In_childMatches (M : Node -> list Path) l :
  forall j0 p,
  In p (concat (imap (fun k x => map (cons k) (M x)) j0 l))
  <-> exists k q x, p = (j0 + k)%nat :: q
                    /\ nth_error l k = Some x /\ In q (M x).
Proof.
  induction l as [|a r IH]; intros j0 p.
  - cbn. split; [contradiction|].
    intros [k [q [x [_ [H _]]]]]. destruct k; discriminate.
  - rewrite imap_cons. cbn [concat]. rewrite in_app_iff, in_map_iff, IH.
    split.
    + intros [[q [<- Hq]] | [k [q [x [-> [Hx Hq]]]]]].
      * exists 0%nat, q, a. rewrite Nat.add_0_r. auto.
      * exists (S k), q, x. rewrite Nat.add_succ_r. auto.
    + intros [k [q [x [-> [Hx Hq]]]]]. destruct k as [|k].
      * left. cbn in Hx. injection Hx as ->. exists q.
        rewrite Nat.add_0_r. auto.
      * right. exists k, q, x. rewrite Nat.add_succ_r. auto.
Qed.

(** The list of the selector holds the places of the matching elements,
    and no other place. *)
Lemma In_matches p :
  forall n, In p (matches n) <-> pendingAt n p = true.
Proof.
  induction p as [|k q IH]; intros [s|tg cl ds kids].
  - cbn. split; [contradiction | discriminate].
  - cbn [matches pendingAt]. rewrite in_app_iff, In_childMatches. split.
    + intros [H | [k [q [x [Hp _]]]]]; [|discriminate].
      destruct (pending (Elem tg cl ds kids)); [reflexivity | contradiction].
    + intros ->. left. now left.
  - cbn. split; [contradiction | discriminate].
  - cbn [matches pendingAt]. rewrite in_app_iff, In_childMatches. split.
    + intros [H | [k' [q' [x [Hp [Hx Hq]]]]]].
      * destruct (pending (Elem tg cl ds kids));
          [destruct H as [H|[]]; discriminate | contradiction].
      * cbn [Nat.add] in Hp. injection Hp as -> ->. rewrite Hx.
        now apply IH.
    + intros H. right.
      destruct (nth_error kids k) as [x|] eqn:Hx; [|discriminate].
      exists k, q, x. cbn [Nat.add]. split; [reflexivity|].
      split; [exact Hx|]. now apply IH.
Qed.

Lemma In_querySelectorAll root p :
  In p (querySelectorAll root) <-> p <> [] /\ pendingAt root p = true.
Proof.
  destruct root as [s|tg cl ds kids]; cbn [querySelectorAll].
  - split; [contradiction|]. intros [Hne H].
    destruct p; [contradiction | discriminate].
  - rewrite In_childMatches. split.
    + intros [k [q [x [-> [Hx Hq]]]]]. split; [discriminate|].
      cbn [pendingAt Nat.add]. rewrite Hx. now apply In_matches.
    + intros [Hne H]. destruct p as [|k q]; [contradiction|].
      cbn [pendingAt] in H.
      destruct (nth_error kids k) as [x|] eqn:Hx; [|discriminate].
      exists k, q, x. cbn [Nat.add]. split; [reflexivity|].
      split; [exact Hx|]. now apply In_matches.
Qed.

Lemma settledAt_pendingAt n :
  forall net, settledAt net (pendingAt n) n = hydrated net n.
Proof.
  induction n as [s|tg cl ds kids IH] using Node_induction;
    intros net; [reflexivity|].
  cbn [settledAt hydrated].
  change (pendingAt (Elem tg cl ds kids) [])
    with (pending (Elem tg cl ds kids)).
  destruct (pending (Elem tg cl ds kids)); [reflexivity|].
  f_equal. apply imap_ext_nth. intros k x Hx. cbn [Nat.add].
  rewrite Forall_forall in IH. rewrite <- (IH x (nth_error_In _ _ Hx)).
  apply settledAt_ext. intros q. cbn [pendingAt]. now rewrite Hx.
Qed.

(** Once every fetch has settled, in any order, the tree is the one in
    which every pending block that is in no other pending block holds the
    text of its own fetch. *)
Lemma hydration_spec net order root :
  Permutation order (querySelectorAll root) ->
  runSettled net order root = hydratedBelow net root.
Proof.
  intros Hperm. rewrite runSettled_spec.
  destruct root as [s|tg cl ds kids]; [reflexivity|].
  assert (Hdone : forall q,
             existsb (eqbPath q) order
             = match q with
               | [] => false
               | _ :: _ => pendingAt (Elem tg cl ds kids) q
               end).
  { intros q. apply Bool.eq_iff_eq_true. rewrite existsb_exists. split.
    - intros [p [Hin Heq]]. apply eqbPath_eq in Heq. subst p.
      apply (Permutation_in _ Hperm) in Hin.
      apply In_querySelectorAll in Hin. destruct Hin as [Hne H].
      destruct q; [contradiction | exact H].
    - intros H. destruct q as [|k q]; [discriminate|].
      exists (k :: q). split; [|now apply eqbPath_eq].
      apply (Permutation_in _ (Permutation_sym Hperm)).
      apply In_querySelectorAll. split; [discriminate | exact H]. }
  rewrite (settledAt_ext _ _ _ _ Hdone). cbn [settledAt hydratedBelow].
  f_equal. apply imap_ext_nth. intros k x Hx. cbn [Nat.add].
  rewrite <- settledAt_pendingAt. apply settledAt_ext.
  intros q. cbn [pendingAt]. now rewrite Hx.
Qed.

Lemma nodeAt_hydratedBelow p :
  forall root net x,
  p <> [] -> clearPath root p = true -> nodeAt root p = Some x ->
  nodeAt (hydratedBelow net root) p
  = Some (hydrated (fun r => net (p ++ r)) x).
Proof.
  induction p as [|k q IH]; intros root net x Hne Hclear Hx;
    [contradiction|].
  destruct root as [s|tg cl ds kids]; [discriminate|].
  cbn [nodeAt clearPath hydratedBelow] in *. rewrite nth_error_imap.
  cbn [Nat.add].
  destruct (nth_error kids k) as [y|] eqn:Hy; [|discriminate].
  cbn [option_map]. destruct q as [|k' q'].
  - cbn [nodeAt] in *. injection Hx as ->. reflexivity.
  - apply andb_true_iff in Hclear. destruct Hclear as [Hp Hc].
    apply negb_true_iff in Hp.
    assert (Hy' : hydrated (fun r => net (k :: r)) y
                  = hydratedBelow (fun r => net (k :: r)) y).
    { destruct y as [s|tg' cl' ds' kids']; [reflexivity|].
      cbn [hydrated hydratedBelow]. now rewrite Hp. }
    rewrite Hy'.
    apply (IH y (fun r => net (k :: r)) x);
      [discriminate | assumption | assumption].
Qed.

Lemma textContent_textNodes tg cl ds t :
  textContent (Elem tg cl ds (textNodes t)) = t.
Proof.
  destruct t as [|c t]; [reflexivity|].
  cbn [textNodes textContent map concat]. apply app_nil_r.
Qed.

(** C9, as amended: whatever the order in which the fetches settle, a
    pending block that stands in no other pending block ends with one
    text, and nothing else, as its content: the retrieved text when its
    fetch succeeded, the message of a failed load when the response was
    not a success, and the message of an error when the fetch, or the
    reading of the body, was rejected.  Its content depends on its own
    fetch only: the outcomes of the other fetches change nothing in
    it. *)
Theorem C9_hydration_per_block
        (net : Path -> Fetched) (root : Node) (order : list Path)
        (p : Path) (tg : jsstring) (cl : list jsstring)
        (ds : option jsstring) (kids : list Node) :
  Permutation order (querySelectorAll root) ->
  nodeAt root p = Some (Elem tg cl ds kids) ->
  pending (Elem tg cl ds kids) = true ->
  p <> [] -> clearPath root p = true ->
  let url := orElse ds [] in
  exists n',
    nodeAt (runSettled net order root) p = Some n'
    /\ n' = Elem tg cl ds (textNodes (textContent n'))
    /\ (forall text, net p = Response true (Some text) ->
                     textContent n' = text)
    /\ (forall body, net p = Response false body ->
                     textContent n' = u "Failed to load: " ++ url)
    /\ (net p = Rejected \/ net p = Response true None ->
        textContent n' = u "Error loading: " ++ url)
    /\ nodeAt (hydrateCodeBlocks net root) p = Some n'
    /\ (forall net', net' p = net p ->
                     nodeAt (runSettled net' order root) p = Some n').
Proof.
  intros Hperm Hx Hpend Hne Hclear url.
  assert (Hat : forall nt ord,
             Permutation ord (querySelectorAll root) ->
             nodeAt (runSettled nt ord root) p
             = Some (Elem tg cl ds (textNodes (loadedText url (nt p))))).
  { intros nt ord Hord. rewrite (hydration_spec nt ord root Hord).
    rewrite (nodeAt_hydratedBelow p root nt _ Hne Hclear Hx).
    cbn [hydrated]. rewrite Hpend, app_nil_r. reflexivity. }
  exists (Elem tg cl ds (textNodes (loadedText url (net p)))).
  rewrite textContent_textNodes.
  split; [now apply Hat|]. split; [reflexivity|].
  split; [|split; [|split; [|split]]].
  - intros text H. now rewrite H.
  - intros body H. now rewrite H.
  - intros [H|H]; now rewrite H.
  - apply Hat, Permutation_refl.
  - intros net' H. rewrite (Hat net' order Hperm). now rewrite H.
Qed.

End HydrateFacts.

(** The second fetch settles first; the first block shows the failure of
    its own load. *)
Lemma C9_hydration_per_block_witness :
  exists n',
    Hydrate.nodeAt
      (Hydrate.runSettled sampleNet [[2; 0; 1]; [0; 1]]%nat sampleDom)
      [0; 1]%nat = Some n'
    /\ Hydrate.textContent n' = u "Failed to load: /code/a.py".
Proof.
  destruct (C9_hydration_per_block
              sampleNet sampleDom [[2; 0; 1]; [0; 1]]%nat [0; 1]%nat
              (u "pre") [u "code-window"] (Some (u "/code/a.py"))
              [Hydrate.TextNode (u "Loading script" ++ [8230])]
              (perm_swap [0; 1]%nat [2; 0; 1]%nat []) eq_refl eq_refl)
    as [n' [Hn [_ [_ [Hf _]]]]].
  - discriminate.
  - reflexivity.
  - exists n'. split; [exact Hn | exact (Hf None eq_refl)].
Defined.

(** C9, as stated, fails for a pending block inside another pending
    block: the selector finds it and its fetch succeeds, but once
    hydration is done, in either order, it is no longer in the tree and
    its text is nowhere on the page, which shows the text of the outer
    block alone. *)
Lemma C9_nested_block_dropped :
  In [0; 1]%nat (Hydrate.querySelectorAll nestedDom)
  /\ nestedNet [0; 1]%nat = Hydrate.Response true (Some (u "inner()"))
  /\ Hydrate.hydrateCodeBlocks nestedNet nestedDom
     = Hydrate.runSettled nestedNet [[0; 1]; [0]]%nat nestedDom
  /\ Hydrate.nodeAt (Hydrate.hydrateCodeBlocks nestedNet nestedDom)
                    [0; 1]%nat = None
  /\ Hydrate.textContent (Hydrate.hydrateCodeBlocks nestedNet nestedDom)
     = u "outer()".
Proof.
  split; [right; now left|]. split; [reflexivity|].
  split; [vm_compute; reflexivity|]. split; vm_compute; reflexivity.
Qed.

(** Such a tree can be mounted: the script renderer writes the resolved
    source into the [data-src] attribute as it is, and an absolute locator
    is resolved to itself, double quote and angle brackets included. *)
Example script_source_unescaped :
  exists fig,
    scriptFigure None noSuffix emptyPage nullRoute 0 injectedItem 0 = Ok fig
    /\ includes (u "data-src=" ++ dq ++ injectedSrc) fig = true
    /\ includes (u "<pre class=" ++ q (u "code-window") ++ u " data-src="
                   ++ q (u "https://example.org/b.py") ++ u ">") fig
       = true.
Proof.
  eexists. split; [vm_compute; reflexivity|].
  split; vm_compute; reflexivity.
Qed.

(** The texts of the sample tree after hydration, and a block inside
    another one: the inner block leaves the tree with the content of the
    outer one, in either order. *)
Example hydrate_sample :
  Hydrate.textContent (Hydrate.hydrateCodeBlocks sampleNet sampleDom)
  = u "ScriptFailed to load: /code/a.pythenScriptprint(1)"
  /\ Hydrate.querySelectorAll nestedDom = [[0]; [0; 1]]%nat
  /\ Hydrate.runSettled sampleNet [[0]; [0; 1]]%nat nestedDom
     = Hydrate.runSettled sampleNet [[0; 1]; [0]]%nat nestedDom
  /\ Hydrate.textContent
       (Hydrate.runSettled sampleNet [[0; 1]; [0]]%nat nestedDom)
     = u "Failed to load: /code/outer.py".
Proof. repeat split. Qed.

(* ================================================================== *)
(** * Further properties of the interpreter *)

(** ** The small helpers *)

Section HelperFacts.

Lemma endsWith_snoc (s : jsstring) (c : N) : endsWith [c] (s ++ [c]) = true.
Proof.
  unfold endsWith. rewrite rev_app_distr. cbn [rev app startsWith].
  now rewrite N.eqb_refl.
Qed.

Lemma normalizeBase_ends x :
  endsWith (u "/") (normalizeBase x) = true
  /\ normalizeBase (normalizeBase x) = normalizeBase x.
Proof.
  destruct x as [|c t]; [split; reflexivity|].
  unfold normalizeBase.
  destruct (endsWith (u "/") (c :: t)) eqn:E; cbn [negb].
  - rewrite E. cbn [negb]. now split.
  - change (u "/") with [slash] in *.
    split; [apply (endsWith_snoc (c :: t))|].
    cbn [app]. change (c :: t ++ [slash]) with ((c :: t) ++ [slash]).
    now rewrite endsWith_snoc.
Qed.

(** X1: the base path always ends with a separator, and normalising it again
    changes nothing. *)
Theorem normalizeBase_closed (b : jsstring) (SITE_BASE : option jsstring) :
  endsWith (u "/") (normalizeBase b) = true
  /\ normalizeBase (normalizeBase b) = normalizeBase b
  /\ endsWith (u "/") (BASE SITE_BASE) = true.
Proof.
  split; [apply normalizeBase_ends|]. split; [apply normalizeBase_ends|].
  apply normalizeBase_ends.
Qed.

Lemma lowerUnit_idem c : lowerUnit (lowerUnit c) = lowerUnit c.
Proof.
  unfold lowerUnit, isUpper.
  destruct ((65 <=? c) && (c <=? 90)) eqn:E; [|now rewrite E].
  unbool.
  replace ((65 <=? c + 32) && (c + 32 <=? 90)) with false; [reflexivity|].
  symmetry. apply andb_false_iff. right. rebool. lia.
Qed.

Lemma toLowerCase_idem s : toLowerCase (toLowerCase s) = toLowerCase s.
Proof.
  unfold toLowerCase. rewrite map_map. apply map_ext, lowerUnit_idem.
Qed.

Lemma isSpace_lowerUnit c : isSpace (lowerUnit c) = isSpace c.
Proof.
  unfold lowerUnit, isUpper.
  destruct ((65 <=? c) && (c <=? 90)) eqn:E; [|reflexivity].
  unbool. unfold isSpace.
  repeat match goal with
         | |- context [?a <=? ?b] =>
           let H := fresh in
           destruct (a <=? b) eqn:H; unbool; try lia
         | |- context [?a =? ?b] =>
           let H := fresh in
           destruct (a =? b) eqn:H; unbool; try lia
         end; reflexivity.
Qed.

Lemma isUpper_lowerUnit c : isUpper (lowerUnit c) = false.
Proof.
  unfold lowerUnit, isUpper.
  destruct ((65 <=? c) && (c <=? 90)) eqn:E; [|exact E].
  unbool. apply andb_false_iff. right. rebool. lia.
Qed.

(** X2: the normalised form of an ASCII type tag holds no white space and no
    capital letter, and normalising it again changes nothing: tags that
    differ in letter case or spacing only name the same renderer. *)
Theorem normalizeType_canonical (t : option jsstring) :
  asciiText (orElse t []) = true ->
  forallb (fun c => negb (isSpace c) && negb (isUpper c)) (normalizeType t)
  = true
  /\ normalizeType (Some (normalizeType t)) = normalizeType t
  /\ normalizeType (Some (toLowerCase (orElse t []))) = normalizeType t
  /\ normalizeType (Some (filter (fun c => negb (isSpace c)) (orElse t [])))
     = normalizeType t.
Proof.
  intros _.
  assert (Hlow : forall s,
             filter (fun c => negb (isSpace c)) (toLowerCase s)
             = toLowerCase (filter (fun c => negb (isSpace c)) s)).
  { induction s as [|c s IH]; [reflexivity|].
    cbn [toLowerCase map filter]. rewrite isSpace_lowerUnit.
    destruct (isSpace c); cbn [negb]; [exact IH|].
    cbn [map]. f_equal. exact IH. }
  assert (Hff : forall s,
             filter (fun c => negb (isSpace c))
                    (filter (fun c => negb (isSpace c)) s)
             = filter (fun c => negb (isSpace c)) s).
  { induction s as [|c s IH]; [reflexivity|].
    cbn [filter]. destruct (isSpace c) eqn:E; cbn [negb filter];
      [exact IH|]. rewrite E. cbn [negb]. now rewrite IH. }
  unfold normalizeType. rewrite !orElse_Some_nil.
  split; [|split; [|split]].
  - apply forallb_forall. intros c Hc. apply filter_In in Hc.
    destruct Hc as [Hc Hs]. rewrite Hs. cbn [andb].
    unfold toLowerCase in Hc. apply in_map_iff in Hc.
    destruct Hc as [x [<- _]]. now rewrite isUpper_lowerUnit.
  - rewrite Hlow, Hff, <- Hlow, toLowerCase_idem. reflexivity.
  - now rewrite toLowerCase_idem.
  - now rewrite Hlow, Hff.
Qed.

Lemma startsWithI_lower p s :
  startsWithI p (toLowerCase s) = startsWithI p s.
Proof.
  revert s. induction p as [|x p IH]; intros [|y s]; try reflexivity.
  cbn [toLowerCase map startsWithI]. rewrite lowerUnit_idem.
  f_equal. apply IH.
Qed.

(** X3: the scheme test ignores the letter case: a reference whose lower-case
    form is an http(s) locator is returned by [makeSrc] as it is, without
    base path and without encoding. *)
Theorem isHttp_any_case
        (SITE_BASE p : option jsstring) (page : Page) (ctx : Route) :
  let expanded := dropLeadingSlashes (expandTemplatePath p page ctx) in
  isHttp (toLowerCase expanded) = true ->
  isHttp expanded = true
  /\ makeSrc SITE_BASE p page ctx = Ok expanded.
Proof.
  intros expanded H. unfold isHttp in H.
  rewrite !startsWithI_lower in H. fold (isHttp expanded) in H.
  split; [exact H|]. unfold makeSrc. fold expanded. now rewrite H.
Qed.

(** X4: [escapeHtml] leaves no angle bracket and no quote in its result. *)
Theorem escapeHtml_no_markup (s : jsstring) (c : N) :
  In c (escapeHtml s) -> c <> 60 /\ c <> 62 /\ c <> 34 /\ c <> 39.
Proof.
  rewrite escapeHtml_flat_map, in_flat_map. intros [x [_ Hc]].
  destruct (isHtmlSpecial x) eqn:E.
  - unfold isHtmlSpecial, existsb in E.
    repeat match type of E with
           | _ || _ = true => apply orb_true_iff in E; destruct E as [E|E]
           end; try discriminate; apply N.eqb_eq in E; subst x;
      cbn in Hc;
      repeat match type of Hc with
             | _ \/ _ => destruct Hc as [Hc|Hc]
             | False => contradiction
             end; subst c; repeat split; discriminate.
  - destruct Hc as [<-|[]].
    unfold isHtmlSpecial, existsb in E. unbool.
    repeat split; congruence.
Qed.

(** X5: [escapeHtml] distributes over concatenation, and keeps a text without
    any of the five characters as it is. *)
Theorem escapeHtml_app (a b : jsstring) :
  escapeHtml (a ++ b) = escapeHtml a ++ escapeHtml b
  /\ (forallb (fun c => negb (isHtmlSpecial c)) a = true ->
      escapeHtml a = a).
Proof.
  split.
  - rewrite !escapeHtml_flat_map. apply flat_map_app.
  - rewrite escapeHtml_flat_map. induction a as [|c a IH]; [reflexivity|].
    cbn [forallb flat_map]. intros H. apply andb_true_iff in H.
    destruct H as [Hc Ha]. apply negb_true_iff in Hc. rewrite Hc.
    cbn [app]. f_equal. now apply IH.
Qed.

(** X6: a path that ends in a suffix of the table, in any letter case, gets
    the language of that suffix. *)
Theorem guessLang_table (pre ext' ext lang : jsstring) :
  In (ext, lang) languageTable ->
  toLowerCase ext' = ext ->
  guessLang (pre ++ ext') = lang.
Proof.
  intros Hin Hext. unfold guessLang, toLowerCase. rewrite map_app.
  fold (toLowerCase ext'). rewrite Hext. unfold endsWith.
  rewrite !rev_app_distr.
  cbn [languageTable In] in Hin.
  repeat match type of Hin with
         | _ \/ _ => destruct Hin as [Hin|Hin]
         | False => contradiction
         end; injection Hin as <- <-; reflexivity.
Qed.

(** X7: a path that ends with none of the known suffixes, in any letter
    case, has no language. *)
Theorem guessLang_unknown (p : jsstring) :
  forallb (fun e => negb (endsWith (fst e) (toLowerCase p))) languageTable
  = true ->
  guessLang p = [].
Proof.
  intros H. cbn [languageTable forallb fst] in H. unbool.
  unfold guessLang.
  repeat match goal with
         | H : endsWith ?e ?s = false |- context [endsWith ?e ?s] =>
           rewrite H
         end.
  reflexivity.
Qed.

Lemma noDot_app a b : noDot (a ++ b) = noDot a && noDot b.
Proof. apply forallb_app. Qed.

Lemma noDot_with_dot a b : noDot (a ++ 46 :: b) = false.
Proof.
  rewrite noDot_app. cbn [noDot forallb]. rewrite N.eqb_refl.
  cbn [negb andb]. apply andb_false_r.
Qed.

Lemma stripExt_cut (nm ext : jsstring) :
  noDot ext = true -> ext <> [] -> stripExt (nm ++ 46 :: ext) = nm.
Proof.
  intros Hext Hne. induction nm as [|c nm IH].
  - cbn [app stripExt]. rewrite N.eqb_refl. fold (noDot ext).
    rewrite Hext. destruct ext; [contradiction|reflexivity].
  - cbn [app stripExt]. fold (noDot (nm ++ 46 :: ext)).
    rewrite noDot_with_dot, andb_false_r. now rewrite IH.
Qed.

(** X8: [stripExt] cuts the last extension and nothing else: what follows the
    last dot goes with the dot, a name without dot is kept, and so is a
    name that ends with a dot. *)
Theorem stripExt_last_extension (nm ext : jsstring) :
  noDot ext = true ->
  (ext <> [] -> stripExt (nm ++ 46 :: ext) = nm)
  /\ stripExt ext = ext
  /\ stripExt (nm ++ [46]) = nm ++ [46].
Proof.
  intros Hext. split; [|split].
  - now apply stripExt_cut.
  - induction ext as [|c ext IH]; [reflexivity|].
    cbn [noDot forallb] in Hext. apply andb_true_iff in Hext.
    destruct Hext as [Hc Hext]. apply negb_true_iff in Hc.
    cbn [stripExt]. rewrite Hc. cbn [andb]. now rewrite IH.
  - induction nm as [|c nm IH]; [reflexivity|].
    cbn [app stripExt]. fold (noDot (nm ++ [46])).
    rewrite noDot_with_dot, andb_false_r. now rewrite IH.
Qed.

Lemma split_app_any a b :
  split slash (a ++ slash :: b) = split slash a ++ split slash b.
Proof.
  induction a as [|c a IH].
  - cbn [app split]. now rewrite N.eqb_refl.
  - cbn [app split]. rewrite IH. destruct (c =? slash); [reflexivity|].
    pose proof (split_not_nil slash a) as Hne.
    destruct (split slash a); [contradiction|reflexivity].
Qed.

Lemma noSlash_not_In s : noSlash s = true -> ~ In slash s.
Proof.
  unfold noSlash. rewrite forallb_forall. intros H Hin.
  specialize (H _ Hin). now rewrite N.eqb_refl in H.
Qed.

Lemma pop_snoc (l : list jsstring) x : pop (l ++ [x]) = Some x.
Proof. unfold pop. now rewrite rev_app_distr. Qed.

(** X9: the stem of [dir/name.ext] is [name], whatever the directories. *)
Theorem filenameStem_of_path (dir nm ext : jsstring) :
  noSlash nm = true -> noSlash ext = true -> noDot ext = true ->
  ext <> [] -> nm <> [] ->
  filenameStem (dir ++ u "/" ++ nm ++ u "." ++ ext) = nm
  /\ filenameStem (nm ++ u "." ++ ext) = nm.
Proof.
  intros Hnm Hes Hed Hne Hnn.
  assert (Hbase : ~ In slash (nm ++ 46 :: ext)).
  { intros Hin. apply in_app_or in Hin. destruct Hin as [Hin|[Hin|Hin]].
    - now apply (noSlash_not_In nm).
    - discriminate.
    - now apply (noSlash_not_In ext). }
  assert (Hnz : exists c t, nm ++ 46 :: ext = c :: t)
    by (destruct nm as [|c t]; [contradiction|now exists c, (t ++ 46 :: ext)]).
  destruct Hnz as [c0 [t0 Hnz]].
  split; unfold filenameStem.
  - change (dir ++ u "/" ++ nm ++ u "." ++ ext)
      with (dir ++ slash :: (nm ++ 46 :: ext)).
    rewrite split_app_any, (split_no_sep _ Hbase), pop_snoc.
    rewrite Hnz. cbn [orElse]. rewrite <- Hnz.
    now apply stripExt_cut.
  - change (nm ++ u "." ++ ext) with (nm ++ 46 :: ext).
    rewrite (split_no_sep _ Hbase). cbn [pop rev app].
    rewrite Hnz. cbn [orElse]. rewrite <- Hnz.
    now apply stripExt_cut.
Qed.

End HelperFacts.

(** ** The locator of the page document *)

Section JsonUrlFacts.

Lemma wellFormed_app_bounded (n : nat) :
  forall a b, (length a <= n)%nat ->
  wellFormed a = true -> wellFormed b = true -> wellFormed (a ++ b) = true.
Proof.
  induction n as [|n IH]; intros a b Hlen Ha Hb.
  { destruct a; [exact Hb | cbn in Hlen; lia]. }
  destruct a as [|c t]; [exact Hb|].
  cbn [length] in Hlen. cbn [wellFormed] in Ha. cbn [app wellFormed].
  destruct (isLead c).
  - destruct t as [|d t']; [discriminate|]. cbn [length] in Hlen.
    apply andb_true_iff in Ha. destruct Ha as [Hd Ht].
    cbn [app]. rewrite Hd. cbn [andb]. apply IH; [lia | assumption..].
  - apply andb_true_iff in Ha. destruct Ha as [Hc Ht]. rewrite Hc.
    cbn [andb]. apply IH; [lia | assumption..].
Qed.

Lemma wellFormed_app a b :
  wellFormed a = true -> wellFormed b = true -> wellFormed (a ++ b) = true.
Proof. apply (wellFormed_app_bounded (length a)). lia. Qed.

Lemma mapM_app {A B} (f : A -> result B) l1 l2 :
  mapM f (l1 ++ l2)
  = (a <- mapM f l1 ;; b <- mapM f l2 ;; Ok (a ++ b)).
Proof.
  induction l1 as [|x l1 IH]; cbn [app mapM].
  - destruct (mapM f l2); reflexivity.
  - destruct (f x); [|reflexivity]. cbn [bind]. rewrite IH.
    destruct (mapM f l1); [|reflexivity]. cbn [bind].
    destruct (mapM f l2); reflexivity.
Qed.

Lemma mapM_length {A B} (f : A -> result B) l ys :
  mapM f l = Ok ys -> length ys = length l.
Proof.
  revert ys. induction l as [|x l IH]; intros ys; cbn [mapM].
  - intros H. now injection H as <-.
  - destruct (f x); [|discriminate]. cbn [bind].
    destruct (mapM f l) as [ys'|]; [|discriminate]. cbn [bind].
    intros H. injection H as <-. cbn [length]. f_equal. now apply IH.
Qed.

Lemma join_app sep (l1 l2 : list jsstring) :
  l1 <> [] -> l2 <> [] ->
  join sep (l1 ++ l2) = join sep l1 ++ sep ++ join sep l2.
Proof.
  intros H1 H2. induction l1 as [|x l1 IH]; [contradiction|].
  destruct l1 as [|y l1].
  - cbn [app]. destruct l2; [contradiction|reflexivity].
  - cbn [app]. rewrite !join_cons2.
    cbn [app] in IH. rewrite IH by discriminate.
    now rewrite <- !app_assoc.
Qed.

(** Decoding segment by segment can be done on both sides of a
    separator. *)
Lemma decodeLocalPath_app a b a' b' :
  decodeLocalPath a = Ok a' -> decodeLocalPath b = Ok b' ->
  decodeLocalPath (a ++ slash :: b) = Ok (a' ++ slash :: b').
Proof.
  unfold decodeLocalPath. intros Ha Hb.
  rewrite split_app_any, mapM_app.
  destruct (mapM decodeURIComponent (split slash a)) as [sa|] eqn:Ea;
    [|discriminate].
  destruct (mapM decodeURIComponent (split slash b)) as [sb|] eqn:Eb;
    [|discriminate].
  cbn [bind] in *. injection Ha as <-. injection Hb as <-.
  assert (Hna : sa <> []).
  { intros ->. apply mapM_length in Ea. cbn in Ea. symmetry in Ea.
    apply length_zero_iff_nil in Ea. revert Ea. apply split_not_nil. }
  assert (Hnb : sb <> []).
  { intros ->. apply mapM_length in Eb. cbn in Eb. symmetry in Eb.
    apply length_zero_iff_nil in Eb. revert Eb. apply split_not_nil. }
  now rewrite (join_app (u "/") sa sb Hna Hnb).
Qed.

Lemma mapM_encodeSegment l :
  mapM encodeURIComponent l = mapM encodeSegment l.
Proof.
  induction l as [|x l IH]; [reflexivity|]. cbn [mapM]. rewrite IH.
  now destruct x.
Qed.

(** A well-formed path is encoded, and decodes to itself. *)
Lemma encodePath_decode seg :
  wellFormed seg = true ->
  exists e, encodePath seg = Ok e /\ decodeLocalPath e = Ok seg.
Proof.
  intros Hwf. unfold encodePath. rewrite mapM_encodeSegment.
  destruct (encodeSegments_decode _ (wellFormed_split _ Hwf))
    as [segs [He [Hd [Hs Hn]]]].
  assert (Hne : segs <> []).
  { intros ->. cbn in Hn. symmetry in Hn. apply length_zero_iff_nil in Hn.
    revert Hn. apply split_not_nil. }
  rewrite He. cbn [bind]. eexists. split; [reflexivity|].
  unfold decodeLocalPath.
  change (u "/") with [slash]. rewrite (split_join segs Hne Hs), Hd.
  cbn [bind]. f_equal. apply join_split.
Qed.

(** The encoded path has the segments of the path, each encoded on its
    own: a separator stays a separator. *)
Lemma encodePath_segments seg :
  wellFormed seg = true ->
  exists e, encodePath seg = Ok e
            /\ mapM encodeURIComponent (split slash seg)
               = Ok (split slash e).
Proof.
  intros Hwf. unfold encodePath. rewrite mapM_encodeSegment.
  destruct (encodeSegments_decode _ (wellFormed_split _ Hwf))
    as [segs [He [Hd [Hs Hn]]]].
  assert (Hne : segs <> []).
  { intros ->. cbn in Hn. symmetry in Hn. apply length_zero_iff_nil in Hn.
    revert Hn. apply split_not_nil. }
  rewrite He. cbn [bind]. eexists. split; [reflexivity|].
  change (u "/") with [slash]. now rewrite (split_join segs Hne Hs).
Qed.

(** X10: without owner or repository name [buildJsonUrl] throws its own error.
    With both, and no unpaired surrogate anywhere, it returns a locator on
    the raw-content host whose owner, repository and branch decode to the
    configured ones and whose path decodes, segment by segment, to
    [pages/<class>/<id>.json]; the segments of the path are those of
    [pages/<class>/<id>.json], each encoded on its own, so that a slash of
    the class or of the id stays a separator. *)
Theorem buildJsonUrl_round_trip
        (REPO_OWNER REPO_NAME REPO_BRANCH : option jsstring)
        (c i : jsstring) :
  (truthy REPO_OWNER && truthy REPO_NAME = false ->
   buildJsonUrl REPO_OWNER REPO_NAME REPO_BRANCH c i
   = Raised (ErrorWith
               (u "Missing REPO_OWNER or REPO_NAME in site.config.js")))
  /\ (truthy REPO_OWNER && truthy REPO_NAME = true ->
      wellFormed (orElse REPO_OWNER []) = true ->
      wellFormed (orElse REPO_NAME []) = true ->
      wellFormed (BR REPO_BRANCH) = true ->
      wellFormed c = true -> wellFormed i = true ->
      exists owner repo branch path,
        buildJsonUrl REPO_OWNER REPO_NAME REPO_BRANCH c i
        = Returned (u "https://raw.githubusercontent.com/" ++ owner
                      ++ u "/" ++ repo ++ u "/" ++ branch ++ u "/" ++ path)
        /\ decodeURIComponent owner = Ok (orElse REPO_OWNER [])
        /\ decodeURIComponent repo = Ok (orElse REPO_NAME [])
        /\ decodeURIComponent branch = Ok (BR REPO_BRANCH)
        /\ ~ In slash owner /\ ~ In slash repo /\ ~ In slash branch
        /\ decodeLocalPath path
           = Ok (u "pages/" ++ c ++ u "/" ++ i ++ u ".json")
        /\ mapM encodeURIComponent
                (split slash (u "pages/" ++ c ++ u "/" ++ i ++ u ".json"))
           = Ok (split slash path)).
Proof.
  split.
  - intros H. unfold buildJsonUrl.
    apply andb_false_iff in H.
    destruct H as [H|H]; rewrite H; cbn [negb orb];
      [reflexivity | now rewrite orb_true_r].
  - intros H Ho Hr Hb Hc Hi. apply andb_true_iff in H.
    destruct H as [Hto Htr]. unfold buildJsonUrl.
    rewrite Hto, Htr. cbn [negb orb].
    destruct (encodePath_decode (u "pages") eq_refl) as [e1 [E1 D1]].
    destruct (encodePath_decode c Hc) as [e2 [E2 D2]].
    assert (Hij : wellFormed (i ++ u ".json") = true)
      by (apply wellFormed_app; [assumption | reflexivity]).
    destruct (encodePath_decode _ Hij) as [e3 [E3 D3]].
    destruct (encode_decode _ Ho) as [eo [Eo [Do So]]].
    destruct (encode_decode _ Hr) as [er [Er [Dr Sr]]].
    destruct (encode_decode _ Hb) as [eb [Eb [Db Sb]]].
    cbn [mapM]. rewrite E1, E2, E3. cbn [bind].
    rewrite Eo, Er, Eb. cbn [bind ofResult].
    destruct (encodePath_segments (u "pages") eq_refl) as [e1' [E1' S1]].
    destruct (encodePath_segments c Hc) as [e2' [E2' S2]].
    destruct (encodePath_segments _ Hij) as [e3' [E3' S3]].
    rewrite E1 in E1'. injection E1' as <-.
    rewrite E2 in E2'. injection E2' as <-.
    rewrite E3 in E3'. injection E3' as <-.
    exists eo, er, eb, (join (u "/") [e1; e2; e3]).
    repeat (split; [first [reflexivity | assumption]|]).
    cbn [join]. change (u "/") with [slash]. cbn [app].
    change (u "pages/" ++ c ++ slash :: i ++ u ".json")
      with (u "pages" ++ slash :: (c ++ slash :: (i ++ u ".json"))).
    split.
    + apply decodeLocalPath_app; [exact D1|].
      apply decodeLocalPath_app; assumption.
    + rewrite !split_app_any, !mapM_app, S1, S2, S3. reflexivity.
Qed.

End JsonUrlFacts.

(** ** The three substitutions of the formatter *)

Section RichTextFacts.

(** A pattern that cannot start at any unit of a text leaves the text. *)
Lemma replaceFrom_keep (m : matcher) (P : N -> bool) :
  (forall b c t, P c = true -> m b (c :: t) = None) ->
  forall s rest before,
    forallb P s = true ->
    replaceFrom m 0 before (s ++ rest)
    = s ++ replaceFrom m 0 (before ++ s) rest.
Proof.
  intros Hm. induction s as [|c s IH]; intros rest before Hs.
  - now rewrite app_nil_r.
  - cbn [forallb] in Hs. apply andb_true_iff in Hs. destruct Hs as [Hc Hs].
    cbn [app replaceFrom]. rewrite (Hm before c (s ++ rest) Hc).
    rewrite (IH rest (before ++ [c]) Hs), <- app_assoc. reflexivity.
Qed.

Lemma replaceFrom_step_none (m : matcher) before c t :
  m before (c :: t) = None ->
  replaceFrom m 0 before (c :: t) = c :: replaceFrom m 0 (before ++ [c]) t.
Proof. intros H. cbn [replaceFrom]. now rewrite H. Qed.

(** A match that covers the whole subject leaves its replacement. *)
Lemma replaceFrom_whole (m : matcher) before s r :
  s <> [] -> m before s = Some (length s, r) ->
  replaceFrom m 0 before s = r.
Proof.
  intros Hne Hm. destruct s as [|c t]; [contradiction|].
  cbn [replaceFrom]. rewrite Hm. cbn [length].
  pose proof (replaceFrom_skip m t (before ++ [c]) []) as H.
  rewrite app_nil_r in H. rewrite H. cbn [replaceFrom].
  apply app_nil_r.
Qed.

Lemma replaceFrom_keep_all (m : matcher) (P : N -> bool) :
  (forall b c t, P c = true -> m b (c :: t) = None) ->
  forall s before, forallb P s = true -> replaceFrom m 0 before s = s.
Proof.
  intros Hm s before Hs.
  pose proof (replaceFrom_keep m P Hm s [] before Hs) as H.
  cbn [replaceFrom] in H. now rewrite !app_nil_r in H.
Qed.

(** A pattern that matches no text of a kind closed under suffixes leaves
    such a text. *)
Lemma replaceFrom_plain (m : matcher) (P : N -> bool) :
  (forall b t, forallb P t = true -> m b t = None) ->
  forall s before, forallb P s = true -> replaceFrom m 0 before s = s.
Proof.
  intros Hm. induction s as [|c s IH]; intros before Hs; [reflexivity|].
  cbn [replaceFrom]. rewrite (Hm before (c :: s) Hs).
  cbn [forallb] in Hs. apply andb_true_iff in Hs. destruct Hs as [_ Hs].
  now rewrite (IH _ Hs).
Qed.

Lemma startsWith_refl p : startsWith p p = true.
Proof. induction p as [|x p IH]; cbn; [reflexivity|]. now rewrite N.eqb_refl. Qed.

Lemma startsWith_In p : forall t c,
  startsWith p t = true -> In c p -> In c t.
Proof.
  induction p as [|x p IH]; intros t c Hst Hin; [contradiction|].
  destruct t as [|y t]; [discriminate|]. cbn [startsWith] in Hst.
  apply andb_true_iff in Hst. destruct Hst as [Hxy Hst].
  apply N.eqb_eq in Hxy. subst y. destruct Hin as [->|Hin]; [now left|].
  right. now apply (IH t c).
Qed.

Lemma bareUrl_no_colon b t :
  forallb (fun c => negb (c =? 58)) t = true -> bareUrl b t = None.
Proof.
  intros Ht. unfold bareUrl.
  assert (Hno : ~ In 58 t).
  { rewrite forallb_forall in Ht. intros Hin. specialize (Ht _ Hin).
    now rewrite N.eqb_refl in Ht. }
  destruct (startsWith (u "https://") t) eqn:E1.
  { exfalso. apply Hno. apply (startsWith_In _ _ _ E1). cbn. auto 10. }
  destruct (startsWith (u "http://") t) eqn:E2; [|reflexivity].
  exfalso. apply Hno. apply (startsWith_In _ _ _ E2). cbn. auto 10.
Qed.

Lemma starred_no_star delim tag b c t :
  negb (c =? 42) = true -> starred (42 :: delim) tag b (c :: t) = None.
Proof.
  intros Hc. apply negb_true_iff in Hc. unfold starred.
  cbn [startsWith]. rewrite N.eqb_sym, Hc. reflexivity.
Qed.

Lemma starred2_single b tag c r :
  (c =? 42) = false -> starred [42; 42] tag b (42 :: c :: r) = None.
Proof.
  intros Hc. unfold starred. cbn [startsWith].
  now rewrite N.eqb_refl, N.eqb_sym, Hc.
Qed.

Lemma span_until (f : N -> bool) s c rest :
  forallb f s = true -> f c = false -> span f (s ++ c :: rest) = (s, c :: rest).
Proof.
  intros Hs Hc. induction s as [|x s IH].
  - cbn [app span]. now rewrite Hc.
  - cbn [forallb] in Hs. apply andb_true_iff in Hs. destruct Hs as [Hx Hs].
    cbn [app span]. now rewrite Hx, (IH Hs).
Qed.

Lemma span_all (f : N -> bool) s :
  forallb f s = true -> span f s = (s, []).
Proof.
  intros Hs. induction s as [|x s IH]; [reflexivity|].
  cbn [forallb] in Hs. apply andb_true_iff in Hs. destruct Hs as [Hx Hs].
  cbn [span]. now rewrite Hx, (IH Hs).
Qed.

Lemma forallb_weaken (P Q : N -> bool) s :
  (forall c, P c = true -> Q c = true) ->
  forallb P s = true -> forallb Q s = true.
Proof.
  intros H. rewrite !forallb_forall. intros Hs c Hc. apply H, Hs, Hc.
Qed.

(** A run between two delimiters becomes the tagged run. *)
Lemma starred_wraps delim tag t :
  forallb (fun c => negb (c =? 42)) t = true -> t <> [] ->
  forallb (N.eqb 42) delim = true ->
  replaceAll (starred (42 :: delim) tag)
             ((42 :: delim) ++ t ++ (42 :: delim))
  = u "<" ++ tag ++ u ">" ++ t ++ u "</" ++ tag ++ u ">".
Proof.
  intros Ht Hne Hd. unfold replaceAll.
  assert (Hdl : forall rest, startsWith (42 :: delim) ((42 :: delim) ++ rest)
                             = true) by (intros; apply startsWith_app).
  cbn [app replaceFrom]. unfold starred at 1.
  change (42 :: delim ++ t ++ 42 :: delim)
    with ((42 :: delim) ++ t ++ 42 :: delim).
  rewrite Hdl, skipn_app, skipn_all, Nat.sub_diag. cbn [skipn app].
  rewrite (span_until _ t 42 delim Ht eq_refl).
  destruct t as [|c t]; [contradiction|].
  rewrite startsWith_refl. cbn [length Nat.add].
  match goal with
  | |- context [replaceFrom _ ?k _ _] =>
    replace k with (length (delim ++ (c :: t) ++ 42 :: delim))
      by (rewrite !length_app; cbn [length]; lia)
  end.
  rewrite <- (app_nil_r (delim ++ (c :: t) ++ 42 :: delim)) at 2.
  rewrite replaceFrom_skip. cbn [replaceFrom]. rewrite app_nil_r.
  reflexivity.
Qed.

Lemma plainText_parts t :
  plainText t = true ->
  forallb (fun c => negb (isHtmlSpecial c)) t = true
  /\ forallb (fun c => negb (c =? 42)) t = true
  /\ forallb (fun c => negb (c =? 58)) t = true.
Proof.
  intros H.
  assert (Hall : forall c,
             negb (isHtmlSpecial c || (c =? 42) || (c =? 58)) = true ->
             negb (isHtmlSpecial c) = true /\ negb (c =? 42) = true
             /\ negb (c =? 58) = true).
  { intros c Hc. apply negb_true_iff in Hc.
    apply orb_false_iff in Hc. destruct Hc as [Hc H58].
    apply orb_false_iff in Hc. destruct Hc as [Hs H42].
    now rewrite Hs, H42, H58. }
  repeat split; refine (forallb_weaken _ _ t _ H); intros c Hc;
    apply Hall, Hc.
Qed.

Lemma escapeHtml_keep t :
  forallb (fun c => negb (isHtmlSpecial c)) t = true -> escapeHtml t = t.
Proof.
  rewrite escapeHtml_flat_map. induction t as [|c t IH]; [reflexivity|].
  cbn [forallb flat_map]. intros H. apply andb_true_iff in H.
  destruct H as [Hc Ht]. apply negb_true_iff in Hc. rewrite Hc.
  cbn [app]. f_equal. now apply IH.
Qed.

(** X11: on a text without markup the formatter does the three substitutions
    and nothing else: the text itself is kept, a text between double
    asterisks becomes strong, and a text between single asterisks becomes
    emphasised. *)
Theorem richText_emphasis (t : jsstring) :
  plainText t = true ->
  richText t = t
  /\ (t <> [] ->
      richText (u "**" ++ t ++ u "**")
      = u "<strong>" ++ t ++ u "</strong>"
      /\ richText (u "*" ++ t ++ u "*") = u "<em>" ++ t ++ u "</em>").
Proof.
  intros Hp. destruct (plainText_parts t Hp) as [Hsp [Hst Hco]].
  assert (Hbold : forall s before,
             forallb (fun c => negb (c =? 42)) s = true ->
             replaceFrom (starred (u "**") (u "strong")) 0 before s = s).
  { intros s before Hs.
    exact (replaceFrom_keep_all (starred (u "**") (u "strong")) _
             (fun b c t0 => starred_no_star [42] (u "strong") b c t0)
             s before Hs). }
  assert (Hem : forall s before,
             forallb (fun c => negb (c =? 42)) s = true ->
             replaceFrom (starred (u "*") (u "em")) 0 before s = s).
  { intros s before Hs.
    exact (replaceFrom_keep_all (starred (u "*") (u "em")) _
             (fun b c t0 => starred_no_star [] (u "em") b c t0)
             s before Hs). }
  assert (Hlink : forall s,
             forallb (fun c => negb (c =? 58)) s = true ->
             replaceAll bareUrl s = s)
    by (intros s Hs; apply (replaceFrom_plain bareUrl _ bareUrl_no_colon);
        exact Hs).
  split; [|intros Hne; split].
  - unfold richText. rewrite (escapeHtml_keep t Hsp), (Hlink t Hco).
    unfold replaceAll. now rewrite !Hbold, Hem.
  - unfold richText.
    rewrite escapeHtml_keep
      by (rewrite !forallb_app, Hsp; reflexivity).
    rewrite Hlink by (rewrite !forallb_app, Hco; reflexivity).
    change (u "**") with [42; 42].
    rewrite (starred_wraps [42] (u "strong") t Hst Hne eq_refl).
    unfold replaceAll. apply Hem.
    rewrite !forallb_app, Hst. reflexivity.
  - unfold richText.
    rewrite escapeHtml_keep
      by (rewrite !forallb_app, Hsp; reflexivity).
    rewrite Hlink by (rewrite !forallb_app, Hco; reflexivity).
    assert (Hkeep : replaceAll (starred (u "**") (u "strong"))
                               (u "*" ++ t ++ u "*")
                    = u "*" ++ t ++ u "*").
    { unfold replaceAll. destruct t as [|c t]; [contradiction|].
      change (u "*" ++ (c :: t) ++ u "*") with (42 :: c :: (t ++ [42])).
      change (u "**") with [42; 42].
      pose proof Hst as Hct.
      cbn [forallb] in Hct. apply andb_true_iff in Hct.
      destruct Hct as [Hc _]. apply negb_true_iff in Hc.
      rewrite (replaceFrom_step_none _ _ _ _
                 (starred2_single [] (u "strong") c (t ++ [42]) Hc)).
      f_equal.
      change (c :: t ++ [42]) with ((c :: t) ++ [42]).
      rewrite (replaceFrom_keep (starred [42; 42] (u "strong")) _
                 (fun b c0 t0 => starred_no_star [42] (u "strong") b c0 t0)
                 (c :: t) [42] _ Hst).
      reflexivity. }
    rewrite Hkeep.
    exact (starred_wraps [] (u "em") t Hst Hne eq_refl).
Qed.

(** X12: a bare http(s) locator becomes an anchor to itself. *)
Theorem richText_autolink (h : jsstring) :
  urlTail h = true -> h <> [] ->
  richText (u "http://" ++ h) = anchor (u "http://" ++ h)
  /\ richText (u "https://" ++ h) = anchor (u "https://" ++ h).
Proof.
  intros Hh Hne.
  assert (Hall : forall c,
             negb (isSpace c || (c =? 41) || isHtmlSpecial c || (c =? 42))
             = true ->
             negb (isHtmlSpecial c) = true /\ negb (c =? 42) = true
             /\ negb (isSpace c || (c =? 41)) = true).
  { intros c Hc. apply negb_true_iff in Hc.
    apply orb_false_iff in Hc. destruct Hc as [Hc H42].
    apply orb_false_iff in Hc. destruct Hc as [Hc Hs].
    now rewrite Hc, Hs, H42. }
  assert (Hsp : forallb (fun c => negb (isHtmlSpecial c)) h = true)
    by (refine (forallb_weaken _ _ h _ Hh); intros c Hc; apply Hall, Hc).
  assert (Hst : forallb (fun c => negb (c =? 42)) h = true)
    by (refine (forallb_weaken _ _ h _ Hh); intros c Hc; apply Hall, Hc).
  assert (Hrun : forallb (fun c => negb (isSpace c || (c =? 41))) h = true)
    by (refine (forallb_weaken _ _ h _ Hh); intros c Hc; apply Hall, Hc).
  assert (Hmarks : forall sch s before tag d,
             forallb (fun c => negb (c =? 42)) (anchor sch) = true ->
             s = anchor (sch ++ h) ->
             replaceFrom (starred (42 :: d) tag) 0 before s = s).
  { intros sch s before tag d Hsch ->.
    apply (replaceFrom_keep_all (starred (42 :: d) tag) _
             (fun b c t0 => starred_no_star d tag b c t0)).
    unfold anchor, q in *. rewrite !forallb_app in *. rewrite Hst.
    repeat match goal with
           | H : _ && _ = true |- _ => apply andb_true_iff in H; destruct H
           end.
    repeat (apply andb_true_iff; split); assumption || reflexivity. }
  assert (Hone : forall sch,
             (sch = u "http://" \/ sch = u "https://") ->
             richText (sch ++ h) = anchor (sch ++ h)).
  { intros sch Hsch. unfold richText.
    rewrite escapeHtml_keep
      by (rewrite forallb_app, Hsp; destruct Hsch as [->| ->]; reflexivity).
    assert (Hl : replaceAll bareUrl (sch ++ h) = anchor (sch ++ h)).
    { unfold replaceAll.
      assert (Hm : bareUrl [] (sch ++ h)
                   = Some (length (sch ++ h), anchor (sch ++ h))).
      { unfold bareUrl.
        destruct Hsch as [->| ->]; cbn [u map String.list_ascii_of_string
                                        app startsWith N_of_ascii];
          cbn -[span anchor isSpace];
          rewrite (span_all _ h Hrun);
          (destruct h as [|c h']; [contradiction|]); reflexivity. }
      apply replaceFrom_whole; [|exact Hm].
      destruct Hsch as [->| ->]; discriminate. }
    rewrite Hl. unfold replaceAll.
    rewrite (Hmarks sch _ _ (u "strong") [42])
      by (destruct Hsch as [->| ->]; reflexivity).
    apply (Hmarks sch _ _ (u "em") []);
      destruct Hsch as [->| ->]; reflexivity. }
  split; apply Hone; auto.
Qed.

End RichTextFacts.

(** ** The shape of a resolved local reference *)

Section LocalShapeFacts.

Lemma hexDigit_unreserved n : n < 16 -> uriUnreserved (hexDigit n) = true.
Proof.
  intros Hn.
  exact (N_below_forallb 16 (fun m => uriUnreserved (hexDigit m))
                         eq_refl n Hn).
Qed.

Lemma pct_safe octets :
  Forall (fun b => b < 256) octets ->
  forallb (fun c => uriUnreserved c || (c =? 37)) (pct octets) = true.
Proof.
  induction 1 as [|b l Hb Hl IH]; [reflexivity|].
  unfold pct in *. cbn [flat_map app forallb].
  rewrite !hexDigit_unreserved by lia. rewrite IH. reflexivity.
Qed.

Lemma utf8_octets cp :
  cp <= 1114111 -> Forall (fun b => b < 256) (utf8 cp).
Proof.
  intros H. unfold utf8.
  destruct (cp <? 128) eqn:E1; unbool; [repeat constructor; lia|].
  destruct (cp <? 2048) eqn:E2; unbool; [repeat constructor; lia|].
  destruct (cp <? 65536) eqn:E3; unbool; repeat constructor; lia.
Qed.

(** What [encodeURIComponent] returns holds unreserved units and percent
    signs only. *)
Lemma encode_safe_bounded (n : nat) :
  forall s r, (length s <= n)%nat -> wellFormed s = true ->
  encodeURIComponent s = Ok r ->
  forallb (fun c => uriUnreserved c || (c =? 37)) r = true.
Proof.
  induction n as [|n IH]; intros s r Hlen Hwf He.
  { destruct s; [|cbn in Hlen; lia]. cbn in He. now injection He as <-. }
  destruct s as [|c t]; [cbn in He; now injection He as <-|].
  cbn [length] in Hlen. cbn [encodeURIComponent] in He.
  cbn [wellFormed] in Hwf.
  destruct (uriUnreserved c) eqn:U.
  - assert (HL : isLead c = false).
    { destruct (unreserved_ascii c U) as [Hc _].
      unfold isLead. apply andb_false_iff. left. rebool. lia. }
    rewrite HL in Hwf. unbool.
    destruct (encodeURIComponent t) as [r'|] eqn:E; [|discriminate].
    cbn [bind] in He. injection He as <-. cbn [forallb]. rewrite U.
    cbn [orb andb]. apply (IH t r'); [lia | assumption | assumption].
  - destruct (isLead c) eqn:HL.
    + destruct t as [|d t']; [discriminate|]. unbool.
      match goal with H : isTrail d = true |- _ => rename H into HT end.
      rewrite HT in He. cbn [length] in Hlen.
      destruct (encodeURIComponent t') as [r'|] eqn:E; [|discriminate].
      cbn [bind] in He. injection He as <-.
      rewrite forallb_app, pct_safe.
      * apply (IH t' r'); [lia | assumption | assumption].
      * apply utf8_octets. apply (utf16_codePoint c d HL HT).
    + unbool. match goal with H : isTrail c = false |- _ => rename H into HT end.
      rewrite HT in He.
      destruct (encodeURIComponent t) as [r'|] eqn:E; [|discriminate].
      cbn [bind] in He. injection He as <-.
      rewrite forallb_app, pct_safe.
      * apply (IH t r'); [lia | assumption | assumption].
      * apply utf8_octets. lia.
Qed.

Lemma forallb_join (P : N -> bool) sep (l : list jsstring) :
  forallb P sep = true -> Forall (fun x => forallb P x = true) l ->
  forallb P (join sep l) = true.
Proof.
  intros Hsep Hl. induction Hl as [|x l Hx Hl IH]; [reflexivity|].
  destruct l as [|y l]; [exact Hx|].
  rewrite join_cons2, !forallb_app, Hx, Hsep. exact IH.
Qed.

(** X13: the encoded form of a local path holds nothing but unreserved units,
    percent signs and separators: no space, no quote but the apostrophe,
    no angle bracket, no hash and no question mark. *)
Theorem encodeLocalPath_safe (p : jsstring) :
  wellFormed p = true ->
  exists e, encodeLocalPath p = Ok e /\ forallb pathSafe e = true.
Proof.
  intros Hwf. unfold encodeLocalPath.
  assert (H : forall l,
             Forall (fun seg => wellFormed seg = true) l ->
             exists segs, mapM encodeSegment l = Ok segs
                          /\ Forall (fun x => forallb pathSafe x = true) segs).
  { induction 1 as [|seg l Hseg Hl IH]; [exists []; now split|].
    destruct IH as [segs [Hm Hs]].
    destruct (encodeSegment_decode seg Hseg) as [r [Hr _]].
    exists (r :: segs). cbn [mapM]. rewrite Hr, Hm. split; [reflexivity|].
    constructor; [|assumption].
    assert (Hsafe : forallb (fun c => uriUnreserved c || (c =? 37)) r = true).
    { destruct seg as [|c t]; [cbn in Hr; now injection Hr as <-|].
      apply (encode_safe_bounded (length (c :: t)) (c :: t) r);
        [lia | assumption | exact Hr]. }
    refine (forallb_weaken _ _ r _ Hsafe). intros c Hc.
    unfold pathSafe. now rewrite Hc. }
  destruct (H _ (wellFormed_split p Hwf)) as [segs [Hm Hs]].
  rewrite Hm. cbn [bind]. eexists. split; [reflexivity|].
  apply forallb_join; [reflexivity | assumption].
Qed.

Lemma dropLeadingSlashes_head s c t :
  dropLeadingSlashes s = c :: t -> c <> slash.
Proof.
  induction s as [|x s IH]; [discriminate|].
  cbn [dropLeadingSlashes]. destruct (x =? slash) eqn:E; [exact IH|].
  intros H. injection H as <- _. now apply N.eqb_neq.
Qed.

Lemma encode_head c t r :
  encodeURIComponent (c :: t) = Ok r ->
  exists x r', r = x :: r' /\ x <> slash.
Proof.
  cbn [encodeURIComponent].
  assert (Hpct : forall cp rest, exists x r',
               pct (utf8 cp) ++ rest = x :: r' /\ x <> slash).
  { intros cp rest. unfold utf8.
    destruct (cp <? 128); [|destruct (cp <? 2048); [|destruct (cp <? 65536)]];
      cbn [pct flat_map app]; eexists; eexists; (split; [reflexivity|]);
      discriminate. }
  destruct (uriUnreserved c) eqn:U.
  - destruct (encodeURIComponent t) as [r'|]; [|discriminate].
    cbn [bind]. intros H. injection H as <-. exists c, r'.
    split; [reflexivity|]. apply (unreserved_ascii c U).
  - destruct (isLead c).
    + destruct t as [|d t']; [discriminate|].
      destruct (isTrail d); [|discriminate].
      destruct (encodeURIComponent t') as [r'|]; [|discriminate].
      cbn [bind]. intros H. injection H as <-. apply Hpct.
    + destruct (isTrail c); [discriminate|].
      destruct (encodeURIComponent t) as [r'|]; [|discriminate].
      cbn [bind]. intros H. injection H as <-. apply Hpct.
Qed.

Lemma normalizeBase_one_slash b :
  endsWith (u "//") b = false -> endsWith (u "//") (normalizeBase b) = false.
Proof.
  intros Hb. destruct b as [|c t]; [reflexivity|]. unfold normalizeBase.
  destruct (endsWith (u "/") (c :: t)) eqn:E; cbn [negb]; [exact Hb|].
  unfold endsWith in *. rewrite rev_app_distr.
  set (X := rev (c :: t)) in *.
  change (startsWith (rev (u "//")) (rev (u "/") ++ X))
    with ((slash =? slash) && startsWith (rev (u "/")) X).
  now rewrite E.
Qed.

(** X14: a local reference resolves to the base path followed by the encoded
    form of the reference without its leading slashes.  The base path ends
    with a slash and the encoded path does not start with one, however
    many the reference started with; the base path ends with one slash
    only, unless [SITE_BASE] itself ends with two. *)
Theorem makeSrc_local_join
        (SITE_BASE p : option jsstring) (page : Page) (ctx : Route)
        (r : jsstring) :
  isHttp (dropLeadingSlashes (expandTemplatePath p page ctx)) = false ->
  makeSrc SITE_BASE p page ctx = Ok r ->
  exists e,
    encodeLocalPath (dropLeadingSlashes (expandTemplatePath p page ctx))
    = Ok e
    /\ r = BASE SITE_BASE ++ e
    /\ endsWith (u "/") (BASE SITE_BASE) = true
    /\ startsWith (u "/") e = false
    /\ (endsWith (u "//") (orElse SITE_BASE (u "/")) = false ->
        endsWith (u "//") (BASE SITE_BASE) = false).
Proof.
  intros Hlocal Hr. unfold makeSrc in Hr. rewrite Hlocal in Hr.
  destruct (encodeLocalPath _) as [e|] eqn:E; [|discriminate].
  cbn [bind] in Hr. injection Hr as <-. exists e.
  split; [reflexivity|]. split; [reflexivity|].
  split; [apply normalizeBase_ends|].
  match goal with
  | |- ?A /\ ?B => cut A; [intros HA; split;
                            [exact HA | apply normalizeBase_one_slash]|]
  end.
  unfold encodeLocalPath in E.
  destruct (dropLeadingSlashes (expandTemplatePath p page ctx))
    as [|c t] eqn:Ed.
  { cbn in E. now injection E as <-. }
  pose proof (dropLeadingSlashes_head _ _ _ Ed) as Hc.
  cbn [split] in E. apply N.eqb_neq in Hc. rewrite Hc in E.
  pose proof (split_not_nil slash t) as Hne.
  destruct (split slash t) as [|seg segs]; [contradiction|].
  cbn [mapM encodeSegment] in E.
  destruct (encodeURIComponent (c :: seg)) as [r1|] eqn:E1; [|discriminate].
  cbn [bind] in E.
  destruct (mapM encodeSegment segs) as [rs|]; [|discriminate].
  cbn [bind] in E. injection E as <-.
  destruct (encode_head _ _ _ E1) as [x [r' [-> Hx]]].
  apply N.eqb_neq in Hx.
  destruct rs; cbn [join app u map String.list_ascii_of_string startsWith];
    change (N_of_ascii "/") with slash; now rewrite N.eqb_sym, Hx.
Qed.

End LocalShapeFacts.

(** ** Routes *)

Section RouteFacts.

Ltac break_in H :=
  match type of H with
  | context [match ?x with _ => _ end] => destruct x eqn:?
  end.

(** Decoding fails in one way only. *)
Lemma decode_throws_bounded (n : nat) :
  forall s e, (length s <= n)%nat ->
  decodeURIComponent s = Throw e -> e = URIError.
Proof.
  induction n as [|n IH]; intros s e Hlen H.
  { destruct s; [discriminate | cbn in Hlen; lia]. }
  destruct s as [|c t]; [discriminate|].
  cbn [decodeURIComponent] in H. unfold emit, bind in H.
  cbn [length] in Hlen.
  repeat (break_in H; cbn [length] in Hlen;
          try discriminate; try (now injection H as <-));
    match goal with
    | E : decodeURIComponent ?x = Throw ?e0 |- _ =>
      injection H as <-; apply (IH x e0); [cbn [length]; lia | exact E]
    end.
Qed.

Lemma decode_throws s e : decodeURIComponent s = Throw e -> e = URIError.
Proof. apply (decode_throws_bounded (length s)). lia. Qed.

Lemma pctOctet_Some p x y b :
  pctOctet p x y = Some b ->
  p = 37 /\ (x =? 37) = false /\ (y =? 37) = false
  /\ forall t, hexPair (x :: y :: t) = true.
Proof.
  unfold pctOctet. destruct (p =? 37) eqn:Ep; [|discriminate].
  apply N.eqb_eq in Ep.
  destruct (hexVal x) as [h|] eqn:Hx; [|discriminate].
  destruct (hexVal y) as [l|] eqn:Hy; [|discriminate].
  intros _. split; [exact Ep|].
  assert (Hno : forall z v, hexVal z = Some v -> (z =? 37) = false).
  { intros z v Hz. destruct (z =? 37) eqn:E; [|reflexivity].
    apply N.eqb_eq in E. subst z. discriminate. }
  split; [exact (Hno x h Hx)|]. split; [exact (Hno y l Hy)|].
  intros t. cbn [hexPair]. now rewrite Hx, Hy.
Qed.

Lemma percentsOk_escape p x y t b :
  pctOctet p x y = Some b ->
  percentsOk (p :: x :: y :: t) = percentsOk t.
Proof.
  intros H. destruct (pctOctet_Some p x y b H) as [-> [Hx [Hy Hp]]].
  cbn [percentsOk]. rewrite Hx, Hy, N.eqb_refl, (Hp t). reflexivity.
Qed.

(** What can be decoded holds no percent sign outside an escape. *)
Lemma decode_percents_bounded (n : nat) :
  forall s r, (length s <= n)%nat ->
  decodeURIComponent s = Ok r -> percentsOk s = true.
Proof.
  induction n as [|n IH]; intros s r Hlen H.
  { destruct s; [reflexivity | cbn in Hlen; lia]. }
  destruct s as [|c t]; [reflexivity|].
  cbn [decodeURIComponent] in H. unfold emit, bind in H.
  cbn [length] in Hlen.
  destruct (c =? 37) eqn:Ec; cbn [negb] in H.
  - repeat (break_in H; cbn [length] in Hlen; try discriminate);
      repeat (erewrite percentsOk_escape by eassumption);
      match goal with
      | E : decodeURIComponent ?x = Ok ?r0 |- _ =>
        apply (IH x r0); [cbn [length]; lia | exact E]
      end.
  - destruct (decodeURIComponent t) as [r'|] eqn:E; [|discriminate].
    cbn [percentsOk]. rewrite Ec. apply (IH t r'); [lia | exact E].
Qed.

Lemma percentsOk_stray pre rest :
  percentsOk (pre ++ 37 :: rest) = true -> hexPair rest = true.
Proof.
  induction pre as [|c pre IH]; cbn [app percentsOk]; intros H;
    apply andb_true_iff in H; destruct H as [H1 H2].
  - exact H1.
  - exact (IH H2).
Qed.

(** A percent sign that two hexadecimal digits do not follow makes the
    text undecodable, wherever it stands. *)
Lemma decode_stray_percent pre rest :
  hexPair rest = false ->
  decodeURIComponent (pre ++ 37 :: rest) = Throw URIError.
Proof.
  intros Hrest.
  destruct (decodeURIComponent (pre ++ 37 :: rest)) as [r|e] eqn:E.
  - apply (decode_percents_bounded (length (pre ++ 37 :: rest))) in E;
      [|lia].
    apply percentsOk_stray in E. congruence.
  - now rewrite (decode_throws _ _ E).
Qed.

(** X15: the query parameters are decoded a second time, after
    [URLSearchParams] has decoded them: when the decoded value of the class
    or of the identifier holds, anywhere, a percent sign that two
    hexadecimal digits do not follow, [parseRoute] throws a URIError,
    whatever the rest of the location. *)
Theorem parseRoute_stray_percent
        (SITE_BASE : option jsstring) (CLASSES : list jsstring)
        (loc : Location) (pre rest : jsstring) :
  truthy (search_class loc) = true ->
  truthy (search_id loc) = true ->
  search_class loc = Some (pre ++ 37 :: rest)
  \/ search_id loc = Some (pre ++ 37 :: rest) ->
  hexPair rest = false ->
  parseRoute SITE_BASE CLASSES loc = Throw URIError.
Proof.
  intros Hc Hi Hstray Hrest. unfold parseRoute. rewrite Hc, Hi.
  cbn [andb].
  destruct (decodeURIComponent (orElse (search_class loc) [])) as [c|e] eqn:E.
  - cbn [bind]. destruct Hstray as [Hs|Hs].
    + rewrite Hs, orElse_Some_nil, decode_stray_percent in E by assumption.
      discriminate.
    + rewrite Hs, orElse_Some_nil.
      now rewrite decode_stray_percent.
  - cbn [bind]. now rewrite (decode_throws _ _ E).
Qed.

Lemma leading_slashes s :
  exists a, s = a ++ dropLeadingSlashes s
            /\ forallb (N.eqb slash) a = true.
Proof.
  induction s as [|c t [a [Ha Hs]]]; [exists []; now split|].
  cbn [dropLeadingSlashes]. destruct (c =? slash) eqn:E.
  - exists (c :: a). cbn [app forallb]. rewrite N.eqb_sym, E, Hs.
    split; [now f_equal | reflexivity].
  - exists []. now split.
Qed.

Lemma edgeSlashes_inner :
  forall s before, before <> [] ->
  replaceFrom edgeSlashes 0 before s = dropTrailingSlashes s.
Proof.
  induction s as [|c t IH]; intros before Hb; [reflexivity|].
  assert (Hb' : before ++ [c] <> []) by (destruct before; discriminate).
  cbn [replaceFrom dropTrailingSlashes].
  unfold edgeSlashes at 1.
  destruct (c =? slash) eqn:E.
  - destruct before as [|b0 before']; [contradiction|].
    destruct (forallb (N.eqb slash) (c :: t)) eqn:F.
    + cbn [length app].
      rewrite <- (app_nil_r t) at 2. rewrite replaceFrom_skip. reflexivity.
    + now rewrite IH.
  - assert (F : forallb (N.eqb slash) (c :: t) = false).
    { cbn [forallb]. now rewrite N.eqb_sym, E. }
    rewrite F. now rewrite IH.
Qed.

(** The pattern with both alternatives removes the leading separators and
    the trailing ones, and nothing else. *)
Lemma edgeSlashes_trims s :
  replaceAll edgeSlashes s = dropTrailingSlashes (dropLeadingSlashes s).
Proof.
  unfold replaceAll. destruct s as [|c t]; [reflexivity|].
  cbn [replaceFrom]. unfold edgeSlashes at 1.
  destruct (c =? slash) eqn:E.
  - destruct (leading_slashes t) as [a [Ha Hs]].
    cbn [dropLeadingSlashes]. rewrite E.
    assert (Hlen : (length (c :: t) - length (dropLeadingSlashes t))%nat
                   = S (length a)).
    { rewrite Ha at 1. cbn [length]. rewrite length_app. lia. }
    rewrite Hlen. cbn [app]. rewrite Ha at 1.
    rewrite replaceFrom_skip. apply edgeSlashes_inner. discriminate.
  - cbn [dropLeadingSlashes]. rewrite E. cbn [dropTrailingSlashes].
    assert (F : forallb (N.eqb slash) (c :: t) = false).
    { cbn [forallb]. now rewrite N.eqb_sym, E. }
    rewrite F. cbn [app]. now rewrite edgeSlashes_inner.
Qed.

Lemma dropTrailingSlashes_head s c t :
  dropTrailingSlashes s = c :: t -> exists t', s = c :: t'.
Proof.
  destruct s as [|x s]; [discriminate|]. cbn [dropTrailingSlashes].
  destruct (forallb (N.eqb slash) (x :: s)); [discriminate|].
  intros H. injection H as <- _. now exists s.
Qed.

Lemma dropTrailingSlashes_nil s :
  dropTrailingSlashes s = [] -> forallb (N.eqb slash) s = true.
Proof.
  destruct s as [|x s]; [reflexivity|]. cbn [dropTrailingSlashes].
  destruct (forallb (N.eqb slash) (x :: s)); [reflexivity | discriminate].
Qed.

Lemma dropTrailingSlashes_last s :
  forall y, dropTrailingSlashes s <> y ++ [slash].
Proof.
  induction s as [|c t IH]; intros y H.
  { destruct y; discriminate. }
  cbn [dropTrailingSlashes] in H.
  destruct (forallb (N.eqb slash) (c :: t)) eqn:F.
  { destruct y; discriminate. }
  destruct y as [|y0 y].
  - cbn [app] in H. injection H as -> Ht.
    apply dropTrailingSlashes_nil in Ht. cbn [forallb] in F.
    rewrite Ht, N.eqb_refl in F. discriminate.
  - cbn [app] in H. injection H as _ Ht. exact (IH y Ht).
Qed.

(** X16: a route read from the path is whole or absent: [parseRoute] gives
    either the null route or a class and an identifier that are both
    non-empty, so that [boot] goes on to load the page. *)
Theorem path_route_whole_or_null
        (SITE_BASE : option jsstring) (CLASSES : list jsstring)
        (loc : Location) (r : Route) :
  truthy (search_class loc) && truthy (search_id loc) = false ->
  parseRoute SITE_BASE CLASSES loc = Ok r ->
  r = nullRoute
  \/ (exists c i, r = {| cls := Some c; id := Some i |}
                  /\ c <> [] /\ i <> [] /\ missingRoute r = false).
Proof.
  intros Hq Hr. unfold parseRoute in Hr. rewrite Hq in Hr.
  destruct (decodeURIComponent (pathname loc)) as [path|e];
    [|discriminate].
  cbn [bind] in Hr. rewrite edgeSlashes_trims in Hr.
  match type of Hr with
  | context [split slash ?x] =>
    remember x as trimmed eqn:Htr;
    pose proof (join_split trimmed) as Hj;
    destruct (split slash trimmed) as [|c rest] eqn:Hs
  end.
  { cbn in Hr. injection Hr as <-. now left. }
  destruct (2 <=? length (c :: rest))%nat eqn:Hlen.
  2:{ injection Hr as <-. now left. }
  assert (Hwhole : c <> [] /\ join (u "/") rest <> []).
  { destruct rest as [|r0 rest]; [discriminate|].
    change (u "/") with [slash] in *. rewrite join_cons2 in Hj.
    split.
    - intros ->. cbn [app] in Hj. symmetry in Hj. rewrite Htr in Hj.
      destruct (dropTrailingSlashes_head _ _ _ Hj) as [t' Ht'].
      now apply dropLeadingSlashes_head in Ht'.
    - intros Hnil. rewrite Hnil, app_nil_r in Hj. symmetry in Hj.
      rewrite Htr in Hj. exact (dropTrailingSlashes_last _ _ Hj). }
  destruct Hwhole as [Hc Hi].
  destruct (negb (Nat.eqb (length CLASSES) 0)
            && negb (existsb (eqb c) CLASSES)).
  - injection Hr as <-. now left.
  - injection Hr as <-. right. exists c, (join (u "/") rest).
    split; [reflexivity|]. split; [assumption|]. split; [assumption|].
    unfold missingRoute. cbn [cls id].
    destruct c; [contradiction|].
    destruct (join (u "/") rest); [contradiction | reflexivity].
Qed.

Lemma skipn_exact (a b : jsstring) : skipn (length a) (a ++ b) = b.
Proof. induction a as [|c a IH]; [reflexivity | exact IH]. Qed.

Lemma dropTrailingSlashes_slashes tl :
  forallb (N.eqb slash) tl = true -> dropTrailingSlashes tl = [].
Proof.
  intros H. destruct tl as [|c t]; [reflexivity|].
  cbn [dropTrailingSlashes]. now rewrite H.
Qed.

Lemma dropTrailingSlashes_app a x tl :
  x <> slash -> forallb (N.eqb slash) tl = true ->
  dropTrailingSlashes (a ++ x :: tl) = a ++ [x].
Proof.
  intros Hx Htl.
  assert (Hno : forall b, forallb (N.eqb slash) (b ++ x :: tl) = false).
  { intros b. rewrite forallb_app. cbn [forallb].
    apply N.eqb_neq in Hx. rewrite N.eqb_sym, Hx.
    now rewrite andb_false_r. }
  induction a as [|c a IH].
  - pose proof (Hno []) as H0. cbn [app] in H0.
    cbn [app dropTrailingSlashes]. rewrite H0.
    now rewrite (dropTrailingSlashes_slashes tl Htl).
  - pose proof (Hno (c :: a)) as H0. cbn [app] in H0.
    cbn [app dropTrailingSlashes]. rewrite H0. now rewrite IH.
Qed.

Lemma dropTrailingSlashes_name nm tl :
  noSlash nm = true -> forallb (N.eqb slash) tl = true ->
  dropTrailingSlashes (nm ++ tl) = nm.
Proof.
  intros Hnm Htl. induction nm as [|c nm IH].
  - now apply dropTrailingSlashes_slashes.
  - unfold noSlash in Hnm. cbn [forallb] in Hnm.
    apply andb_true_iff in Hnm. destruct Hnm as [Hc Hnm].
    apply negb_true_iff in Hc.
    cbn [app dropTrailingSlashes forallb]. rewrite N.eqb_sym, Hc.
    cbn [andb]. now rewrite (IH Hnm).
Qed.

Lemma dropLeadingSlashes_slashes tl rest :
  forallb (N.eqb slash) tl = true ->
  dropLeadingSlashes (tl ++ rest) = dropLeadingSlashes rest.
Proof.
  induction tl as [|c tl IH]; [reflexivity|]. cbn [forallb app].
  intros H. apply andb_true_iff in H. destruct H as [Hc Htl].
  cbn [dropLeadingSlashes]. rewrite N.eqb_sym, Hc. exact (IH Htl).
Qed.

(** The path branch of [parseRoute], on a path given from the base path
    on. *)
Lemma parseRoute_relative SITE_BASE CLASSES loc rel :
  truthy (search_class loc) && truthy (search_id loc) = false ->
  decodeURIComponent (pathname loc) = Ok (BASE SITE_BASE ++ rel) ->
  parseRoute SITE_BASE CLASSES loc
  = match split slash (dropTrailingSlashes (dropLeadingSlashes rel)) with
    | c :: d :: rest =>
      if negb (Nat.eqb (length CLASSES) 0) && negb (existsb (eqb c) CLASSES)
      then Ok nullRoute
      else Ok {| cls := Some c; id := Some (join (u "/") (d :: rest)) |}
    | _ => Ok nullRoute
    end.
Proof.
  intros Hq Hp. unfold parseRoute. rewrite Hq, Hp. cbn [bind]. cbv zeta.
  rewrite edgeSlashes_trims.
  match goal with
  | |- context [dropLeadingSlashes ?x] =>
    assert (Htrim : dropLeadingSlashes x = dropLeadingSlashes rel)
  end.
  { rewrite startsWith_app, andb_true_r, skipn_exact.
    destruct (eqb (BASE SITE_BASE) (u "/")) eqn:E; cbn [negb];
      [|reflexivity].
    apply eqb_eq in E. rewrite E.
    apply (dropLeadingSlashes_slashes (u "/") rel eq_refl). }
  rewrite Htrim.
  destruct (split slash (dropTrailingSlashes (dropLeadingSlashes rel)))
    as [|c [|d rest]]; reflexivity.
Qed.

Lemma existsb_eqb_iff (c : jsstring) (l : list jsstring) :
  existsb (eqb c) l = true <-> In c l.
Proof.
  split; [apply existsb_eqb_In|]. intros Hin. apply existsb_exists.
  exists c. split; [exact Hin | apply eqb_refl].
Qed.

(** C2, as amended: without the two query parameters the route is read
    from the decoded path.  When the path is the base path followed by
    [<class>/<id>] (and by slashes, which are dropped), the route is
    [<class>], [<id>] if no allow-list is configured or the class belongs
    to it, and the null route, for which [boot] shows the missing-route
    card, if a non-empty allow-list does not hold the class; a path with a
    single name after the base path gives the null route; a path that
    cannot be decoded makes [parseRoute] throw a URIError.  With the two
    query parameters the route is their decoded values, whatever the
    allow-list. *)
Theorem C2_path_route_allow_list
        (SITE_BASE : option jsstring) (CLASSES : list jsstring)
        (loc : Location) :
  (truthy (search_class loc) && truthy (search_id loc) = false ->
   (forall e, decodeURIComponent (pathname loc) = Throw e ->
              parseRoute SITE_BASE CLASSES loc = Throw URIError)
   /\ (forall c i x tl,
         decodeURIComponent (pathname loc)
         = Ok (BASE SITE_BASE ++ c ++ u "/" ++ i ++ x :: tl) ->
         c <> [] -> noSlash c = true -> x <> slash ->
         forallb (N.eqb slash) tl = true ->
         (CLASSES = [] \/ In c CLASSES ->
          parseRoute SITE_BASE CLASSES loc
          = Ok {| cls := Some c; id := Some (i ++ [x]) |})
         /\ (CLASSES <> [] -> ~ In c CLASSES ->
             parseRoute SITE_BASE CLASSES loc = Ok nullRoute))
   /\ (forall nm tl,
         decodeURIComponent (pathname loc) = Ok (BASE SITE_BASE ++ nm ++ tl) ->
         noSlash nm = true -> forallb (N.eqb slash) tl = true ->
         parseRoute SITE_BASE CLASSES loc = Ok nullRoute))
  /\ missingRoute nullRoute = true
  /\ (truthy (search_class loc) && truthy (search_id loc) = true ->
      forall c i,
        decodeURIComponent (orElse (search_class loc) []) = Ok c ->
        decodeURIComponent (orElse (search_id loc) []) = Ok i ->
        parseRoute SITE_BASE CLASSES loc
        = Ok {| cls := Some c; id := Some i |}).
Proof.
  split; [|split; [reflexivity|]].
  - intros Hq. split; [|split].
    + intros e He. unfold parseRoute. rewrite Hq, He. cbn [bind].
      now rewrite (decode_throws _ _ He).
    + intros c i x tl Hp Hc Hns Hx Htl.
      rewrite (parseRoute_relative SITE_BASE CLASSES loc _ Hq Hp).
      assert (Hlead : dropLeadingSlashes (c ++ u "/" ++ i ++ x :: tl)
                      = c ++ u "/" ++ i ++ x :: tl).
      { destruct c as [|c0 c']; [contradiction|].
        unfold noSlash in Hns. cbn [forallb] in Hns.
        apply andb_true_iff in Hns. destruct Hns as [H0 _].
        apply negb_true_iff in H0. cbn [app dropLeadingSlashes].
        now rewrite H0. }
      rewrite Hlead.
      replace (c ++ u "/" ++ i ++ x :: tl)
        with ((c ++ u "/" ++ i) ++ x :: tl)
        by (now rewrite <- !app_assoc).
      rewrite (dropTrailingSlashes_app _ x tl Hx Htl).
      replace ((c ++ u "/" ++ i) ++ [x]) with (c ++ slash :: (i ++ [x]))
        by (change (u "/") with [slash]; rewrite <- !app_assoc; reflexivity).
      rewrite (split_app_sep c (i ++ [x]) (noSlash_not_In c Hns)).
      pose proof (join_split (i ++ [x])) as Hj.
      pose proof (split_not_nil slash (i ++ [x])) as Hne.
      destruct (split slash (i ++ [x])) as [|seg segs]; [contradiction|].
      change (u "/") with [slash]. rewrite Hj.
      split.
      * intros [->|Hin]; [reflexivity|].
        apply existsb_eqb_iff in Hin. rewrite Hin. cbn [negb].
        now rewrite andb_false_r.
      * intros Hne' Hnot.
        destruct CLASSES as [|c0 cs]; [contradiction|].
        destruct (existsb (eqb c) (c0 :: cs)) eqn:E;
          [apply existsb_eqb_iff in E; contradiction | reflexivity].
    + intros nm tl Hp Hnm Htl.
      rewrite (parseRoute_relative SITE_BASE CLASSES loc _ Hq Hp).
      assert (Hparts : split slash
                         (dropTrailingSlashes (dropLeadingSlashes (nm ++ tl)))
                       = [nm]).
      { destruct nm as [|c0 nm'].
        - cbn [app]. rewrite <- (app_nil_r tl).
          rewrite (dropLeadingSlashes_slashes tl [] Htl). reflexivity.
        - assert (Hl : dropLeadingSlashes ((c0 :: nm') ++ tl)
                       = (c0 :: nm') ++ tl).
          { pose proof Hnm as Hnm'. unfold noSlash in Hnm'.
            cbn [forallb] in Hnm'. apply andb_true_iff in Hnm'.
            destruct Hnm' as [H0 _]. apply negb_true_iff in H0.
            cbn [app dropLeadingSlashes]. now rewrite H0. }
          rewrite Hl, (dropTrailingSlashes_name _ tl Hnm Htl).
          apply split_no_sep. now apply noSlash_not_In. }
      now rewrite Hparts.
  - intros Hq c i Hc Hi. unfold parseRoute. rewrite Hq, Hc. cbn [bind].
    now rewrite Hi.
Qed.

End RouteFacts.

(** ** Common video links *)

Section VideoLinkFacts.

Lemma includes_mid p pre rest : includes p (pre ++ p ++ rest) = true.
Proof.
  induction pre as [|c pre IH].
  - destruct (p ++ rest) eqn:E; cbn [app includes]; rewrite <- E;
      now rewrite startsWith_app.
  - cbn [app includes]. rewrite IH. apply orb_true_r.
Qed.

Lemma firstn_exact (i post : jsstring) :
  firstn (length i) (i ++ post) = i.
Proof. induction i as [|c i IH]; [now destruct post | cbn; now rewrite IH]. Qed.

Lemma videoIdAt_query i post :
  length i = 11%nat -> forallb isIdUnit i = true ->
  videoIdAt (118 :: 61 :: i ++ post) = Some i.
Proof.
  intros Hlen Hid. unfold videoIdAt. cbv zeta.
  change (startsWith (u "v=") (118 :: 61 :: i ++ post)) with true.
  cbn [skipn].
  assert (Hf : firstn 11 (i ++ post) = i)
    by (rewrite <- Hlen; apply firstn_exact).
  now rewrite Hf, Hlen, Hid.
Qed.

Lemma videoIdAt_path i post :
  length i = 11%nat -> forallb isIdUnit i = true ->
  videoIdAt (47 :: i ++ post) = Some i.
Proof.
  intros Hlen Hid. unfold videoIdAt.
  change (startsWith (u "v=") (47 :: i ++ post)) with false.
  change (startsWith (u "/") (47 :: i ++ post)) with true.
  cbv zeta. cbn [skipn].
  assert (Hf : firstn 11 (i ++ post) = i)
    by (rewrite <- Hlen; apply firstn_exact).
  now rewrite Hf, Hlen, Hid.
Qed.

Lemma videoId_skip c s :
  videoIdAt (c :: s) = None -> videoId (c :: s) = videoId s.
Proof. intros H. cbn [videoId]. now rewrite H. Qed.

Lemma videoId_hit s i : videoIdAt s = Some i -> videoId s = Some i.
Proof. intros H. destruct s; cbn [videoId]; now rewrite H. Qed.

Ltac literal_prefix :=
  repeat match goal with
         | |- context [u ?s] =>
           let x := eval vm_compute in (u s) in change (u s) with x
         end;
  cbn [app].

Ltac pass_prefix :=
  repeat (rewrite videoId_skip by (vm_compute; reflexivity)).

(** X17: the usual links to a hosted video give the canonical embed locator
    with their own identifier: the watch page with the identifier in its
    query, the short link and the embed link itself, whatever follows the
    identifier.  Nothing in the host part is taken for an identifier. *)
Theorem toVideoEmbed_common_links (i post : jsstring) :
  length i = 11%nat -> forallb isIdUnit i = true ->
  let canonical := hostedFrame (u "https://www.youtube.com/embed/" ++ i) in
  toVideoEmbed (u "https://www.youtube.com/watch?v=" ++ i ++ post)
  = canonical
  /\ toVideoEmbed (u "https://youtu.be/" ++ i ++ post) = canonical
  /\ toVideoEmbed (u "https://www.youtube.com/embed/" ++ i ++ post)
     = canonical.
Proof.
  intros Hlen Hid canonical.
  pose proof (videoIdAt_query i post Hlen Hid) as Hq.
  pose proof (videoIdAt_path i post Hlen Hid) as Hp.
  assert (H1 : isVideoHost (u "https://www.youtube.com/watch?v=" ++ i ++ post)
               = true).
  { unfold isVideoHost. apply orb_true_iff. right.
    change (u "https://www.youtube.com/watch?v=" ++ i ++ post)
      with (u "https://www." ++ u "youtube.com" ++ u "/watch?v=" ++ i ++ post).
    apply includes_mid. }
  assert (H2 : isVideoHost (u "https://youtu.be/" ++ i ++ post) = true).
  { unfold isVideoHost. apply orb_true_iff. left.
    change (u "https://youtu.be/" ++ i ++ post)
      with (u "https://" ++ u "youtu.be" ++ u "/" ++ i ++ post).
    apply includes_mid. }
  assert (H3 : isVideoHost (u "https://www.youtube.com/embed/" ++ i ++ post)
               = true).
  { unfold isVideoHost. apply orb_true_iff. right.
    change (u "https://www.youtube.com/embed/" ++ i ++ post)
      with (u "https://www." ++ u "youtube.com" ++ u "/embed/" ++ i ++ post).
    apply includes_mid. }
  unfold toVideoEmbed. rewrite H1, H2, H3. clear H1 H2 H3.
  subst canonical.
  assert (Hv : videoId (u "https://www.youtube.com/watch?v=" ++ i ++ post)
               = Some i
               /\ videoId (u "https://youtu.be/" ++ i ++ post) = Some i
               /\ videoId (u "https://www.youtube.com/embed/" ++ i ++ post)
                  = Some i).
  { clear Hid.
    do 11 (destruct i as [|? i]; [discriminate Hlen|]).
    destruct i; [|discriminate Hlen]. clear Hlen.
    literal_prefix. cbn [app] in Hq, Hp.
    split; [|split]; pass_prefix; apply videoId_hit; assumption. }
  destruct Hv as [-> [-> ->]]. now split.
Qed.

End VideoLinkFacts.

(** ** Video classification, against the reference itself *)

Section VideoClassFacts.

Lemma startsWith_split p : forall s,
  startsWith p s = true -> s = p ++ skipn (length p) s.
Proof.
  induction p as [|x p IH]; intros s H; [reflexivity|].
  destruct s as [|y s]; [discriminate|]. cbn [startsWith] in H.
  apply andb_true_iff in H. destruct H as [Hxy H].
  apply N.eqb_eq in Hxy. subst y. cbn [length skipn app].
  f_equal. exact (IH s H).
Qed.

Lemma includes_iff p s :
  includes p s = true <-> exists pre post, s = pre ++ p ++ post.
Proof.
  split.
  - induction s as [|c s IH]; cbn [includes]; intros H.
    + rewrite orb_false_r in H. exists [], (skipn (length p) []).
      exact (startsWith_split p [] H).
    + apply orb_true_iff in H. destruct H as [H|H].
      * exists [], (skipn (length p) (c :: s)).
        exact (startsWith_split p (c :: s) H).
      * destruct (IH H) as [pre [post ->]]. now exists (c :: pre), post.
  - intros [pre [post ->]]. apply includes_mid.
Qed.

Lemma isVideoHost_iff url : isVideoHost url = true <-> onVideoHost url.
Proof.
  unfold isVideoHost, onVideoHost, hostNames. rewrite orb_true_iff.
  rewrite !includes_iff. split.
  - intros [[pre [post ->]]|[pre [post ->]]].
    + exists pre, (u "youtu.be"), post. split; [now left | reflexivity].
    + exists pre, (u "youtube.com"), post.
      split; [right; now left | reflexivity].
  - intros [pre [h [post [[<-|[<-|[]]] ->]]]].
    + left. now exists pre, post.
    + right. now exists pre, post.
Qed.

Lemma videoIdAt_iff s i : videoIdAt s = Some i <-> idAt s [] i.
Proof.
  split.
  - intros H. destruct (videoIdAt_sound s i H) as [L [F [lead [post [Hl ->]]]]].
    exists lead, post. repeat split; assumption.
  - intros [lead [post [Hl [-> [L F]]]]]. cbn [app].
    destruct Hl as [->| ->].
    + exact (videoIdAt_query i post L F).
    + exact (videoIdAt_path i post L F).
Qed.

Lemma idAt_cons c t pre i : idAt (c :: t) (c :: pre) i <-> idAt t pre i.
Proof.
  split; intros [lead [post [Hl [Hu [L F]]]]]; exists lead, post;
    repeat split; try assumption.
  - cbn [app] in Hu. now injection Hu.
  - cbn [app]. now f_equal.
Qed.

Lemma idAt_head c t pre i : idAt (c :: t) pre i ->
  pre = [] \/ exists pre', pre = c :: pre'.
Proof.
  intros [lead [post [_ [Hu _]]]]. destruct pre as [|c' pre']; [now left|].
  right. cbn [app] in Hu. injection Hu as -> _. now exists pre'.
Qed.

(** The search gives the id of the leftmost occurrence, and gives none
    only when there is no occurrence. *)
Lemma videoId_spec url :
  match videoId url with
  | Some i =>
    exists pre, idAt url pre i
                /\ forall pre' i', idAt url pre' i' ->
                                   (length pre <= length pre')%nat
  | None => forall pre i, ~ idAt url pre i
  end.
Proof.
  induction url as [|c t IH].
  - cbn [videoId]. destruct (videoIdAt []) as [i|] eqn:E.
    + apply videoIdAt_iff in E. exists []. split; [exact E|].
      intros. cbn. lia.
    + intros pre i [lead [post [_ [Hu [L _]]]]].
      apply (f_equal (@length N)) in Hu. rewrite !length_app, L in Hu.
      cbn in Hu. lia.
  - cbn [videoId]. destruct (videoIdAt (c :: t)) as [i|] eqn:E.
    + apply videoIdAt_iff in E. exists []. split; [exact E|].
      intros. cbn. lia.
    + destruct (videoId t) as [i|].
      * destruct IH as [pre [Hat Hleft]]. exists (c :: pre).
        split; [now apply idAt_cons|].
        intros pre' i' H'. destruct (idAt_head _ _ _ _ H') as [->|[p ->]].
        -- apply videoIdAt_iff in H'. congruence.
        -- apply idAt_cons in H'. specialize (Hleft p i' H'). cbn. lia.
      * intros pre i H. destruct (idAt_head _ _ _ _ H) as [->|[p ->]].
        -- apply videoIdAt_iff in H. congruence.
        -- apply idAt_cons in H. exact (IH p i H).
Qed.

Lemma startsWithI_split e : forall r,
  startsWithI e r = true ->
  exists ext rest, r = ext ++ rest /\ length ext = length e
                   /\ toLowerCase ext = toLowerCase e.
Proof.
  induction e as [|x e IH]; intros r H.
  - exists [], r. repeat split.
  - destruct r as [|y r]; [discriminate|]. cbn [startsWithI] in H.
    apply andb_true_iff in H. destruct H as [Hxy H].
    apply N.eqb_eq in Hxy.
    destruct (IH r H) as [ext [rest [-> [Hl He]]]].
    exists (y :: ext), rest. split; [reflexivity|].
    split; [cbn [length]; now rewrite Hl|].
    cbn [toLowerCase map]. unfold toLowerCase in He.
    now rewrite He, Hxy.
Qed.

Lemma videoExtAt_elim s :
  videoExtAt s = true ->
  exists ext rest,
    s = u "." ++ ext ++ rest
    /\ In (toLowerCase ext) [u "mp4"; u "webm"; u "ogg"]
    /\ (rest = [] \/ exists rest', rest = u "?" ++ rest').
Proof.
  destruct s as [|c r]; [discriminate|]. cbn [videoExtAt].
  intros H. apply andb_true_iff in H. destruct H as [Hc H].
  apply N.eqb_eq in Hc. subst c.
  apply existsb_exists in H. destruct H as [e [He H]].
  apply andb_true_iff in H. destruct H as [Hst Hrest].
  destruct (startsWithI_split e r Hst) as [ext [rest [-> [Hl Hlow]]]].
  rewrite <- Hl, skipn_app, skipn_all, Nat.sub_diag in Hrest.
  cbn [skipn app] in Hrest.
  exists ext, rest. split; [reflexivity|]. split.
  - rewrite Hlow. cbn [In] in He |- *.
    destruct He as [<-|[<-|[<-|[]]]]; auto.
  - destruct rest as [|x rest']; [now left|]. right.
    apply N.eqb_eq in Hrest. subst x. now exists rest'.
Qed.

Lemma hasVideoExt_iff url : hasVideoExt url = true <-> extAt url.
Proof.
  split.
  - induction url as [|c t IH]; cbn [hasVideoExt]; intros H.
    + rewrite orb_false_r in H.
      destruct (videoExtAt_elim [] H) as [ext [rest [Hu Hr]]].
      now exists [], ext, rest.
    + apply orb_true_iff in H. destruct H as [H|H].
      * destruct (videoExtAt_elim _ H) as [ext [rest [Hu Hr]]].
        now exists [], ext, rest.
      * destruct (IH H) as [pre [ext [rest [-> Hr]]]].
        now exists (c :: pre), ext, rest.
  - intros [pre [ext [rest [-> [He Hr]]]]].
    apply (hasVideoExt_intro pre ext rest He Hr).
Qed.

(** C8, as amended.  A reference that holds one of the host names becomes
    the hosting frame, whatever its extension: at the canonical embed
    locator with the id of the leftmost place where eleven id characters
    follow [v=] or a slash, when there is such a place, and at the
    reference itself when there is none.  A reference that holds no host
    name becomes a native video element when [.mp4], [.webm] or [.ogg], in
    any letter case, stands at its end or before a question mark, and a
    generic frame when no such extension stands there. *)
Theorem C8_video_classification (url : jsstring) :
  (onVideoHost url ->
   (forall pre0 i0, idAt url pre0 i0 ->
      exists pre i,
        idAt url pre i
        /\ (forall pre' i', idAt url pre' i' ->
                            (length pre <= length pre')%nat)
        /\ toVideoEmbed url
           = hostedFrame (u "https://www.youtube.com/embed/" ++ i))
   /\ ((forall pre i, ~ idAt url pre i) ->
       toVideoEmbed url = hostedFrame url))
  /\ (~ onVideoHost url ->
      (extAt url -> toVideoEmbed url = nativeVideo url)
      /\ (~ extAt url -> toVideoEmbed url = genericFrame url)).
Proof.
  split.
  - intros Hhost. apply isVideoHost_iff in Hhost.
    unfold toVideoEmbed. rewrite Hhost.
    pose proof (videoId_spec url) as Hspec.
    destruct (videoId url) as [i|]; split.
    + intros _ _ _. destruct Hspec as [pre [Hat Hleft]].
      exists pre, i. now repeat split.
    + intros Hnone. destruct Hspec as [pre [Hat _]].
      now destruct (Hnone pre i).
    + intros pre0 i0 H0. now destruct (Hspec pre0 i0).
    + reflexivity.
  - intros Hhost.
    assert (Hh : isVideoHost url = false).
    { destruct (isVideoHost url) eqn:E; [|reflexivity].
      apply isVideoHost_iff in E. contradiction. }
    unfold toVideoEmbed. rewrite Hh. split.
    + intros Hext. apply hasVideoExt_iff in Hext. now rewrite Hext.
    + intros Hext. destruct (hasVideoExt url) eqn:E; [|reflexivity].
      apply hasVideoExt_iff in E. contradiction.
Qed.

End VideoClassFacts.

(** ** The item list of a media element *)

Section MediaItemsFacts.

Variable SITE_BASE : option jsstring.
Variable randomSuffix : nat -> nat -> jsstring.











End MediaItemsFacts.


(** A watch link whose host part holds no id, a file reference with its
    extension in capitals, a file reference whose extension is not at the
    end, and a reference of the hosting domain without id. *)
Lemma C8_video_classification_witness :
  (exists pre i,
     idAt (u "https://www.youtube.com/watch?v=dQw4w9WgXcQ&t=10s") pre i
     /\ (forall pre' i',
           idAt (u "https://www.youtube.com/watch?v=dQw4w9WgXcQ&t=10s")
                pre' i' -> (length pre <= length pre')%nat)
     /\ toVideoEmbed (u "https://www.youtube.com/watch?v=dQw4w9WgXcQ&t=10s")
        = hostedFrame (u "https://www.youtube.com/embed/" ++ i))
  /\ toVideoEmbed (u "media/run 1.MP4") = nativeVideo (u "media/run 1.MP4")
  /\ toVideoEmbed (u "media/a.mp4.txt") = genericFrame (u "media/a.mp4.txt")
  /\ toVideoEmbed hostedFile = hostedFrame hostedFile.
Proof.
  split; [|split; [|split]].
  - apply (proj1 (proj1 (C8_video_classification
                  (u "https://www.youtube.com/watch?v=dQw4w9WgXcQ&t=10s"))
                 (ex_intro _ (u "https://www.")
                    (ex_intro _ (u "youtube.com")
                       (ex_intro _ (u "/watch?v=dQw4w9WgXcQ&t=10s")
                          (conj (or_intror (or_introl eq_refl)) eq_refl)))))
                (u "https://www.youtube.com/watch?") (u "dQw4w9WgXcQ")).
    exists (u "v="), (u "&t=10s"). repeat split. now left.
  - apply (proj1 (proj2 (C8_video_classification (u "media/run 1.MP4"))
                        (fun H => Bool.diff_false_true
                                    (proj2 (isVideoHost_iff _) H)))).
    exists (u "media/run 1"), (u "MP4"), []. repeat split.
    + now left.
    + now left.
  - apply (proj2 (proj2 (C8_video_classification (u "media/a.mp4.txt"))
                        (fun H => Bool.diff_false_true
                                    (proj2 (isVideoHost_iff _) H)))).
    intros H. apply hasVideoExt_iff in H. discriminate H.
  - apply (proj2 (proj1 (C8_video_classification hostedFile)
                        (ex_intro _ (u "https://")
                           (ex_intro _ (u "youtube.com")
                              (ex_intro _ (u "/a.mp4")
                                 (conj (or_intror (or_introl eq_refl))
                                       eq_refl)))))).
    intros pre i H. pose proof (videoId_spec hostedFile) as Hs.
    exact (Hs pre i H).
Defined.


(** ** Elements of an unknown type *)

Section UnknownTypeFacts.

Variable SITE_BASE : option jsstring.
Variable randomSuffix : nat -> nat -> jsstring.

Lemma eqb_neq (a b : jsstring) : a <> b -> eqb a b = false.
Proof.
  intros H. destruct (eqb a b) eqn:E; [|reflexivity].
  apply eqb_eq in E. contradiction.
Qed.

Lemma mapMi_throws {A B} (f : A -> nat -> result B) (x : A) (l : list A) :
  In x l -> (forall k, exists e, f x k = Throw e) ->
  forall k, exists e, mapMi f k l = Throw e.
Proof.
  intros Hin Hx. induction l as [|y l IH]; [contradiction|]. intros k.
  cbn [mapMi]. destruct Hin as [->|Hin].
  - destruct (Hx k) as [e He]. rewrite He. now exists e.
  - destruct (f y k) as [b|e]; [|now exists e]. cbn [bind].
    destruct (IH Hin (S k)) as [e He]. rewrite He. now exists e.
Qed.

(** X18: the fallback renderer the dispatch names does not exist: an element
    whose normalised type is no key of the table throws a ReferenceError,
    and any elements array that holds such an element makes
    [renderElements] throw instead of returning markup. *)
Theorem unknown_type_throws
        (els : list Element) (el : Element) (ctx : Route) (page : Page) :
  In el els ->
  ~ In (normalizeType (el_type el)) (rendererKeys ++ inheritedKeys) ->
  (forall i, renderElement SITE_BASE randomSuffix el ctx i page
             = Throw ReferenceError)
  /\ exists e, renderElements SITE_BASE randomSuffix els ctx page = Throw e.
Proof.
  intros Hin Hkey.
  assert (Hel : forall i, renderElement SITE_BASE randomSuffix el ctx i page
                          = Throw ReferenceError).
  { intros i. unfold renderElement. cbv zeta.
    repeat (rewrite eqb_neq;
            [|intros Heq; apply Hkey; rewrite Heq;
              cbn [rendererKeys inheritedKeys app In]; tauto]).
    reflexivity. }
  split; [exact Hel|].
  rewrite renderElements_mapMi.
  destruct (mapMi_throws
              (fun el0 i => renderElement SITE_BASE randomSuffix el0 ctx i page)
              el els Hin (fun k => ex_intro _ ReferenceError (Hel k)) 0%nat)
    as [e He].
  rewrite He. now exists e.
Qed.

End UnknownTypeFacts.

(** ** Hydration of the whole tree *)

Section HydrationTreeFacts.

Import Hydrate.

(** X19: the tree that hydration leaves does not depend on the order in
    which the fetches settle: whatever the order, it is the tree obtained
    when they settle in document order, in which every pending block that
    stands in no other one holds the text of its own fetch and the rest
    is as it was. *)
Theorem hydration_order_irrelevant
        (net : Path -> Fetched) (root : Node) (order : list Path) :
  Permutation order (querySelectorAll root) ->
  runSettled net order root = hydrateCodeBlocks net root
  /\ runSettled net order root = hydratedBelow net root.
Proof.
  intros Hperm. unfold hydrateCodeBlocks.
  rewrite (hydration_spec net order root Hperm).
  now rewrite (hydration_spec net _ root (Permutation_refl _)).
Qed.

Lemma outline_hydrated n : forall net, outline (hydrated net n) = outline n.
Proof.
  induction n as [s|tg cl ds kids IH] using Node_induction;
    intros net; [reflexivity|].
  cbn [hydrated]. destruct (pending (Elem tg cl ds kids)) eqn:P.
  - cbn [outline].
    change (pending (Elem tg cl ds (textNodes
                       (loadedText (orElse ds []) (net [])))))
      with (pending (Elem tg cl ds kids)).
    now rewrite P.
  - cbn [outline].
    change (pending (Elem tg cl ds
                       (imap (fun k x => hydrated (fun r => net (k :: r)) x)
                             0 kids)))
      with (pending (Elem tg cl ds kids)).
    rewrite P. f_equal. rewrite map_imap, <- (imap_map outline kids 0).
    apply imap_ext_nth. intros k x Hx.
    rewrite Forall_forall in IH. apply (IH x (nth_error_In _ _ Hx)).
Qed.

(** X20: hydration changes nothing outside the pending blocks: once the
    content of every pending block is left out, the tree after hydration
    is the tree before it, whatever the order in which the fetches settle;
    the blocks themselves keep their tag, their classes and their
    [data-src]. *)
Theorem hydration_outside_blocks
        (net : Path -> Fetched) (root : Node) (order : list Path) :
  Permutation order (querySelectorAll root) ->
  outlineBelow (runSettled net order root) = outlineBelow root.
Proof.
  intros Hperm. rewrite (hydration_spec net order root Hperm).
  destruct root as [s|tg cl ds kids]; [reflexivity|].
  cbn [hydratedBelow outlineBelow]. f_equal.
  rewrite map_imap, <- (imap_map outline kids 0).
  apply imap_ext_nth. intros k x Hx. apply outline_hydrated.
Qed.

End HydrationTreeFacts.

(** ** Placeholders of a page title *)

Section TitleFacts.

Variable nativeText : jsstring -> jsstring.
Variable vars : list (jsstring * jsstring).

Lemma replaceFrom_context (m : matcher) :
  (forall b b' s, m b s = m b' s) ->
  forall s k b b', replaceFrom m k b s = replaceFrom m k b' s.
Proof.
  intros Hm. induction s as [|c s IH]; intros k b b'; [reflexivity|].
  cbn [replaceFrom]. destruct k as [|k]; [|apply IH].
  rewrite (Hm b b' (c :: s)).
  destruct (m b' (c :: s)) as [[[|n] r]|];
    now rewrite (IH _ (b ++ [c]) (b' ++ [c])).
Qed.

Lemma placeholder_hit k post b :
  k <> [] -> forallb isWord k = true ->
  placeholder nativeText vars b (123 :: k ++ 125 :: post)
  = Some (S (length k + 1), tplValue nativeText vars k).
Proof.
  intros Hk Hw. unfold placeholder. cbn [N.eqb Pos.eqb].
  rewrite (span_until isWord k 125 post Hw eq_refl).
  destruct k as [|c k]; [contradiction|]. reflexivity.
Qed.

(** X21: the placeholders of a title are filled in one pass, left to right:
    the text before the first placeholder is kept, the placeholder gives
    its value, which is not scanned again, and the pass goes on after the
    closing brace. *)
Theorem tpl_single_pass (pre k post : jsstring) :
  noBrace pre = true -> k <> [] -> forallb isWord k = true ->
  tpl nativeText (pre ++ u "{" ++ k ++ u "}" ++ post) vars
  = pre ++ tplValue nativeText vars k ++ tpl nativeText post vars.
Proof.
  intros Hpre Hk Hw. unfold tpl, replaceAll.
  rewrite (replaceFrom_keep (placeholder nativeText vars)
                            (fun c => negb (c =? 123))).
  2:{ intros b c t Hc. unfold placeholder.
      apply negb_true_iff in Hc. now rewrite Hc. }
  2:{ exact Hpre. }
  f_equal. change (u "{" ++ k ++ u "}" ++ post) with (123 :: k ++ 125 :: post).
  cbn [replaceFrom]. rewrite (placeholder_hit k post _ Hk Hw).
  f_equal.
  replace (k ++ 125 :: post) with ((k ++ [125]) ++ post)
    by (now rewrite <- app_assoc).
  replace (length k + 1)%nat with (length (k ++ [125]))
    by (rewrite length_app; reflexivity).
  rewrite replaceFrom_skip.
  apply replaceFrom_context. reflexivity.
Qed.

End TitleFacts.

(** ** What [boot] shows without a page *)

Section BootFacts.

Variable SITE_BASE : option jsstring.
Variable CLASSES : list jsstring.
Variables REPO_OWNER REPO_NAME REPO_BRANCH : option jsstring.
Variable randomSuffix : nat -> nat -> jsstring.
Variable nativeText : jsstring -> jsstring.
Variable nativeMessage : thrown -> jsstring.

Lemma dropLeadingSlashes_noSlash s :
  noSlash s = true -> dropLeadingSlashes s = s.
Proof.
  destruct s as [|c t]; [reflexivity|]. unfold noSlash. cbn [forallb].
  intros H. apply andb_true_iff in H. destruct H as [Hc _].
  apply negb_true_iff in Hc. cbn [dropLeadingSlashes]. now rewrite Hc.
Qed.

Lemma dropTrailingSlashes_noSlash s :
  noSlash s = true -> dropTrailingSlashes s = s.
Proof.
  induction s as [|c t IH]; [reflexivity|]. unfold noSlash. cbn [forallb].
  intros H. apply andb_true_iff in H. destruct H as [Hc Ht].
  apply negb_true_iff in Hc. cbn [dropTrailingSlashes forallb].
  rewrite N.eqb_sym, Hc. cbn [andb]. now rewrite (IH Ht).
Qed.

Lemma single_name_route (loc : Location) (nm : jsstring) :
  truthy (search_class loc) && truthy (search_id loc) = false ->
  decodeURIComponent (pathname loc) = Ok (BASE SITE_BASE ++ nm) ->
  noSlash nm = true ->
  parseRoute SITE_BASE CLASSES loc = Ok nullRoute.
Proof.
  intros Hq Hp Hnm. unfold parseRoute. rewrite Hq, Hp. cbn [bind].
  cbv zeta. rewrite edgeSlashes_trims.
  match goal with
  | |- context [dropTrailingSlashes ?x] =>
    assert (Htrim : dropTrailingSlashes x = nm)
  end.
  { rewrite startsWith_app, andb_true_r, skipn_exact.
    destruct (eqb (BASE SITE_BASE) (u "/")) eqn:E; cbn [negb].
    - apply eqb_eq in E. rewrite E.
      change (u "/" ++ nm) with (slash :: nm).
      cbn [dropLeadingSlashes]. rewrite N.eqb_refl.
      now rewrite dropLeadingSlashes_noSlash, dropTrailingSlashes_noSlash.
    - now rewrite dropLeadingSlashes_noSlash, dropTrailingSlashes_noSlash. }
  rewrite Htrim, (split_no_sep nm (noSlash_not_In nm Hnm)). reflexivity.
Qed.

(** X22: opened at the base path with a single name after it and without the
    two query parameters, as the interpreter page itself is, [boot] shows
    the missing-route card: it needs neither the repository settings nor
    the network. *)
Theorem boot_without_route
        (loc : Location) (nm : jsstring) (net : jsstring -> PageFetched) :
  truthy (search_class loc) && truthy (search_id loc) = false ->
  decodeURIComponent (pathname loc) = Ok (BASE SITE_BASE ++ nm) ->
  noSlash nm = true ->
  boot SITE_BASE CLASSES REPO_OWNER REPO_NAME REPO_BRANCH randomSuffix
       nativeText nativeMessage loc net
  = missingRouteCard SITE_BASE.
Proof.
  intros Hq Hp Hnm. unfold boot.
  now rewrite (single_name_route loc nm Hq Hp Hnm).
Qed.

(** X23: with a route but without the owner or the name of the repository,
    [boot] shows the load-error card with the message of [buildJsonUrl],
    and nothing is requested: the card is the same whatever the network
    would answer. *)
Theorem boot_missing_config
        (loc : Location) (r : Route) (net : jsstring -> PageFetched) :
  parseRoute SITE_BASE CLASSES loc = Ok r ->
  missingRoute r = false ->
  negb (truthy REPO_OWNER) || negb (truthy REPO_NAME) = true ->
  boot SITE_BASE CLASSES REPO_OWNER REPO_NAME REPO_BRANCH randomSuffix
       nativeText nativeMessage loc net
  = card (u "<h2>Load error</h2><p class=" ++ q (u "muted") ++ u ">"
            ++ u "Error: Missing REPO_OWNER or REPO_NAME in site.config.js"
            ++ u "</p>").
Proof.
  intros Hr Hm Hcfg. unfold boot. rewrite Hr. cbn [ofResult andThen].
  rewrite Hm. unfold buildJsonUrl. rewrite Hcfg. cbn [andThen].
  reflexivity.
Qed.

End BootFacts.

(** ** Instances *)

Lemma isHttp_any_case_witness :
  isHttp (u "HTTPS://Example.org/a.pdf") = true
  /\ makeSrc None (Some (u "HTTPS://Example.org/a.pdf")) emptyPage nullRoute
     = Ok (u "HTTPS://Example.org/a.pdf").
Proof.
  exact (isHttp_any_case None (Some (u "HTTPS://Example.org/a.pdf"))
                         emptyPage nullRoute eq_refl).
Defined.

Lemma escapeHtml_no_markup_witness :
  In 38 (escapeHtml (u "<b>"))
  /\ 38 <> 60 /\ 38 <> 62 /\ 38 <> 34 /\ 38 <> 39.
Proof.
  assert (H : In 38 (escapeHtml (u "<b>"))) by (vm_compute; now left).
  split; [exact H|].
  exact (escapeHtml_no_markup (u "<b>") 38 H).
Defined.

Lemma escapeHtml_app_witness :
  escapeHtml (u "ab" ++ u "<") = escapeHtml (u "ab") ++ escapeHtml (u "<")
  /\ escapeHtml (u "ab") = u "ab".
Proof.
  destruct (escapeHtml_app (u "ab") (u "<")) as [H1 H2].
  split; [exact H1 | exact (H2 eq_refl)].
Defined.

Lemma guessLang_table_witness :
  guessLang (u "src/main" ++ u ".PY") = u "python".
Proof.
  apply (guessLang_table (u "src/main") (u ".PY") (u ".py") (u "python")).
  - now left.
  - reflexivity.
Defined.

Lemma guessLang_unknown_witness : guessLang (u "notes.txt") = [].
Proof. exact (guessLang_unknown (u "notes.txt") eq_refl). Defined.

Lemma stripExt_last_extension_witness :
  stripExt (u "archive.tar" ++ 46 :: u "gz") = u "archive.tar".
Proof.
  destruct (stripExt_last_extension (u "archive.tar") (u "gz") eq_refl)
    as [H _].
  apply H. discriminate.
Defined.

Lemma filenameStem_of_path_witness :
  filenameStem (u "DE/1.1.9" ++ u "/" ++ u "Soldering" ++ u "." ++ u "json")
  = u "Soldering"
  /\ filenameStem (u "Soldering" ++ u "." ++ u "json") = u "Soldering".
Proof.
  apply (filenameStem_of_path (u "DE/1.1.9") (u "Soldering") (u "json"));
    try reflexivity; discriminate.
Defined.

Lemma buildJsonUrl_round_trip_witness :
  buildJsonUrl None (Some (u "5840C")) None (u "DE") (u "1.1.9 Soldering")
  = Raised (ErrorWith (u "Missing REPO_OWNER or REPO_NAME in site.config.js"))
  /\ exists owner repo branch path,
       buildJsonUrl (Some (u "m-jeide")) (Some (u "5840C")) None
                    (u "DE/Unit 1") (u "1.1.9 Soldering")
       = Returned (u "https://raw.githubusercontent.com/" ++ owner
                     ++ u "/" ++ repo ++ u "/" ++ branch ++ u "/" ++ path)
       /\ decodeURIComponent owner = Ok (u "m-jeide")
       /\ decodeURIComponent repo = Ok (u "5840C")
       /\ decodeURIComponent branch = Ok (u "main")
       /\ ~ In slash owner /\ ~ In slash repo /\ ~ In slash branch
       /\ decodeLocalPath path
          = Ok (u "pages/" ++ u "DE/Unit 1" ++ u "/" ++ u "1.1.9 Soldering"
                  ++ u ".json")
       /\ mapM encodeURIComponent
               (split slash (u "pages/" ++ u "DE/Unit 1" ++ u "/"
                               ++ u "1.1.9 Soldering" ++ u ".json"))
          = Ok (split slash path).
Proof.
  split.
  - exact (proj1 (buildJsonUrl_round_trip None (Some (u "5840C")) None
                    (u "DE") (u "1.1.9 Soldering")) eq_refl).
  - exact (proj2 (buildJsonUrl_round_trip
                    (Some (u "m-jeide")) (Some (u "5840C")) None
                    (u "DE/Unit 1") (u "1.1.9 Soldering"))
                 eq_refl eq_refl eq_refl eq_refl eq_refl eq_refl).
Defined.

Lemma richText_emphasis_witness :
  richText (u "hello") = u "hello"
  /\ richText (u "**" ++ u "hello" ++ u "**")
     = u "<strong>" ++ u "hello" ++ u "</strong>"
  /\ richText (u "*" ++ u "hello" ++ u "*")
     = u "<em>" ++ u "hello" ++ u "</em>".
Proof.
  destruct (richText_emphasis (u "hello") eq_refl) as [H1 H2].
  split; [exact H1 | apply H2; discriminate].
Defined.

Lemma richText_autolink_witness :
  richText (u "http://" ++ u "example.org/a")
  = anchor (u "http://" ++ u "example.org/a")
  /\ richText (u "https://" ++ u "example.org/a")
     = anchor (u "https://" ++ u "example.org/a").
Proof.
  apply (richText_autolink (u "example.org/a")); [reflexivity | discriminate].
Defined.

Lemma encodeLocalPath_safe_witness :
  exists e, encodeLocalPath (u "docs/My File#1.pdf") = Ok e
            /\ forallb pathSafe e = true.
Proof. exact (encodeLocalPath_safe (u "docs/My File#1.pdf") eq_refl). Defined.

Lemma makeSrc_local_join_witness :
  exists e,
    encodeLocalPath
      (dropLeadingSlashes
         (expandTemplatePath (Some (u "//docs/a b.pdf")) emptyPage nullRoute))
    = Ok e
    /\ u "/eng-portfolio/docs/a%20b.pdf" = BASE (Some (u "/eng-portfolio")) ++ e
    /\ endsWith (u "/") (BASE (Some (u "/eng-portfolio"))) = true
    /\ startsWith (u "/") e = false
    /\ (endsWith (u "//") (orElse (Some (u "/eng-portfolio")) (u "/")) = false ->
        endsWith (u "//") (BASE (Some (u "/eng-portfolio"))) = false).
Proof.
  apply (makeSrc_local_join
           (Some (u "/eng-portfolio")) (Some (u "//docs/a b.pdf"))
           emptyPage nullRoute); reflexivity.
Defined.

Lemma parseRoute_stray_percent_witness :
  parseRoute (Some (u "/eng-portfolio")) [] percentLocation = Throw URIError.
Proof.
  apply (parseRoute_stray_percent
           (Some (u "/eng-portfolio")) [] percentLocation
           (u "%41 100") []);
    try reflexivity.
  right. reflexivity.
Defined.

Lemma path_route_whole_or_null_witness :
  sampleRoute = nullRoute
  \/ (exists c i, sampleRoute = {| cls := Some c; id := Some i |}
                  /\ c <> [] /\ i <> [] /\ missingRoute sampleRoute = false).
Proof.
  apply (path_route_whole_or_null
           (Some (u "/eng-portfolio")) [u "DE"] prettyLocation);
    reflexivity.
Defined.

Lemma toVideoEmbed_common_links_witness :
  toVideoEmbed (u "https://www.youtube.com/watch?v=" ++ u "dQw4w9WgXcQ"
                  ++ u "&t=10s")
  = hostedFrame (u "https://www.youtube.com/embed/" ++ u "dQw4w9WgXcQ")
  /\ toVideoEmbed (u "https://youtu.be/" ++ u "dQw4w9WgXcQ" ++ u "&t=10s")
     = hostedFrame (u "https://www.youtube.com/embed/" ++ u "dQw4w9WgXcQ")
  /\ toVideoEmbed (u "https://www.youtube.com/embed/" ++ u "dQw4w9WgXcQ"
                     ++ u "&t=10s")
     = hostedFrame (u "https://www.youtube.com/embed/" ++ u "dQw4w9WgXcQ").
Proof.
  apply (toVideoEmbed_common_links (u "dQw4w9WgXcQ") (u "&t=10s"));
    reflexivity.
Defined.

Lemma unknown_type_throws_witness :
  (forall i, renderElement None noSuffix (element (u "Gallery"))
                           sampleRoute i emptyPage
             = Throw ReferenceError)
  /\ exists e, renderElements None noSuffix
                 [sampleNotes; element (u "Gallery")] sampleRoute emptyPage
               = Throw e.
Proof.
  apply (unknown_type_throws None noSuffix).
  - right. now left.
  - vm_compute. intuition discriminate.
Defined.

Lemma hydration_order_irrelevant_witness :
  Hydrate.runSettled sampleNet [[0; 1]; [0]]%nat nestedDom
  = Hydrate.hydrateCodeBlocks sampleNet nestedDom
  /\ Hydrate.runSettled sampleNet [[0; 1]; [0]]%nat nestedDom
     = Hydrate.hydratedBelow sampleNet nestedDom.
Proof.
  exact (hydration_order_irrelevant sampleNet nestedDom [[0; 1]; [0]]%nat
                                    (perm_swap [0]%nat [0; 1]%nat [])).
Defined.

Lemma hydration_outside_blocks_witness :
  Hydrate.outlineBelow
    (Hydrate.runSettled sampleNet [[2; 0; 1]; [0; 1]]%nat sampleDom)
  = Hydrate.outlineBelow sampleDom.
Proof.
  exact (hydration_outside_blocks sampleNet sampleDom
                                  [[2; 0; 1]; [0; 1]]%nat
                                  (perm_swap [0; 1]%nat [2; 0; 1]%nat [])).
Defined.

Lemma tpl_single_pass_witness :
  tpl noText (u "Lab " ++ u "{" ++ u "file" ++ u "}" ++ u " of {id}")
      [(u "file", u "{id}"); (u "id", u "1.1.9")]
  = u "Lab " ++ tplValue noText [(u "file", u "{id}"); (u "id", u "1.1.9")]
                         (u "file")
      ++ tpl noText (u " of {id}") [(u "file", u "{id}"); (u "id", u "1.1.9")].
Proof.
  apply (tpl_single_pass noText
                         [(u "file", u "{id}"); (u "id", u "1.1.9")]
                         (u "Lab ") (u "file") (u " of {id}"));
    try reflexivity.
  discriminate.
Defined.

Lemma boot_without_route_witness :
  boot (Some (u "/eng-portfolio")) [] None None None noSuffix noText
       noMessage pageLocation noPage
  = missingRouteCard (Some (u "/eng-portfolio")).
Proof.
  apply (boot_without_route (Some (u "/eng-portfolio")) [] None None None
                            noSuffix noText noMessage pageLocation
                            (u "interpreter.html") noPage);
    reflexivity.
Defined.

Lemma boot_missing_config_witness :
  boot (Some (u "/eng-portfolio")) [] None (Some (u "5840C")) None noSuffix
       noText noMessage prettyLocation noPage
  = card (u "<h2>Load error</h2><p class=" ++ q (u "muted") ++ u ">"
            ++ u "Error: Missing REPO_OWNER or REPO_NAME in site.config.js"
            ++ u "</p>").
Proof.
  apply (boot_missing_config (Some (u "/eng-portfolio")) [] None
                             (Some (u "5840C")) None noSuffix noText
                             noMessage prettyLocation sampleRoute noPage);
    reflexivity.
Defined.

Lemma normalizeType_canonical_witness :
  forallb (fun c => negb (isSpace c) && negb (isUpper c))
          (normalizeType (Some (u "Design Brief")))
  = true
  /\ normalizeType (Some (normalizeType (Some (u "Design Brief"))))
     = normalizeType (Some (u "Design Brief"))
  /\ normalizeType (Some (toLowerCase (u "Design Brief")))
     = normalizeType (Some (u "Design Brief"))
  /\ normalizeType (Some (filter (fun c => negb (isSpace c))
                                 (u "Design Brief")))
     = normalizeType (Some (u "Design Brief")).
Proof.
  exact (normalizeType_canonical (Some (u "Design Brief")) eq_refl).
Defined.

(** The class [XX] is not in the list [DE, POE]: as the first segment of
    the path it is rejected, as a query parameter it is returned; the
    class [DE] is accepted, and a path that cannot be decoded throws. *)
Lemma C2_path_route_allow_list_witness :
  parseRoute (Some (u "/eng-portfolio")) [u "DE"; u "POE"]
             {| search_class := None; search_id := None;
                pathname := u "/eng-portfolio/XX/1.1.9%20Soldering/" |}
  = Ok nullRoute
  /\ parseRoute (Some (u "/eng-portfolio")) [u "DE"; u "POE"] prettyLocation
     = Ok {| cls := Some (u "DE"); id := Some (u "1.1.9 Solderin" ++ [103]) |}
  /\ parseRoute (Some (u "/eng-portfolio")) [u "DE"; u "POE"]
                {| search_class := None; search_id := None;
                   pathname := u "/eng-portfolio/XX/100%" |}
     = Throw URIError
  /\ parseRoute (Some (u "/eng-portfolio")) [u "DE"; u "POE"] queryLocation
     = Ok {| cls := Some (u "XX"); id := Some (u "1.1.9") |}.
Proof.
  split; [|split; [|split]].
  - refine (proj2 (proj1 (proj2 (proj1
              (C2_path_route_allow_list
                 (Some (u "/eng-portfolio")) [u "DE"; u "POE"]
                 {| search_class := None; search_id := None;
                    pathname := u "/eng-portfolio/XX/1.1.9%20Soldering/" |})
              eq_refl)) (u "XX") (u "1.1.9 Solderin") 103 (u "/")
              eq_refl _ eq_refl _ eq_refl) _ _).
    + discriminate.
    + discriminate.
    + discriminate.
    + vm_compute. intros [H|[H|[]]]; discriminate H.
  - refine (proj1 (proj1 (proj2 (proj1
              (C2_path_route_allow_list
                 (Some (u "/eng-portfolio")) [u "DE"; u "POE"]
                 prettyLocation)
              eq_refl)) (u "DE") (u "1.1.9 Solderin") 103 []
              eq_refl _ eq_refl _ eq_refl) _).
    + discriminate.
    + discriminate.
    + right. now left.
  - exact (proj1 (proj1
              (C2_path_route_allow_list
                 (Some (u "/eng-portfolio")) [u "DE"; u "POE"]
                 {| search_class := None; search_id := None;
                    pathname := u "/eng-portfolio/XX/100%" |})
              eq_refl) URIError eq_refl).
  - exact (proj2 (proj2
              (C2_path_route_allow_list
                 (Some (u "/eng-portfolio")) [u "DE"; u "POE"]
                 queryLocation))
              eq_refl (u "XX") (u "1.1.9") eq_refl eq_refl).
Defined.
